(** * Orchestration core: workflow engine and reliability primitives

  A shallow embedding of
    - [complete_n8n_workflow_integration.py]: [CircuitBreaker],
      [safe_camel_case], [IZAOSWorkflowIntegrator._check_rate_limit] and
      [IZAOSWorkflowIntegrator._execute_with_retry];
    - [workflow_engine.py]: [Workflow], [WorkflowEngine].

  Conventions.  Wall-clock readings ([time.time()], [datetime.now()]) and
  sleep durations are integers counting clock ticks; every function that
  reads the clock receives the reading as an argument.  Python exceptions
  are explicit result constructors.  Python objects that are shared by
  reference (a workflow is reachable both from the engine's table and from
  its execution coroutine) live in one store keyed by their id. *)

From stdpp Require Import gmap strings list fin_maps pretty.
From Stdlib Require Import ZArith Lia Ascii.

Local Open Scope Z_scope.

(* ===================================================================== *)
(** ** Circuit breaker *)
(* ===================================================================== *)

Module CircuitBreaker.

(** [self.state] holds one of three string literals. *)
Inductive cb_state := CLOSED | OPEN | HALF_OPEN.

#[global] Instance cb_state_eq_dec : EqDecision cb_state.
Proof. solve_decision. Defined.

Record t := mk {
  failure_threshold : Z;
  recovery_timeout : Z;
  failure_count : Z;
  last_failure_time : option Z;   (* None until the first failure *)
  state : cb_state
}.

(** [__init__]; the defaults are 5 and 60. *)
Definition init (threshold timeout : Z) : t :=
  {| failure_threshold := threshold; recovery_timeout := timeout;
     failure_count := 0; last_failure_time := None; state := CLOSED |}.

Definition default : t := init 5 60.

Definition set_state (s : cb_state) (cb : t) : t :=
  {| failure_threshold := failure_threshold cb;
     recovery_timeout := recovery_timeout cb;
     failure_count := failure_count cb;
     last_failure_time := last_failure_time cb;
     state := s |}.

(** [can_execute].  The result is [None] where Python raises [TypeError]
    ([time.time() - None], an OPEN breaker that never recorded a
    failure). *)
Definition can_execute (now : Z) (cb : t) : option (bool * t) :=
  match state cb with
  | CLOSED => Some (true, cb)
  | OPEN =>
      match last_failure_time cb with
      | None => None
      | Some lf =>
          if recovery_timeout cb <=? now - lf
          then Some (true, set_state HALF_OPEN cb)
          else Some (false, cb)
      end
  | HALF_OPEN => Some (true, cb)
  end.

Definition record_success (cb : t) : t :=
  {| failure_threshold := failure_threshold cb;
     recovery_timeout := recovery_timeout cb;
     failure_count := 0;
     last_failure_time := last_failure_time cb;
     state := CLOSED |}.

Definition record_failure (now : Z) (cb : t) : t :=
  let count := failure_count cb + 1 in
  {| failure_threshold := failure_threshold cb;
     recovery_timeout := recovery_timeout cb;
     failure_count := count;
     last_failure_time := Some now;
     state := if failure_threshold cb <=? count then OPEN else state cb |}.

(** Consecutive failures, one per clock reading, oldest first. *)
Definition record_failures (nows : list Z) (cb : t) : t :=
  foldl (fun c now => record_failure now c) cb nows.

(** Consecutive admission checks with no outcome recorded in between;
    returns the answers, oldest first.  A [TypeError] ends the run. *)
Fixpoint probes (nows : list Z) (cb : t) : list bool :=
  match nows with
  | [] => []
  | now :: rest =>
      match can_execute now cb with
      | None => []
      | Some (b, cb') => b :: probes rest cb'
      end
  end.

Definition admitted (answers : list bool) : nat :=
  length (filter (fun b => b = true) answers).

(** What every breaker built by [init] and driven through the three
    methods satisfies. *)
Definition wf (cb : t) : Prop :=
  0 <= failure_count cb /\
  (state cb <> CLOSED ->
     failure_threshold cb <= failure_count cb /\
     is_Some (last_failure_time cb)).

(** The states a breaker can be in: built by [init], then driven through
    the three methods. *)
Inductive reachable (threshold timeout : Z) : t -> Prop :=
| reach_init : reachable threshold timeout (init threshold timeout)
| reach_can_execute cb now b cb' :
    reachable threshold timeout cb ->
    can_execute now cb = Some (b, cb') ->
    reachable threshold timeout cb'
| reach_success cb :
    reachable threshold timeout cb ->
    reachable threshold timeout (record_success cb)
| reach_failure cb now :
    reachable threshold timeout cb ->
    reachable threshold timeout (record_failure now cb).

(** The same invariant as a check that evaluates. *)
Definition wfb (cb : t) : bool :=
  (0 <=? failure_count cb) &&
  match state cb with
  | CLOSED => true
  | _ => (failure_threshold cb <=? failure_count cb)
         && bool_decide (is_Some (last_failure_time cb))
  end.

(** "Exactly one probe is admitted": of the admission checks made at the
    clock readings [nows], with no outcome recorded in between, one is
    answered [True]. *)
Definition exactly_one_probe (nows : list Z) (cb : t) : Prop :=
  admitted (probes nows cb) = 1%nat.

End CircuitBreaker.

(* ===================================================================== *)
(** ** The integrator's reliability layer: rate limiter and retry wrapper *)
(* ===================================================================== *)

Module Integrator.

Record SecurityConfig := mkSecurityConfig {
  api_rate_limit : Z                       (* default 100 *)
}.

Record PerformanceConfig := mkPerformanceConfig {
  retry_attempts : Z;                      (* default 3 *)
  retry_delay : Z                          (* default 1 *)
}.

(** The counters of [PerformanceMonitor.record_request].  The running
    average of response times is a float that no modelled code reads; it is
    left out. *)
Record Metrics := mkMetrics {
  request_count : Z;
  error_count : Z
}.

Definition record_request (success : bool) (m : Metrics) : Metrics :=
  {| request_count := request_count m + 1;
     error_count := if success then error_count m else error_count m + 1 |}.

Record t := mk {
  security_config : SecurityConfig;
  performance_config : PerformanceConfig;
  performance_monitor : Metrics;
  rate_limiter : gmap string (list Z);     (* key -> admitted timestamps *)
  circuit_breaker : CircuitBreaker.t
}.

(** [__init__] with the given configurations. *)
Definition init (sc : SecurityConfig) (pc : PerformanceConfig) : t :=
  {| security_config := sc; performance_config := pc;
     performance_monitor := {| request_count := 0; error_count := 0 |};
     rate_limiter := ∅; circuit_breaker := CircuitBreaker.default |}.

Definition set_rate_limiter (rl : gmap string (list Z)) (it : t) : t :=
  {| security_config := security_config it;
     performance_config := performance_config it;
     performance_monitor := performance_monitor it;
     rate_limiter := rl;
     circuit_breaker := circuit_breaker it |}.

Definition set_circuit_breaker (cb : CircuitBreaker.t) (it : t) : t :=
  {| security_config := security_config it;
     performance_config := performance_config it;
     performance_monitor := performance_monitor it;
     rate_limiter := rate_limiter it;
     circuit_breaker := cb |}.

Definition set_performance_monitor (m : Metrics) (it : t) : t :=
  {| security_config := security_config it;
     performance_config := performance_config it;
     performance_monitor := m;
     rate_limiter := rate_limiter it;
     circuit_breaker := circuit_breaker it |}.

(** *** Rate limiter *)

(** [f"{operation}:{identifier}"] *)
Definition rate_key (operation identifier : string) : string :=
  operation +:+ ":" +:+ identifier.

(** The list comprehension of [_check_rate_limit]: the timestamps that are
    less than [limit] seconds old at [now]. *)
Definition recent (now limit : Z) (timestamps : list Z) : list Z :=
  filter (fun timestamp => now - timestamp < limit) timestamps.

(** [_check_rate_limit(operation, identifier)] at clock reading [now]. *)
Definition _check_rate_limit (now : Z) (operation identifier : string)
    (it : t) : bool * t :=
  let key := rate_key operation identifier in
  let limit := api_rate_limit (security_config it) in
  let window := recent now limit (default [] (rate_limiter it !! key)) in
  if limit <=? Z.of_nat (length window)
  then (false, set_rate_limiter (<[key := window]> (rate_limiter it)) it)
  else (true, set_rate_limiter (<[key := window ++ [now]]> (rate_limiter it)) it).

(** What the limiter keeps under [key]. *)
Definition stored (key : string) (it : t) : list Z :=
  default [] (rate_limiter it !! key).

(** A request as the limiter sees it. *)
Record request := mkRequest {
  rq_operation : string;
  rq_identifier : string;
  rq_time : Z
}.

Definition rq_key (r : request) : string :=
  rate_key (rq_operation r) (rq_identifier r).

Definition check (r : request) (it : t) : bool * t :=
  _check_rate_limit (rq_time r) (rq_operation r) (rq_identifier r) it.

(** Serial requests, oldest first: every request paired with the answer it
    got, and the integrator afterwards. *)
Fixpoint serve (reqs : list request) (it : t) : list (request * bool) * t :=
  match reqs with
  | [] => ([], it)
  | r :: rest =>
      let '(b, it1) := check r it in
      let '(log, it2) := serve rest it1 in
      ((r, b) :: log, it2)
  end.

(** The timestamps of the requests of [log] that were admitted under
    [key], oldest first. *)
Definition admitted_times (key : string) (log : list (request * bool)) : list Z :=
  (fun rb => rq_time (fst rb))
    <$> filter (fun rb => snd rb = true /\ rq_key (fst rb) = key) log.

(** How many previously admitted requests of [key] lie within the last
    [limit] seconds at [now]. *)
Definition admitted_within (key : string) (now limit : Z)
    (log : list (request * bool)) : nat :=
  length (recent now limit (admitted_times key log)).

(** The clock never runs backwards over a request sequence. *)
Fixpoint monotone_from (t0 : Z) (reqs : list request) : bool :=
  match reqs with
  | [] => true
  | r :: rest => (t0 <=? rq_time r) && monotone_from (rq_time r) rest
  end.

Definition monotone (reqs : list request) : bool :=
  match reqs with
  | [] => true
  | r :: rest => monotone_from (rq_time r) rest
  end.

(** *** Retry wrapper *)

(** What one awaited call of the wrapped function does: it returns a value
    or raises, after [elapsed] ticks. *)
Inductive outcome (R E : Type) :=
| Success (value : R)
| Failure (exn : E).
Arguments Success {R E} value.
Arguments Failure {R E} exn.

Record attempt_result (R E : Type) := mkAttempt {
  result : outcome R E;
  elapsed : Z
}.
Arguments mkAttempt {R E} result elapsed.
Arguments result {R E} a.
Arguments elapsed {R E} a.

Definition failed {R E} (a : attempt_result R E) : bool :=
  match result a with Failure _ => true | Success _ => false end.

(** What the wrapper did, in order. *)
Inductive event :=
| Call (attempt : nat)        (* [await func(...)] in iteration [attempt] *)
| Sleep (delay : Z).          (* [await asyncio.sleep(delay)] *)

#[global] Instance event_eq_dec : EqDecision event.
Proof. solve_decision. Defined.

(** How the wrapper ended. *)
Inductive ending (R E : Type) :=
| Returned (value : R)
| Raised (exn : E)                (* [raise]: the exception just caught *)
| CircuitBreakerOpenError
| ReturnedNone                    (* the loop body never ran *)
| TypeError.                      (* from [can_execute] *)
Arguments Returned {R E} value.
Arguments Raised {R E} exn.
Arguments CircuitBreakerOpenError {R E}.
Arguments ReturnedNone {R E}.
Arguments TypeError {R E}.

Record run (R E : Type) := mkRun {
  final : ending R E;
  trace : list event;
  clock : Z;
  after : t
}.
Arguments mkRun {R E} final trace clock after.
Arguments final {R E} r.
Arguments trace {R E} r.
Arguments clock {R E} r.
Arguments after {R E} r.

Section retry.
Context {R E : Type}.
(** The wrapped coroutine function: what its [i]-th invocation by this
    wrapper does, counting from 0. *)
Variable func : nat -> attempt_result R E.

(** The [for attempt in range(retry_attempts)] loop, [remaining] iterations
    before the range is exhausted. *)
Fixpoint retry_loop (remaining : nat) (attempt : nat) (now : Z) (it : t)
    (tr : list event) : run R E :=
  match remaining with
  | O => mkRun ReturnedNone tr now it
  | S remaining' =>
      let a := func attempt in
      let now1 := now + elapsed a in
      match result a with
      | Success value =>
          let it1 := set_performance_monitor
                       (record_request true (performance_monitor it)) it in
          let it2 := set_circuit_breaker
                       (CircuitBreaker.record_success (circuit_breaker it1)) it1 in
          mkRun (Returned value) (tr ++ [Call attempt]) now1 it2
      | Failure exn =>
          let it1 := set_performance_monitor
                       (record_request false (performance_monitor it)) it in
          let it2 := set_circuit_breaker
                       (CircuitBreaker.record_failure now1 (circuit_breaker it1)) it1 in
          if Z.of_nat attempt =? retry_attempts (performance_config it) - 1
          then mkRun (Raised exn) (tr ++ [Call attempt]) now1 it2
          else
            let delay := retry_delay (performance_config it) * 2 ^ Z.of_nat attempt in
            retry_loop remaining' (S attempt) (now1 + Z.max 0 delay) it2
              (tr ++ [Call attempt; Sleep delay])
      end
  end.

(** [_execute_with_retry(func)] entered at clock reading [now]. *)
Definition _execute_with_retry (now : Z) (it : t) : run R E :=
  match CircuitBreaker.can_execute now (circuit_breaker it) with
  | None => mkRun TypeError [] now it
  | Some (false, cb) =>
      mkRun CircuitBreakerOpenError [] now (set_circuit_breaker cb it)
  | Some (true, cb) =>
      retry_loop (Z.to_nat (retry_attempts (performance_config it))) 0 now
        (set_circuit_breaker cb it) []
  end.

End retry.

(** Readings of a trace. *)
Definition calls (tr : list event) : list nat :=
  omap (fun e => match e with Call k => Some k | Sleep _ => None end) tr.

Definition sleeps (tr : list event) : list Z :=
  omap (fun e => match e with Sleep d => Some d | Call _ => None end) tr.

Definition total_sleep (tr : list event) : Z :=
  foldr Z.add 0 (sleeps tr).

(** The delay of the sleep that immediately precedes the call of iteration
    [attempt], if there is one. *)
Fixpoint sleep_before (attempt : nat) (tr : list event) : option Z :=
  match tr with
  | Sleep d :: ((Call k :: _) as rest) =>
      if decide (k = attempt) then Some d else sleep_before attempt rest
  | _ :: rest => sleep_before attempt rest
  | [] => None
  end.

(** [retry_delay * 2^0 + ... + retry_delay * 2^(n-1)] *)
Definition backoff_sum (delay : Z) (n : nat) : Z :=
  foldr Z.add 0 ((fun i => delay * 2 ^ Z.of_nat i) <$> seq 0 n).

(** The trace of a run whose first [j] iterations from [attempt] on fail and
    are retried, followed by one more call. *)
Definition backoff_trace (delay : Z) (attempt j : nat) : list event :=
  flat_map (fun i => [Call i; Sleep (delay * 2 ^ Z.of_nat i)]) (seq attempt j)
  ++ [Call (attempt + j)].

(** The breaker lets [_execute_with_retry] in. *)
Definition admits (now : Z) (it : t) : bool :=
  match CircuitBreaker.can_execute now (circuit_breaker it) with
  | Some (true, _) => true
  | _ => false
  end.

(** *** Sample inputs *)

(** The default configuration (3 attempts, delay 1) around a call that
    fails twice and then succeeds. *)
Definition flaky (i : nat) : attempt_result string string :=
  if (i <? 2)%nat then mkAttempt (Failure "boom") 5
  else mkAttempt (Success "done") 5.

Definition default_integrator : t :=
  init (mkSecurityConfig 100) (mkPerformanceConfig 3 1).

(** A limit of 2 (requests, and seconds): the third request inside the
    window is rejected, and a request is admitted again once the first two
    are two seconds old. *)
Definition burst : list request :=
  [ mkRequest "business_workflow" "wf-1" 10;
    mkRequest "business_workflow" "wf-1" 10;
    mkRequest "business_workflow" "wf-1" 11;
    mkRequest "business_workflow" "wf-2" 11;
    mkRequest "business_workflow" "wf-1" 12 ].

End Integrator.

(* ===================================================================== *)
(** ** [safe_camel_case] *)
(* ===================================================================== *)

(** Text is modelled over the 7-bit ASCII characters, the domain the
    docstring of [safe_camel_case] declares (alphanumerics, underscores,
    hyphens and separators); the case conversions and the whitespace class
    below are Python's on that range. *)
Module Text.

Definition code (c : ascii) : nat := nat_of_ascii c.

Definition ascii7 (c : ascii) : bool := (code c <? 128)%nat.

(** [str.isspace] on ASCII: TAB, LF, VT, FF, CR, FS, GS, RS, US, space. *)
Definition is_space (c : ascii) : bool :=
  ((9 <=? code c) && (code c <=? 13) || (28 <=? code c) && (code c <=? 32))%nat.

Definition lower_char (c : ascii) : ascii :=
  if ((65 <=? code c) && (code c <=? 90))%nat
  then ascii_of_nat (code c + 32) else c.

Definition upper_char (c : ascii) : ascii :=
  if ((97 <=? code c) && (code c <=? 122))%nat
  then ascii_of_nat (code c - 32) else c.

Fixpoint smap (f : ascii -> ascii) (s : string) : string :=
  match s with
  | EmptyString => EmptyString
  | String c rest => String (f c) (smap f rest)
  end.

Fixpoint sall (p : ascii -> bool) (s : string) : bool :=
  match s with
  | EmptyString => true
  | String c rest => p c && sall p rest
  end.

(** [str.lower] *)
Definition lower (s : string) : string := smap lower_char s.

(** [str.capitalize]: first character upper-cased, the rest lower-cased. *)
Definition capitalize (s : string) : string :=
  match s with
  | EmptyString => EmptyString
  | String c rest => String (upper_char c) (lower rest)
  end.

(** [str.replace(old, new)] for one-character [old] and [new]. *)
Definition replace (old new : ascii) (s : string) : string :=
  smap (fun c => if Ascii.eqb c old then new else c) s.

(** [str.split()] with no separator: runs of non-whitespace characters.
    [cur] is the run being read. *)
Fixpoint split_from (cur : string) (s : string) : list string :=
  match s with
  | EmptyString => match cur with EmptyString => [] | _ => [cur] end
  | String c rest =>
      if is_space c
      then match cur with
           | EmptyString => split_from EmptyString rest
           | _ => cur :: split_from EmptyString rest
           end
      else split_from (cur +:+ String c EmptyString) rest
  end.

Definition split (s : string) : list string := split_from EmptyString s.

Definition underscore : ascii := "_"%char.
Definition hyphen : ascii := "-"%char.
Definition space : ascii := " "%char.

Definition safe_camel_case (text : string) : string :=
  match text with
  | EmptyString => text
  | _ =>
      let words := split (replace hyphen space (replace underscore space text)) in
      match words with
      | [] => text
      | first :: others =>
          foldl (fun camel_case word => camel_case +:+ capitalize word)
                (lower first) others
      end
  end.

(** Vocabulary of the statements: separators, and the words of a text read
    directly as the maximal runs of characters that are neither separators
    nor whitespace. *)
Definition is_separator (c : ascii) : bool :=
  Ascii.eqb c underscore || Ascii.eqb c hyphen.

Definition is_delimiter (c : ascii) : bool := is_separator c || is_space c.

Fixpoint words_from (cur : string) (s : string) : list string :=
  match s with
  | EmptyString => match cur with EmptyString => [] | _ => [cur] end
  | String c rest =>
      if is_delimiter c
      then match cur with
           | EmptyString => words_from EmptyString rest
           | _ => cur :: words_from EmptyString rest
           end
      else words_from (cur +:+ String c EmptyString) rest
  end.

Definition words (s : string) : list string := words_from EmptyString s.

Fixpoint sconcat (l : list string) : string :=
  match l with
  | [] => EmptyString
  | s :: rest => s +:+ sconcat rest
  end.

Fixpoint occurs (c : ascii) (s : string) : bool :=
  match s with
  | EmptyString => false
  | String d rest => Ascii.eqb d c || occurs c rest
  end.

(** A run of characters without delimiters. *)
Definition no_delimiter (w : string) : bool :=
  sall (fun c => negb (is_delimiter c)) w.

End Text.

(* ===================================================================== *)
(** ** Payload values, tasks, and the collaborators of the engine *)
(* ===================================================================== *)

(** Python values that travel in payloads, results and metadata. *)
#[local] Unset Elimination Schemes.
Inductive value :=
| VNone
| VBool (b : bool)
| VInt (z : Z)
| VStr (s : string)
| VList (items : list value)
| VDict (items : list (string * value)).
#[local] Set Elimination Schemes.

(** Truth value of a Python object. *)
Definition truthy (v : value) : bool :=
  match v with
  | VNone => false
  | VBool b => b
  | VInt z => negb (z =? 0)
  | VStr s => negb (String.eqb s "")
  | VList items => match items with [] => false | _ => true end
  | VDict items => match items with [] => false | _ => true end
  end.

(** [d.get(key)] *)
Definition dict_get (key : string) (d : gmap string value) : value :=
  default VNone (d !! key).

Inductive TaskPriority := LOW | NORMAL | HIGH | CRITICAL.

(** What [Task(type, payload, priority)] is constructed from. *)
Record Task := mkTask {
  task_type : string;
  task_payload : gmap string value;
  task_priority : TaskPriority
}.

(** Modelled from the spec: the task queue ([task_queue.py] is not among the
    sources).  Operations and the task state machine follow section 4.2:
    enqueue assigns the id and sets PENDING; assign is PENDING to ASSIGNED
    and fails otherwise; start is ASSIGNED to RUNNING; complete is RUNNING
    to COMPLETED when the error is empty, else FAILED, and rejects on
    terminal states; cancel turns any non-terminal state into CANCELLED and
    returns false on a terminal one; status of an unknown id is empty.
    Timestamps and the priority index are not modelled: the engine reads
    neither. *)
Module TaskQueue.

Inductive TaskStatus := PENDING | ASSIGNED | RUNNING | COMPLETED | FAILED | CANCELLED.

#[global] Instance TaskStatus_eq_dec : EqDecision TaskStatus.
Proof. solve_decision. Defined.

Definition terminal (s : TaskStatus) : bool :=
  match s with
  | COMPLETED | FAILED | CANCELLED => true
  | _ => false
  end.

Record entry := mkEntry {
  task : Task;
  status : TaskStatus;
  assigned_agent : option string;
  result : value;
  error : option string
}.

Record t := mk {
  entries : gmap string entry;
  issued : nat                     (* ids handed out so far *)
}.

Definition empty : t := {| entries := ∅; issued := 0 |}.

(** The id given to the [n]-th enqueued task. *)
Definition task_id_of (n : nat) : string := "task-" +:+ pretty n.

Definition set_entries (es : gmap string entry) (q : t) : t :=
  {| entries := es; issued := issued q |}.

Definition enqueue_task (tk : Task) (q : t) : string * t :=
  let task_id := task_id_of (issued q) in
  (task_id,
   {| entries := <[task_id := mkEntry tk PENDING None VNone None]> (entries q);
      issued := S (issued q) |}).

Definition assign_agent (task_id agent_id : string) (q : t) : bool * t :=
  match entries q !! task_id with
  | Some e =>
      match status e with
      | PENDING =>
          (true, set_entries
                   (<[task_id := mkEntry (task e) ASSIGNED (Some agent_id)
                                   (result e) (error e)]> (entries q)) q)
      | _ => (false, q)
      end
  | None => (false, q)
  end.

Definition start_task (task_id : string) (q : t) : bool * t :=
  match entries q !! task_id with
  | Some e =>
      match status e with
      | ASSIGNED =>
          (true, set_entries
                   (<[task_id := mkEntry (task e) RUNNING (assigned_agent e)
                                   (result e) (error e)]> (entries q)) q)
      | _ => (false, q)
      end
  | None => (false, q)
  end.

Definition no_error (err : option string) : bool :=
  match err with
  | None => true
  | Some msg => String.eqb msg ""
  end.

Definition complete_task (task_id : string) (res : value)
    (err : option string) (q : t) : bool * t :=
  match entries q !! task_id with
  | Some e =>
      match status e with
      | RUNNING =>
          (true, set_entries
                   (<[task_id := mkEntry (task e)
                                   (if no_error err then COMPLETED else FAILED)
                                   (assigned_agent e) res err]> (entries q)) q)
      | _ => (false, q)
      end
  | None => (false, q)
  end.

Definition cancel_task (task_id : string) (q : t) : bool * t :=
  match entries q !! task_id with
  | Some e =>
      if terminal (status e) then (false, q)
      else (true, set_entries
                    (<[task_id := mkEntry (task e) CANCELLED (assigned_agent e)
                                    (result e) (error e)]> (entries q)) q)
  | None => (false, q)
  end.

Definition get_task_status (task_id : string) (q : t) : option entry :=
  entries q !! task_id.

(** What [cancel_task] makes of a task. *)
Definition cancel_entry (e : entry) : entry :=
  if terminal (status e) then e
  else mkEntry (task e) CANCELLED (assigned_agent e) (result e) (error e).

(** [cancel_task] on each id in turn. *)
Definition cancel_all (task_ids : list string) (q : t) : t :=
  foldl (fun q task_id => snd (cancel_task task_id q)) q task_ids.

End TaskQueue.

(** Modelled from the spec: the agent registry ([agent_registry.py] is not
    among the sources), section 4.1.  Agents are kept in registration order;
    [find_agents_by_capability] returns the active agents whose capability
    set contains the tag.  Performance scores and specializations are read
    by the decision engine only and are not modelled. *)
Module AgentRegistry.

Inductive AgentStatus := active | inactive | draining.

#[global] Instance AgentStatus_eq_dec : EqDecision AgentStatus.
Proof. solve_decision. Defined.

Record Agent := mkAgent {
  agent_id : string;
  capabilities : list string;
  agent_status : AgentStatus
}.

Definition t := list Agent.

Definition has_capability (capability : string) (a : Agent) : bool :=
  bool_decide (capability ∈ capabilities a).

Definition is_active (a : Agent) : bool :=
  bool_decide (agent_status a = active).

Definition find_agents_by_capability (capability : string) (reg : t) : list Agent :=
  List.filter (fun a => has_capability capability a && is_active a) reg.

Definition list_agents_active (reg : t) : list Agent :=
  List.filter is_active reg.

(** [register(agent)]: inserts, or replaces the agent of the same id. *)
Definition register (a : Agent) (reg : t) : t :=
  if bool_decide (agent_id a ∈ agent_id <$> reg)
  then (fun b => if String.eqb (agent_id b) (agent_id a) then a else b) <$> reg
  else reg ++ [a].

End AgentRegistry.

(* ===================================================================== *)
(** ** Workflow engine *)
(* ===================================================================== *)

Module Engine.
Import AgentRegistry.

Inductive WorkflowStatus := PENDING | RUNNING | COMPLETED | FAILED | CANCELLED.

#[global] Instance WorkflowStatus_eq_dec : EqDecision WorkflowStatus.
Proof. solve_decision. Defined.

Inductive WorkflowPhase :=
| INITIALIZATION | AGENT_SELECTION | TASK_EXECUTION | RESULT_PROCESSING | COMPLETION.

Record Workflow := mkWorkflow {
  id : string;
  workflow_type : string;
  payload : gmap string value;
  priority : TaskPriority;
  status : WorkflowStatus;
  current_phase : WorkflowPhase;
  created_at : Z;
  started_at : option Z;
  completed_at : option Z;
  assigned_agents : list string;
  tasks : list string;
  results : gmap string value;
  error : option string;
  timeout_seconds : Z;
  metadata : gmap string value
}.

(** Field assignments [workflow.f = x]. *)
Definition set_status (x : WorkflowStatus) (w : Workflow) : Workflow :=
  mkWorkflow (id w) (workflow_type w) (payload w) (priority w) x
    (current_phase w) (created_at w) (started_at w) (completed_at w)
    (assigned_agents w) (tasks w) (results w) (error w) (timeout_seconds w)
    (metadata w).

Definition set_current_phase (x : WorkflowPhase) (w : Workflow) : Workflow :=
  mkWorkflow (id w) (workflow_type w) (payload w) (priority w) (status w) x
    (created_at w) (started_at w) (completed_at w) (assigned_agents w)
    (tasks w) (results w) (error w) (timeout_seconds w) (metadata w).

Definition set_started_at (x : option Z) (w : Workflow) : Workflow :=
  mkWorkflow (id w) (workflow_type w) (payload w) (priority w) (status w)
    (current_phase w) (created_at w) x (completed_at w) (assigned_agents w)
    (tasks w) (results w) (error w) (timeout_seconds w) (metadata w).

Definition set_completed_at (x : option Z) (w : Workflow) : Workflow :=
  mkWorkflow (id w) (workflow_type w) (payload w) (priority w) (status w)
    (current_phase w) (created_at w) (started_at w) x (assigned_agents w)
    (tasks w) (results w) (error w) (timeout_seconds w) (metadata w).

Definition set_assigned_agents (x : list string) (w : Workflow) : Workflow :=
  mkWorkflow (id w) (workflow_type w) (payload w) (priority w) (status w)
    (current_phase w) (created_at w) (started_at w) (completed_at w) x
    (tasks w) (results w) (error w) (timeout_seconds w) (metadata w).

Definition set_tasks (x : list string) (w : Workflow) : Workflow :=
  mkWorkflow (id w) (workflow_type w) (payload w) (priority w) (status w)
    (current_phase w) (created_at w) (started_at w) (completed_at w)
    (assigned_agents w) x (results w) (error w) (timeout_seconds w)
    (metadata w).

Definition set_results (x : gmap string value) (w : Workflow) : Workflow :=
  mkWorkflow (id w) (workflow_type w) (payload w) (priority w) (status w)
    (current_phase w) (created_at w) (started_at w) (completed_at w)
    (assigned_agents w) (tasks w) x (error w) (timeout_seconds w) (metadata
    w).

Definition set_error (x : option string) (w : Workflow) : Workflow :=
  mkWorkflow (id w) (workflow_type w) (payload w) (priority w) (status w)
    (current_phase w) (created_at w) (started_at w) (completed_at w)
    (assigned_agents w) (tasks w) (results w) x (timeout_seconds w)
    (metadata w).

Definition set_metadata (x : gmap string value) (w : Workflow) : Workflow :=
  mkWorkflow (id w) (workflow_type w) (payload w) (priority w) (status w)
    (current_phase w) (created_at w) (started_at w) (completed_at w)
    (assigned_agents w) (tasks w) (results w) (error w) (timeout_seconds w)
    x.

(** [Workflow.__init__]; [uuid] is the fresh [uuid.uuid4()]. *)
Definition new_workflow (uuid workflow_type : string)
    (payload : gmap string value) (priority : TaskPriority) (now : Z) : Workflow :=
  {| id := uuid; workflow_type := workflow_type; payload := payload;
     priority := priority; status := PENDING; current_phase := INITIALIZATION;
     created_at := now; started_at := None; completed_at := None;
     assigned_agents := []; tasks := []; results := ∅; error := None;
     timeout_seconds := 1800; metadata := ∅ |}.

(** The statuses [cancel_workflow] refuses. *)
Definition terminal (s : WorkflowStatus) : bool :=
  match s with
  | COMPLETED | FAILED | CANCELLED => true
  | _ => false
  end.

(** A call that may raise. *)
Inductive raising (A : Type) :=
| Ok (a : A)
| Raise (message : string).
Arguments Ok {A} a.
Arguments Raise {A} message.

(** What the decision engine answers. *)
Record DecisionResult := mkDecision {
  target_type : string;
  target : string;
  reasoning : string;
  confidence : value;
  escalation_id : value
}.

(** What the automation client answers. *)
Record N8nExecution := mkExecution {
  execution_id : string;
  execution_status : string;
  result_data : value;
  error_message : option string
}.

(** Where the coroutine [_execute_workflow] of a workflow stands. *)
Inductive position :=
| NotStarted          (* created by [asyncio.create_task], body not entered *)
| InInitialization    (* suspended in [asyncio.sleep(0.1)] *)
| InMonitor           (* suspended in [asyncio.sleep(1)] of the monitor loop *)
| Finished.

#[global] Instance position_eq_dec : EqDecision position.
Proof. solve_decision. Defined.

(** The [asyncio.Task] kept in [running_workflows]. *)
Record ExecTask := mkExec {
  at_position : position;
  must_cancel : bool          (* [cancel()] was called on it *)
}.

Record t := mk {
  agent_registry : AgentRegistry.t;
  task_queue : TaskQueue.t;
  workflows : gmap string Workflow;
  running_workflows : gmap string ExecTask;
  _shutdown : bool
}.

Definition init (reg : AgentRegistry.t) (q : TaskQueue.t) : t :=
  {| agent_registry := reg; task_queue := q; workflows := ∅;
     running_workflows := ∅; _shutdown := false |}.

Definition set_task_queue (q : TaskQueue.t) (eng : t) : t :=
  mk (agent_registry eng) q (workflows eng) (running_workflows eng) (_shutdown eng).

Definition set_workflows (ws : gmap string Workflow) (eng : t) : t :=
  mk (agent_registry eng) (task_queue eng) ws (running_workflows eng) (_shutdown eng).

Definition set_running_workflows (rs : gmap string ExecTask) (eng : t) : t :=
  mk (agent_registry eng) (task_queue eng) (workflows eng) rs (_shutdown eng).

Definition set_shutdown (b : bool) (eng : t) : t :=
  mk (agent_registry eng) (task_queue eng) (workflows eng) (running_workflows eng) b.

Definition _get_required_capabilities (workflow_type : string) : list string :=
  if String.eqb workflow_type "site_recreation" then
    ["Project management"; "Interface design"; "Code generation"; "Quality assurance"]
  else if String.eqb workflow_type "business_analysis" then
    ["Portfolio analysis"; "Financial analysis"; "Data analysis"]
  else if String.eqb workflow_type "content_creation" then
    ["Content strategy"; "Copywriting"; "SEO optimization"]
  else if String.eqb workflow_type "research_processing" then
    ["Research analysis"; "Knowledge extraction"; "Document processing"]
  else if String.eqb workflow_type "automation" then
    ["Web scraping"; "Browser automation"; "Workflow automation"]
  else ["General capabilities"].

Definition _create_workflow_tasks (workflow : Workflow) : list Task :=
  if String.eqb (workflow_type workflow) "site_recreation" then
    [ mkTask "analyze_site"
        {[ "url" := dict_get "url" (payload workflow) ]} (priority workflow);
      mkTask "design_interface"
        {[ "requirements" := dict_get "requirements" (payload workflow) ]}
        (priority workflow);
      mkTask "generate_code" {[ "design" := VStr "from_previous_task" ]}
        (priority workflow);
      mkTask "test_quality" {[ "code" := VStr "from_previous_task" ]}
        (priority workflow) ]
  else if String.eqb (workflow_type workflow) "business_analysis" then
    [ mkTask "analyze_portfolio"
        {[ "businesses" := dict_get "businesses" (payload workflow) ]}
        (priority workflow);
      mkTask "financial_analysis" {[ "data" := VStr "from_previous_task" ]}
        (priority workflow);
      mkTask "generate_report" {[ "analysis" := VStr "from_previous_task" ]}
        (priority workflow) ]
  else
    [ mkTask "execute_workflow" (payload workflow) (priority workflow) ].

(** The part of [_initialize_workflow] before its sleep. *)
Definition _initialize_workflow (workflow : Workflow) : Workflow :=
  set_current_phase INITIALIZATION workflow.

(** Keys of the dict [unique_agents]: a key inserted again keeps its
    place. *)
Definition add_key (key : string) (keys : list string) : list string :=
  if bool_decide (key ∈ keys) then keys else keys ++ [key].

Definition _select_agents_simple (reg : AgentRegistry.t) (workflow : Workflow) : Workflow :=
  let required_capabilities := _get_required_capabilities (workflow_type workflow) in
  let suitable_agents :=
    flat_map (fun capability => find_agents_by_capability capability reg)
             required_capabilities in
  let unique_agents :=
    foldl (fun keys agent =>
             if negb (String.eqb (agent_id agent) "") && is_active agent
             then add_key (agent_id agent) keys else keys)
          [] suitable_agents in
  set_assigned_agents unique_agents workflow.

Section collaborators.
(** The pluggable decision engine and automation client, as given to
    [WorkflowEngine.__init__]; [None] when absent.  Their awaited calls are
    taken not to suspend.  The decision engine sees the active agents and
    the workflow (with it the context built from them). *)
Variable decision_engine :
  option (list Agent -> Workflow -> raising DecisionResult).
Variable n8n_adapter :
  option (value -> gmap string value -> raising N8nExecution).

Definition _select_agents_with_decision_engine
    (evaluate_decision : list Agent -> Workflow -> raising DecisionResult)
    (reg : AgentRegistry.t) (workflow : Workflow) : Workflow :=
  match evaluate_decision (list_agents_active reg) workflow with
  | Ok res =>
      if String.eqb (target_type res) "agent" then
        let w1 := set_assigned_agents [target res] workflow in
        let w2 := set_metadata
                    (<["decision_reasoning" := VStr (reasoning res)]> (metadata w1)) w1 in
        set_metadata (<["decision_confidence" := confidence res]> (metadata w2)) w2
      else if String.eqb (target_type res) "workflow" then
        let w1 := set_metadata
                    (<["n8n_workflow_id" := VStr (target res)]> (metadata workflow))
                    workflow in
        let w2 := set_metadata
                    (<["decision_reasoning" := VStr (reasoning res)]> (metadata w1)) w1 in
        set_assigned_agents [] w2
      else if String.eqb (target_type res) "human" then
        let w1 := set_metadata
                    (<["escalation_id" := escalation_id res]> (metadata workflow))
                    workflow in
        let w2 := set_metadata
                    (<["decision_reasoning" := VStr (reasoning res)]> (metadata w1)) w1 in
        set_assigned_agents [] w2
      else workflow
  | Raise _ => _select_agents_simple reg workflow
  end.

Definition _select_agents (reg : AgentRegistry.t) (workflow : Workflow) : Workflow :=
  let w := set_current_phase AGENT_SELECTION workflow in
  match decision_engine with
  | Some evaluate_decision => _select_agents_with_decision_engine evaluate_decision reg w
  | None => _select_agents_simple reg w
  end.

Definition _execute_n8n_workflow (workflow : Workflow) : Workflow :=
  let n8n_workflow_id := dict_get "n8n_workflow_id" (metadata workflow) in
  match n8n_adapter with
  | Some execute_workflow =>
      match execute_workflow n8n_workflow_id (payload workflow) with
      | Ok execution =>
          let w1 :=
            set_results
              (<["n8n_execution" :=
                   VDict [ ("execution_id", VStr (execution_id execution));
                           ("status", VStr (execution_status execution));
                           ("result_data", result_data execution);
                           ("error_message",
                            match error_message execution with
                            | Some msg => VStr msg
                            | None => VNone
                            end) ]]> (results workflow)) workflow in
          if String.eqb (execution_status execution) "completed"
          then set_status COMPLETED w1
          else set_error (error_message execution) (set_status FAILED w1)
      | Raise e =>
          set_error (Some ("N8N workflow execution failed: " +:+ e))
                    (set_status FAILED workflow)
      end
  | None =>
      set_error (Some "N8N adapter not available") (set_status FAILED workflow)
  end.

(** The enqueue loop of [_execute_agent_tasks]. *)
Definition enqueue_and_assign (st : Workflow * TaskQueue.t) (tk : Task)
    : Workflow * TaskQueue.t :=
  let '(workflow, q) := st in
  let '(task_id, q1) := TaskQueue.enqueue_task tk q in
  let w1 := set_tasks (tasks workflow ++ [task_id]) workflow in
  match assigned_agents w1 with
  | [] => (w1, q1)
  | agent_id :: _ => (w1, snd (TaskQueue.assign_agent task_id agent_id q1))
  end.

Definition _execute_agent_tasks (workflow : Workflow) (q : TaskQueue.t)
    : Workflow * TaskQueue.t :=
  foldl enqueue_and_assign (workflow, q) (_create_workflow_tasks workflow).

(** [list.remove(x)]: drops the first occurrence.  The monitor calls it only
    on ids it has just read from the list. *)
Fixpoint list_remove (x : string) (l : list string) : list string :=
  match l with
  | [] => []
  | y :: rest => if String.eqb y x then rest else y :: list_remove x rest
  end.

Definition finished_task (q : TaskQueue.t) (task_id : string) : bool :=
  match TaskQueue.get_task_status task_id q with
  | Some e => TaskQueue.terminal (TaskQueue.status e)
  | None => false
  end.

(** One pass of the body of the monitor's [while] loop, up to the test
    before [break]: the ids left in [workflow.tasks]. *)
Definition poll (q : TaskQueue.t) (task_ids : list string) : list string :=
  let completed_tasks := List.filter (finished_task q) task_ids in
  foldl (fun remaining task_id => list_remove task_id remaining)
        task_ids completed_tasks.

Definition _process_results (q : TaskQueue.t) (workflow : Workflow) : Workflow :=
  let w := set_current_phase RESULT_PROCESSING workflow in
  foldl (fun w task_id =>
           match TaskQueue.get_task_status task_id q with
           | Some e =>
               if decide (TaskQueue.status e = TaskQueue.COMPLETED)
               then set_results (<[task_id := TaskQueue.result e]> (results w)) w
               else w
           | None => w
           end)
        w (tasks w).

Definition _complete_workflow (now : Z) (workflow : Workflow) : Workflow :=
  set_completed_at (Some now)
    (set_status COMPLETED (set_current_phase COMPLETION workflow)).

(** Phases 4 and 5, which follow the task execution without suspending. *)
Definition finish (now : Z) (q : TaskQueue.t) (workflow : Workflow) : Workflow :=
  _complete_workflow now (_process_results q workflow).

(** [_monitor_task_execution] from the test of its [while] loop to its next
    suspension or to the end of the coroutine. *)
Definition _monitor_task_execution (now : Z) (q : TaskQueue.t)
    (workflow : Workflow) : Workflow * position :=
  match tasks workflow with
  | [] => (finish now q workflow, Finished)
  | _ =>
      let w1 := set_tasks (poll q (tasks workflow)) workflow in
      match tasks w1 with
      | [] => (finish now q w1, Finished)
      | _ => (w1, InMonitor)
      end
  end.

(** [_execute_tasks] and what follows it, up to the next suspension. *)
Definition _execute_tasks (now : Z) (q : TaskQueue.t) (workflow : Workflow)
    : Workflow * TaskQueue.t * position :=
  let w := set_current_phase TASK_EXECUTION workflow in
  if truthy (dict_get "n8n_workflow_id" (metadata w))
  then (finish now q (_execute_n8n_workflow w), q, Finished)
  else
    let '(w1, q1) := _execute_agent_tasks w q in
    let '(w2, pos) := _monitor_task_execution now q1 w1 in
    (w2, q1, pos).

(** [start_workflow] *)
Definition start_workflow (now : Z) (workflow : Workflow) (eng : t)
    : raising (string * t) :=
  if _shutdown eng then Raise "Workflow engine is shutting down"
  else
    let w := set_started_at (Some now) (set_status RUNNING workflow) in
    Ok (id workflow,
        set_running_workflows
          (<[id workflow := mkExec NotStarted false]> (running_workflows eng))
          (set_workflows (<[id workflow := w]> (workflows eng)) eng)).

(** The [finally] clause of [_execute_workflow]. *)
Definition leave (workflow_id : string) (eng : t) : t :=
  set_running_workflows (delete workflow_id (running_workflows eng)) eng.

(** [except asyncio.CancelledError] followed by [finally]. *)
Definition on_cancelled (now : Z) (workflow : Workflow) (eng : t) : t :=
  let w := set_completed_at (Some now) (set_status CANCELLED workflow) in
  leave (id workflow) (set_workflows (<[id workflow := w]> (workflows eng)) eng).

Definition suspend_at (pos : position) (workflow : Workflow) (eng : t) : t :=
  match pos with
  | Finished =>
      leave (id workflow)
        (set_workflows (<[id workflow := workflow]> (workflows eng)) eng)
  | _ =>
      set_running_workflows
        (<[id workflow := mkExec pos false]> (running_workflows eng))
        (set_workflows (<[id workflow := workflow]> (workflows eng)) eng)
  end.

(** The event loop gives the execution task of [workflow_id] its next turn:
    [_execute_workflow] runs from where it stands to its next suspension.
    A task cancelled before its first turn never enters the coroutine body;
    a suspended task that was cancelled is resumed with [CancelledError]. *)
Definition resume (now : Z) (workflow_id : string) (eng : t) : t :=
  match running_workflows eng !! workflow_id, workflows eng !! workflow_id with
  | Some task, Some workflow =>
      match at_position task with
      | Finished => eng
      | NotStarted =>
          if must_cancel task
          then set_running_workflows
                 (<[workflow_id := mkExec Finished true]> (running_workflows eng)) eng
          else suspend_at InInitialization (_initialize_workflow workflow) eng
      | InInitialization =>
          if must_cancel task then on_cancelled now workflow eng
          else
            let w1 := _select_agents (agent_registry eng) workflow in
            let '(w2, q, pos) := _execute_tasks now (task_queue eng) w1 in
            suspend_at pos w2 (set_task_queue q eng)
      | InMonitor =>
          if must_cancel task then on_cancelled now workflow eng
          else
            let '(w1, pos) := _monitor_task_execution now (task_queue eng) workflow in
            suspend_at pos w1 eng
      end
  | _, _ => eng
  end.

(** [cancel_workflow]; the awaited [cancel_task] calls are taken not to
    suspend. *)
Definition cancel_workflow (now : Z) (workflow_id : string) (eng : t) : bool * t :=
  match workflows eng !! workflow_id with
  | None => (false, eng)
  | Some workflow =>
      if terminal (status workflow) then (false, eng)
      else
        let running :=
          match running_workflows eng !! workflow_id with
          | Some task =>
              <[workflow_id := mkExec (at_position task) true]> (running_workflows eng)
          | None => running_workflows eng
          end in
        let q := foldl (fun q task_id => snd (TaskQueue.cancel_task task_id q))
                       (task_queue eng) (tasks workflow) in
        let w := set_completed_at (Some now) (set_status CANCELLED workflow) in
        (true,
         set_workflows (<[workflow_id := w]> (workflows eng))
           (set_task_queue q (set_running_workflows running eng)))
  end.

(** [route_to_agent(task, agent_id)], by the task's id. *)
Definition route_to_agent (task_id agent_id : string) (eng : t) : bool * t :=
  let '(ok, q) := TaskQueue.assign_agent task_id agent_id (task_queue eng) in
  (ok, set_task_queue q eng).

(** [handle_results] *)
Definition handle_results (task_id : string) (res : value)
    (err : option string) (eng : t) : bool * t :=
  let '(ok, q) := TaskQueue.complete_task task_id res err (task_queue eng) in
  (ok, set_task_queue q eng).

(** [shutdown], up to its [gather]: the flag is set and every running
    execution task is cancelled. *)
Definition shutdown (eng : t) : t :=
  set_shutdown true
    (set_running_workflows
       ((fun task => mkExec (at_position task) true) <$> running_workflows eng) eng).

(** What can happen to an engine: calls of its methods, turns of its
    execution tasks, and agents starting the tasks assigned to them. *)
Inductive operation :=
| StartWorkflow (workflow : Workflow)
| Resume (workflow_id : string)
| CancelWorkflow (workflow_id : string)
| RouteToAgent (task_id agent_id : string)
| AgentStarts (task_id : string)
| HandleResults (task_id : string) (res : value) (err : option string)
| Shutdown.

Definition perform (eng : t) (step : Z * operation) : t :=
  let '(now, op) := step in
  match op with
  | StartWorkflow workflow =>
      match start_workflow now workflow eng with
      | Ok (_, eng') => eng'
      | Raise _ => eng
      end
  | Resume workflow_id => resume now workflow_id eng
  | CancelWorkflow workflow_id => snd (cancel_workflow now workflow_id eng)
  | RouteToAgent task_id agent_id => snd (route_to_agent task_id agent_id eng)
  | AgentStarts task_id =>
      set_task_queue (snd (TaskQueue.start_task task_id (task_queue eng))) eng
  | HandleResults task_id res err => snd (handle_results task_id res err eng)
  | Shutdown => shutdown eng
  end.

(** A history: operations with the clock reading each one sees. *)
Definition run (steps : list (Z * operation)) (eng : t) : t :=
  foldl perform eng steps.

End collaborators.

(** A chain of several tasks, as opposed to the single generic task. *)
Definition multi_task_chain (ts : list Task) : Prop := (2 <= length ts)%nat.

(** [get_workflow_stats] *)
Record Stats := mkStats {
  total_workflows : nat;
  pending_workflows : nat;
  running_workflows_count : nat;
  completed_workflows : nat;
  failed_workflows : nat;
  cancelled_workflows : nat
}.

(** [self.workflows.values()] *)
Definition values (eng : t) : list Workflow := (map_to_list (workflows eng)).*2.

Definition count_status (s : WorkflowStatus) (ws : list Workflow) : nat :=
  length (List.filter (fun w => bool_decide (status w = s)) ws).

Definition get_workflow_stats (eng : t) : Stats :=
  {| total_workflows := size (workflows eng);
     pending_workflows := count_status PENDING (values eng);
     running_workflows_count := count_status RUNNING (values eng);
     completed_workflows := count_status COMPLETED (values eng);
     failed_workflows := count_status FAILED (values eng);
     cancelled_workflows := count_status CANCELLED (values eng) |}.

End Engine.

(* ===================================================================== *)
(** ** Scenarios *)
(* ===================================================================== *)

(** Concrete engines and histories, after the end-to-end scenarios of the
    specification.  No decision engine and no automation client are
    attached, so agents are chosen by [_select_agents_simple]. *)
Module Scenarios.
Import AgentRegistry Engine.

Definition A1 : Agent :=
  mkAgent "A1" ["Portfolio analysis"; "Financial analysis"; "Data analysis"] active.

Definition A2 : Agent :=
  mkAgent "A2" ["Portfolio analysis"; "Data analysis"] active.

(** S1: a business analysis of one business. *)
Definition s1_workflow : Workflow :=
  new_workflow "wf-1" "business_analysis"
    {[ "businesses" := VList [VDict [("id", VInt 1)]] ]} NORMAL 0.

Definition no_decision_engine :
  option (list Agent -> Workflow -> raising DecisionResult) := None.

Definition no_n8n_adapter :
  option (value -> gmap string value -> raising N8nExecution) := None.

Definition play (steps : list (Z * operation)) (eng : Engine.t) : Engine.t :=
  Engine.run no_decision_engine no_n8n_adapter steps eng.

(** An agent takes up a task and reports the result. *)
Definition agent_completes (now : Z) (task_id : string) (res : value)
    : list (Z * operation) :=
  [ (now, AgentStarts task_id); (now, HandleResults task_id res None) ].

(** S1 up to the first pass of the monitor: the workflow is started, its
    execution task initializes, selects agents, enqueues and assigns the
    tasks and goes to sleep in the monitor. *)
Definition s1_dispatch : list (Z * operation) :=
  [ (0, StartWorkflow s1_workflow); (1, Resume "wf-1"); (2, Resume "wf-1") ].

(** S1 to the end: the agent completes the three tasks, then the monitor
    wakes up. *)
Definition s1_history : list (Z * operation) :=
  s1_dispatch
  ++ agent_completes 3 "task-0" (VStr "portfolio analysed")
  ++ agent_completes 4 "task-1" (VStr "financials analysed")
  ++ agent_completes 5 "task-2" (VStr "report generated")
  ++ [ (6, Resume "wf-1") ].

Definition s1_engine : Engine.t := Engine.init (register A1 []) TaskQueue.empty.

(** The same workflow with two suitable agents registered. *)
Definition two_agent_engine : Engine.t :=
  Engine.init (register A2 (register A1 [])) TaskQueue.empty.

(** S4, cancelled in flight: the workflow is started and its execution task
    sleeps in the initialization when [cancel_workflow] is called at clock
    reading 5; the execution task gets its next turn at 6. *)
Definition cancel_in_flight : list (Z * operation) :=
  [ (0, StartWorkflow s1_workflow); (1, Resume "wf-1");
    (5, CancelWorkflow "wf-1") ].

Definition cancel_then_resume : list (Z * operation) :=
  cancel_in_flight ++ [ (6, Resume "wf-1") ].

(** S2 without a client: a decision engine that routes every workflow to
    the external flow [n8n-42], and no automation client attached. *)
Definition route_to_flow :
  option (list Agent -> Workflow -> raising DecisionResult) :=
  Some (fun _ _ => Ok (mkDecision "workflow" "n8n-42" "external flow registered"
                         (VInt 1) VNone)).

Definition s2_workflow : Workflow := new_workflow "wf-5" "automation" ∅ NORMAL 0.

Definition s2_history : list (Z * operation) :=
  [ (0, StartWorkflow s2_workflow); (1, Resume "wf-5"); (2, Resume "wf-5") ].

(** The agent assigned to a task, as the queue records it. *)
Definition assigned_to (eng : Engine.t) (task_id : string) : option string :=
  TaskQueue.entries (task_queue eng) !! task_id ≫= TaskQueue.assigned_agent.

Definition status_of (eng : Engine.t) (task_id : string) : option TaskQueue.TaskStatus :=
  TaskQueue.status <$> TaskQueue.entries (task_queue eng) !! task_id.

(** Round-robin over [agents]: the agent of the [i]-th task. *)
Definition round_robin (agents : list string) (i : nat) : option string :=
  agents !! (i mod length agents)%nat.

End Scenarios.

(* ===================================================================== *)
(** ** Input sanitising: [SecurityManager.sanitize_input], [_validate_input] *)
(* ===================================================================== *)

Module Security.
Import Text.

(** [str.lstrip()] and [str.rstrip()] *)
Fixpoint lstrip (s : string) : string :=
  match s with
  | EmptyString => EmptyString
  | String c rest => if is_space c then lstrip rest else s
  end.

Fixpoint rstrip (s : string) : string :=
  match s with
  | EmptyString => EmptyString
  | String c rest =>
      match rstrip rest with
      | EmptyString => if is_space c then EmptyString else String c EmptyString
      | kept => String c kept
      end
  end.

(** [str.strip()] *)
Definition strip (s : string) : string := rstrip (lstrip s).

Fixpoint take_chars (n : nat) (s : string) : string :=
  match n, s with
  | S n', String c rest => String c (take_chars n' rest)
  | _, _ => EmptyString
  end.

(** The slice [s[:stop]]; a negative [stop] counts from the end. *)
Definition slice_to (stop : Z) (s : string) : string :=
  if 0 <=? stop then take_chars (Z.to_nat stop) s
  else take_chars (Z.to_nat (Z.of_nat (String.length s) + stop)) s.

(** [str.replace(old, new)] for a one-character [old]. *)
Fixpoint replace_with (old : ascii) (new : string) (s : string) : string :=
  match s with
  | EmptyString => EmptyString
  | String c rest =>
      if Ascii.eqb c old then new +:+ replace_with old new rest
      else String c (replace_with old new rest)
  end.

Definition lt_sign : ascii := "<"%char.
Definition gt_sign : ascii := ">"%char.
Definition double_quote : ascii := "034"%char.
Definition single_quote : ascii := "'"%char.

(** [sanitize_input(input_data, max_length)] on a [str]. *)
Definition sanitize_input (input_data : string) (max_length : Z) : string :=
  let sanitized := slice_to max_length (strip input_data) in
  let sanitized :=
    replace_with gt_sign "&gt;" (replace_with lt_sign "&lt;" sanitized) in
  replace_with single_quote "&#x27;"
    (replace_with double_quote "&quot;" sanitized).

(** [_validate_input]: strings are sanitised with the default
    [max_length = 1000], dicts and lists are rebuilt around their validated
    members, anything else is returned as it is. *)
Fixpoint _validate_input (input_data : value) : value :=
  match input_data with
  | VStr s => VStr (sanitize_input s 1000)
  | VDict items =>
      VDict (List.map (fun kv => match kv with
                                 | (k, v) => (k, _validate_input v)
                                 end) items)
  | VList items => VList (List.map _validate_input items)
  | other => other
  end.

(** The four replacements of [sanitize_input] on their own. *)
Definition escape (s : string) : string :=
  replace_with single_quote "&#x27;"
    (replace_with double_quote "&quot;"
       (replace_with gt_sign "&gt;" (replace_with lt_sign "&lt;" s))).

(** The characters [sanitize_input] escapes. *)
Definition dangerous (c : ascii) : bool :=
  Ascii.eqb c lt_sign || Ascii.eqb c gt_sign
  || Ascii.eqb c double_quote || Ascii.eqb c single_quote.

(** No string held as a value inside [v] (dict keys apart) has a dangerous
    character. *)
Fixpoint clean (v : value) : bool :=
  match v with
  | VStr s => sall (fun c => negb (dangerous c)) s
  | VDict items =>
      forallb (fun kv => match kv with (_, x) => clean x end) items
  | VList items => forallb clean items
  | _ => true
  end.

(** The shape of a value: everything but the text of its strings. *)
Fixpoint shape (v : value) : value :=
  match v with
  | VStr _ => VStr EmptyString
  | VDict items =>
      VDict (List.map (fun kv => match kv with (k, x) => (k, shape x) end) items)
  | VList items => VList (List.map shape items)
  | other => other
  end.

End Security.

(* ===================================================================== *)
(** ** Further operations of the integrator and of the engine *)
(* ===================================================================== *)

Module TextExt.
Import Text.

(** The text with its separators and whitespace deleted. *)
Fixpoint squeeze (s : string) : string :=
  match s with
  | EmptyString => EmptyString
  | String c rest =>
      if is_delimiter c then squeeze rest else String c (squeeze rest)
  end.

End TextExt.

(** The rate-limit claim in its own words, apart from the key and the
    comprehension the code uses: requests are told apart by their pair
    (operation, identifier), and a timestamp lies in the window when it is
    less than [seconds] old and not in the future. *)
Module RateLimitClaim.
Import Integrator.

(** The timestamp lies within the last [seconds] seconds at [now]. *)
Definition within_last (now seconds timestamp : Z) : bool :=
  (now - seconds <? timestamp) && (timestamp <=? now).

(** The request belongs to the pair (operation, identifier). *)
Definition of_pair (operation identifier : string) (r : request) : bool :=
  String.eqb (rq_operation r) operation && String.eqb (rq_identifier r) identifier.

(** How many requests of the pair were admitted, by the answers of [log],
    with a timestamp within the last [seconds] seconds at [now]. *)
Definition pair_admitted_within (operation identifier : string)
    (now seconds : Z) (log : list (request * bool)) : nat :=
  length (List.filter
            (fun answered =>
               snd answered && of_pair operation identifier (fst answered)
               && within_last now seconds (rq_time (fst answered)))
            log).

(** What the limiter holds for the pair. *)
Definition recorded (operation identifier : string) (it : Integrator.t) : list Z :=
  stored (rate_key operation identifier) it.

(** The claim at the request [r] that follows the serial requests [reqs]
    on a fresh integrator: [r] is rejected exactly when the admitted
    requests of its pair inside the window number at least
    [api_rate_limit]. *)
Definition rate_limit_claim (sc : SecurityConfig) (pc : PerformanceConfig)
    (reqs : list request) (r : request) : Prop :=
  let limit := api_rate_limit sc in
  let log := fst (serve reqs (init sc pc)) in
  let it1 := snd (serve reqs (init sc pc)) in
  fst (check r it1) = false
  <-> limit <= Z.of_nat (pair_admitted_within (rq_operation r) (rq_identifier r)
                           (rq_time r) limit log).

(** The operation name of the request holds no colon. *)
Definition colon_free (r : request) : bool :=
  negb (Text.occurs ":"%char (rq_operation r)).

(** Two pairs whose keys coincide, and a clock that runs backwards. *)
Definition shared_window : list request := [ mkRequest "a:b" "c" 10 ].

Definition clock_set_back : list request :=
  [ mkRequest "business_workflow" "wf-1" 10;
    mkRequest "business_workflow" "wf-1" 10;
    mkRequest "business_workflow" "wf-1" 13 ].

End RateLimitClaim.

Module IntegratorExt.
Import Integrator.

(** What [WorkflowMonitor._check_security_thresholds] finds. *)
Record security_report := mkReport {
  rate_limit_violations : nat;   (* keys whose window is at capacity *)
  breaker_warning : bool;        (* "Circuit breaker is open" was logged *)
  check_failed : bool            (* the [except] branch logged an error *)
}.

Definition at_capacity (limit : Z) (entry : string * list Z) : bool :=
  limit <=? Z.of_nat (length (snd entry)).

(** [_check_security_thresholds] at clock reading [now]: the report, and the
    integrator afterwards ([can_execute] is called on its breaker). *)
Definition _check_security_thresholds (now : Z) (it : t) : security_report * t :=
  let violations :=
    length (List.filter (at_capacity (api_rate_limit (security_config it)))
                        (map_to_list (rate_limiter it))) in
  match CircuitBreaker.can_execute now (circuit_breaker it) with
  | Some (admitted, cb) =>
      (mkReport violations (negb admitted) false, set_circuit_breaker cb it)
  | None => (mkReport violations false true, it)
  end.

End IntegratorExt.

Module EngineExt.
Import AgentRegistry Engine.

(** The table [type_complexity] with its default. *)
Definition type_complexity (workflow_type : string) : Z :=
  if String.eqb workflow_type "simple" then 2
  else if String.eqb workflow_type "data_processing" then 4
  else if String.eqb workflow_type "automation" then 5
  else if String.eqb workflow_type "integration" then 6
  else if String.eqb workflow_type "complex" then 8
  else if String.eqb workflow_type "critical" then 10
  else 3.

(** [_assess_workflow_complexity]; [payload_size] is
    [len(str(workflow.payload))]. *)
Definition _assess_workflow_complexity (payload_size : Z) (workflow : Workflow) : Z :=
  let complexity := type_complexity (workflow_type workflow) in
  let complexity :=
    if 10000 <? payload_size then complexity + 2
    else if 1000 <? payload_size then complexity + 1
    else complexity in
  let complexity :=
    match priority workflow with
    | HIGH => complexity + 1
    | CRITICAL => complexity + 2
    | _ => complexity
    end in
  Z.min complexity 10.

(** [get_workflow_status]: the workflow whose fields [to_dict] lists, or
    [None]. *)
Definition get_workflow_status (workflow_id : string) (eng : Engine.t)
    : option Workflow :=
  workflows eng !! workflow_id.

(** [list_workflows(status)]; the order of the table is not modelled. *)
Definition list_workflows (filter_status : option WorkflowStatus)
    (eng : Engine.t) : list Workflow :=
  match filter_status with
  | Some s => List.filter (fun w => bool_decide (status w = s)) (values eng)
  | None => values eng
  end.

(** What the table of an engine satisfies: every workflow is kept under
    its own id, has left PENDING and has [started_at] set; and every
    execution task belongs to a workflow of the table. *)
Definition started (key : string) (w : Workflow) : Prop :=
  id w = key /\ status w <> PENDING /\ is_Some (started_at w).

Definition table_ok (eng : Engine.t) : Prop :=
  (forall key w, workflows eng !! key = Some w -> started key w) /\
  (forall key task, running_workflows eng !! key = Some task ->
                    is_Some (workflows eng !! key)).

(** [w'] is [w] after some phases: same id, same [started_at], and not back
    to PENDING. *)
Definition advanced (w w' : Workflow) : Prop :=
  id w' = id w /\ started_at w' = started_at w /\
  (status w <> PENDING -> status w' <> PENDING).

(** The test of the monitor turned round: the task is not yet in one of
    the three final statuses, or the queue does not know it. *)
Definition unfinished (q : TaskQueue.t) (task_id : string) : bool :=
  negb (finished_task q task_id).

(** The agents [_select_agents_simple] is to pick for a workflow type:
    registered, with a non-empty id, active, and holding one of the
    required capabilities. *)
Definition suitable (reg : AgentRegistry.t) (workflow_type : string)
    (wanted : string) : Prop :=
  exists a, a ∈ reg /\ agent_id a = wanted /\ wanted <> "" /\
            agent_status a = active /\
            exists capability,
              capability ∈ _get_required_capabilities workflow_type /\
              capability ∈ capabilities a.

(** The operation is a [start_workflow] of a workflow with the id [key]. *)
Definition starts (key : string) (step : Z * operation) : bool :=
  match snd step with
  | StartWorkflow workflow => bool_decide (id workflow = key)
  | _ => false
  end.

Definition starts_of (key : string) (steps : list (Z * operation)) : nat :=
  length (List.filter (starts key) steps).

(** The workflow [key] is CANCELLED, and its execution task, if
    [running_workflows] still holds one, has been cancelled or has ended. *)
Definition cancelled_for_good (key : string) (eng : Engine.t) : Prop :=
  (exists w, workflows eng !! key = Some w /\ status w = CANCELLED) /\
  (forall task, running_workflows eng !! key = Some task ->
                must_cancel task = true \/ at_position task = Finished).

(** What the await of [n8n_adapter.execute_workflow] in
    [_execute_n8n_workflow] delivers to the coroutine when it goes on: the
    execution, an [Exception] of the client, or [CancelledError], which is
    thrown into the coroutine when its task was cancelled while it was
    suspended there (or raised by the client itself). *)
Inductive delivered :=
| Returned (execution : N8nExecution)
| Raised (message : string)
| CancelledError.

(** [_execute_n8n_workflow] from that await on, for the workflow as it is
    then.  [CancelledError] is no [Exception] (Python 3.8 and later): the
    [except] clause of the method lets it pass, and the method is left
    ([None]). *)
Definition n8n_after_await (d : delivered) (workflow : Workflow) : option Workflow :=
  match d with
  | Returned execution =>
      let w1 :=
        set_results
          (<["n8n_execution" :=
               VDict [ ("execution_id", VStr (execution_id execution));
                       ("status", VStr (execution_status execution));
                       ("result_data", result_data execution);
                       ("error_message",
                        match error_message execution with
                        | Some msg => VStr msg
                        | None => VNone
                        end) ]]> (results workflow)) workflow in
      Some (if String.eqb (execution_status execution) "completed"
            then set_status COMPLETED w1
            else set_error (error_message execution) (set_status FAILED w1))
  | Raised e =>
      Some (set_error (Some ("N8N workflow execution failed: " +:+ e))
                      (set_status FAILED workflow))
  | CancelledError => None
  end.


(** What a client that does not suspend delivers. *)
Definition delivered_of (answer : raising N8nExecution) : delivered :=
  match answer with
  | Ok execution => Returned execution
  | Raise e => Raised e
  end.

End EngineExt.

(* ===================================================================== *)
(** ** Theorems: circuit breaker *)
(* ===================================================================== *)

Module CircuitBreakerFacts.
Import CircuitBreaker.

Lemma wf_init threshold timeout : wf (init threshold timeout).
Proof. split; simpl; [lia | congruence]. Qed.

Lemma wf_record_success cb : wf (record_success cb).
Proof. split; simpl; [lia | congruence]. Qed.

Lemma wf_record_failure now cb : wf cb -> wf (record_failure now cb).
Proof.
  intros [Hc Hs]. unfold record_failure. split; simpl; [lia |].
  destruct (Z.leb_spec (failure_threshold cb) (failure_count cb + 1)).
  - intros _. split; [lia | eauto].
  - intros Hne. destruct (Hs Hne) as [Hle _]. lia.
Qed.

Lemma wf_can_execute now cb b cb' :
  wf cb -> can_execute now cb = Some (b, cb') -> wf cb'.
Proof.
  intros Hwf. unfold can_execute.
  destruct (state cb) eqn:Hst; try (intros [= <- <-]; exact Hwf).
  destruct (last_failure_time cb) as [lf|] eqn:Hlf; [|discriminate].
  destruct (recovery_timeout cb <=? now - lf); intros [= <- <-]; [|exact Hwf].
  destruct Hwf as [Hc Hs]. split; simpl; [exact Hc |].
  intros _. rewrite Hlf. split; [|eauto].
  apply Hs. rewrite Hst. discriminate.
Qed.

Lemma reachable_wf threshold timeout cb :
  reachable threshold timeout cb -> wf cb.
Proof.
  induction 1;
    eauto using wf_init, wf_record_success, wf_record_failure, wf_can_execute.
Qed.

Lemma reachable_threshold threshold timeout cb :
  reachable threshold timeout cb -> failure_threshold cb = threshold.
Proof.
  induction 1 as [|cb now b cb' _ IH Hce| |]; simpl; auto.
  revert Hce. unfold can_execute.
  destruct (state cb); try (intros [= <- <-]; exact IH).
  destruct (last_failure_time cb) as [lf|]; [|discriminate].
  destruct (recovery_timeout cb <=? now - lf); intros [= <- <-]; exact IH.
Qed.

Lemma record_failures_threshold nows cb :
  failure_threshold (record_failures nows cb) = failure_threshold cb.
Proof.
  revert cb. induction nows as [|now nows IH]; intros cb; [reflexivity |].
  unfold record_failures in *. simpl. rewrite IH. reflexivity.
Qed.

Lemma record_failures_count nows cb :
  failure_count (record_failures nows cb)
  = failure_count cb + Z.of_nat (length nows).
Proof.
  revert cb. induction nows as [|now nows IH]; intros cb.
  - simpl. lia.
  - unfold record_failures in *. simpl foldl. rewrite IH. simpl. lia.
Qed.

Lemma record_failures_snoc nows now cb :
  record_failures (nows ++ [now]) cb
  = record_failure now (record_failures nows cb).
Proof. unfold record_failures. rewrite foldl_app. reflexivity. Qed.

(** Once enough failures have accumulated the breaker is open. *)
Lemma record_failures_open nows cb :
  nows <> [] ->
  failure_threshold cb <= failure_count cb + Z.of_nat (length nows) ->
  state (record_failures nows cb) = OPEN.
Proof.
  induction nows as [|x l' _] using rev_ind; [congruence |].
  intros _ Hle. rewrite record_failures_snoc. unfold record_failure. simpl.
  rewrite record_failures_threshold, record_failures_count.
  rewrite length_app in Hle. simpl in Hle.
  destruct (Z.leb_spec (failure_threshold cb)
              (failure_count cb + Z.of_nat (length l') + 1)); [reflexivity | lia].
Qed.

(** Fewer failures than the threshold leave a fresh breaker closed. *)
Lemma record_failures_closed nows cb :
  state cb = CLOSED ->
  failure_count cb + Z.of_nat (length nows) < failure_threshold cb ->
  state (record_failures nows cb) = CLOSED.
Proof.
  induction nows as [|x l IH] using rev_ind; intros Hst Hlt; [exact Hst |].
  rewrite length_app in Hlt. simpl in Hlt.
  rewrite record_failures_snoc. unfold record_failure. simpl.
  rewrite record_failures_threshold, record_failures_count.
  destruct (Z.leb_spec (failure_threshold cb)
              (failure_count cb + Z.of_nat (length l) + 1)); [lia |].
  apply IH; [exact Hst | lia].
Qed.

Lemma probes_half_open nows cb :
  state cb = HALF_OPEN -> probes nows cb = replicate (length nows) true.
Proof.
  intros Hst. induction nows as [|now nows IH]; [reflexivity |].
  simpl. unfold can_execute. rewrite Hst. simpl. by rewrite IH.
Qed.

Lemma wfb_wf cb : wfb cb = true -> wf cb.
Proof.
  unfold wfb, wf. rewrite andb_true_iff, Z.leb_le. intros [Hc Hs].
  split; [exact Hc |]. intros Hne.
  destruct (state cb); [congruence | |];
    apply andb_true_iff in Hs as [Hle Hsome];
    apply Z.leb_le in Hle; apply bool_decide_eq_true in Hsome; auto.
Qed.

Lemma wf_wfb cb : wf cb -> wfb cb = true.
Proof.
  intros [Hc Hs]. unfold wfb. apply andb_true_iff. split; [by apply Z.leb_le |].
  destruct (state cb) eqn:Hst; [reflexivity | |];
    (destruct Hs as [Hle Hsome]; [congruence |];
     apply andb_true_iff; split;
     [by apply Z.leb_le | by apply bool_decide_eq_true]).
Qed.

Lemma reachable_wfb threshold timeout cb :
  reachable threshold timeout cb -> wfb cb = true.
Proof. intros H. apply wf_wfb. eapply reachable_wf, H. Qed.

(** The breaker of scenario S5: the default breaker after five consecutive
    failures is open. *)
Example five_failures_open :
  state (record_failures [0; 1; 2; 3; 4] default) = OPEN.
Proof. reflexivity. Qed.

Example four_failures_closed :
  state (record_failures [0; 1; 2; 3] default) = CLOSED.
Proof. reflexivity. Qed.

(** C2, as stated, fails on its HALF_OPEN clause: once the recovery timeout
    has passed, the open breaker of scenario S5 admits every check made
    before an outcome is recorded (here three of them), not exactly one. *)
Lemma C2_half_open_admits_many :
  ~ exactly_one_probe [64; 65; 66] (record_failures [0; 1; 2; 3; 4] default).
Proof. unfold exactly_one_probe. vm_compute. discriminate. Qed.

(** C2 (amended): the breaker is the three-state machine of the claim except
    that HALF_OPEN does not limit probes.  For a breaker in a state the
    methods can produce, with a positive threshold:
    - CLOSED admits every call and is left unchanged;
    - [failure_threshold] consecutive [record_failure] calls leave it OPEN;
    - OPEN rejects while [now - last_failure_time < recovery_timeout] and
      otherwise admits the call and becomes HALF_OPEN;
    - HALF_OPEN admits every call until an outcome is recorded; a success
      gives CLOSED with [failure_count = 0]; a failure gives OPEN. *)
Theorem C2_circuit_breaker_machine (cb : t) (now : Z) :
  wfb cb = true ->
  1 <= failure_threshold cb ->
  (state cb = CLOSED -> can_execute now cb = Some (true, cb)) /\
  (forall nows : list Z,
     Z.of_nat (length nows) = failure_threshold cb ->
     state (record_failures nows cb) = OPEN) /\
  (state cb = OPEN ->
     exists lf, last_failure_time cb = Some lf /\
       (now - lf < recovery_timeout cb -> can_execute now cb = Some (false, cb)) /\
       (recovery_timeout cb <= now - lf ->
          can_execute now cb = Some (true, set_state HALF_OPEN cb))) /\
  (state cb = HALF_OPEN ->
     (forall nows : list Z, probes nows cb = replicate (length nows) true) /\
     can_execute now cb = Some (true, cb) /\
     state (record_success cb) = CLOSED /\
     failure_count (record_success cb) = 0 /\
     state (record_failure now cb) = OPEN).
Proof.
  intros Hwf Hth. apply wfb_wf in Hwf. destruct Hwf as [Hc Hs].
  repeat split.
  - intros Hst. unfold can_execute. by rewrite Hst.
  - intros nows Hlen. apply record_failures_open; [|lia].
    destruct nows; [simpl in Hlen; lia | discriminate].
  - intros Hst. destruct Hs as [_ [lf Hlf]]; [congruence |].
    exists lf. split; [exact Hlf |]. unfold can_execute. rewrite Hst, Hlf.
    split; intros Hcmp.
    + destruct (Z.leb_spec (recovery_timeout cb) (now - lf)); [lia | reflexivity].
    + destruct (Z.leb_spec (recovery_timeout cb) (now - lf)); [reflexivity | lia].
  - intros nows. by apply probes_half_open.
  - unfold can_execute. by rewrite H.
  - unfold record_failure. simpl.
    destruct Hs as [Hle _]; [congruence |].
    destruct (Z.leb_spec (failure_threshold cb) (failure_count cb + 1));
      [reflexivity | lia].
Qed.

(** The theorem at the half-open breaker of scenario S5. *)
Lemma C2_circuit_breaker_machine_witness :
  let cb := set_state HALF_OPEN (record_failures [0; 1; 2; 3; 4] default) in
  wfb cb = true /\ 1 <= failure_threshold cb /\
  can_execute 70 cb = Some (true, cb) /\
  state (record_failure 70 cb) = OPEN.
Proof.
  split; [reflexivity |]. split; [simpl; lia |].
  pose proof (C2_circuit_breaker_machine
                (set_state HALF_OPEN (record_failures [0; 1; 2; 3; 4] default)) 70
                eq_refl ltac:(simpl; lia)) as (_ & _ & _ & Hhalf).
  destruct (Hhalf eq_refl) as (_ & Hce & _ & _ & Hfail).
  split; [exact Hce | exact Hfail].
Defined.

End CircuitBreakerFacts.

(* ===================================================================== *)
(** ** Theorems: retry wrapper *)
(* ===================================================================== *)

Module RetryFacts.
Import Integrator.

Lemma backoff_trace_S delay attempt j :
  backoff_trace delay attempt (S j)
  = Call attempt :: Sleep (delay * 2 ^ Z.of_nat attempt)
      :: backoff_trace delay (S attempt) j.
Proof.
  unfold backoff_trace.
  replace (attempt + S j)%nat with (S attempt + j)%nat by lia. reflexivity.
Qed.

Lemma backoff_trace_head delay attempt j :
  exists rest, backoff_trace delay attempt j = Call attempt :: rest.
Proof.
  destruct j.
  - exists []. unfold backoff_trace. simpl. do 2 f_equal. lia.
  - rewrite backoff_trace_S. eauto.
Qed.

Lemma calls_backoff_trace delay attempt j :
  calls (backoff_trace delay attempt j) = seq attempt (S j).
Proof.
  revert attempt. induction j as [|j IH]; intros attempt.
  - unfold backoff_trace. simpl. do 2 f_equal. lia.
  - rewrite backoff_trace_S. change (calls (Call attempt :: Sleep ?d :: ?l))
      with (attempt :: calls l). rewrite IH. reflexivity.
Qed.

Lemma sleeps_backoff_trace delay attempt j :
  sleeps (backoff_trace delay attempt j)
  = (fun i => delay * 2 ^ Z.of_nat i) <$> seq attempt j.
Proof.
  revert attempt. induction j as [|j IH]; intros attempt; [reflexivity |].
  rewrite backoff_trace_S. change (sleeps (Call attempt :: Sleep ?d :: ?l))
    with (d :: sleeps l). rewrite IH. reflexivity.
Qed.

Lemma sleep_before_backoff_trace delay attempt j k :
  sleep_before k (backoff_trace delay attempt j)
  = if decide (attempt < k <= attempt + j)%nat
    then Some (delay * 2 ^ Z.of_nat (k - 1)) else None.
Proof.
  revert attempt. induction j as [|j IH]; intros attempt.
  - unfold backoff_trace. simpl. case_decide; [lia | reflexivity].
  - rewrite backoff_trace_S.
    destruct (backoff_trace_head delay (S attempt) j) as [rest Hrest].
    specialize (IH (S attempt)). rewrite Hrest in *.
    simpl. destruct (decide (S attempt = k)) as [<-|Hne].
    + rewrite decide_True by lia. do 3 f_equal. lia.
    + simpl in IH. rewrite IH. repeat case_decide; try reflexivity; lia.
Qed.

Lemma backoff_sum_closed delay n :
  backoff_sum delay n = delay * (2 ^ Z.of_nat n - 1).
Proof.
  unfold backoff_sum. induction n as [|n IH]; [simpl; lia |].
  rewrite seq_S, fmap_app, foldr_app. simpl.
  assert (Hgen : forall l a, foldr Z.add a l = foldr Z.add 0 l + a).
  { induction l as [|x l IHl]; intros a; simpl; [lia |]. rewrite IHl. lia. }
  rewrite Hgen, IH. rewrite Nat2Z.inj_succ, Z.pow_succ_r by lia. lia.
Qed.

Section retry.
Context {R E : Type}.
Variable func : nat -> attempt_result R E.

(** Shape of every run of the loop: some number [j] of failed iterations,
    each followed by its sleep, then a last call that either succeeds or is
    the failure of the last iteration of the range. *)
Lemma retry_loop_shape remaining attempt now it tr :
  (0 < remaining)%nat ->
  Z.of_nat (attempt + remaining) = retry_attempts (performance_config it) ->
  exists j, (j < remaining)%nat /\
    trace (retry_loop func remaining attempt now it tr)
    = tr ++ backoff_trace (retry_delay (performance_config it)) attempt j /\
    (forall i, (attempt <= i < attempt + j)%nat -> failed (func i) = true) /\
    ((exists value, result (func (attempt + j)%nat) = Success value /\
        final (retry_loop func remaining attempt now it tr) = Returned value) \/
     (exists exn, result (func (attempt + j)%nat) = Failure exn /\
        S j = remaining /\
        final (retry_loop func remaining attempt now it tr) = Raised exn)).
Proof.
  revert attempt now it tr.
  induction remaining as [|remaining IH]; intros attempt now it tr Hpos Hn; [lia |].
  simpl. destruct (result (func attempt)) as [value|exn] eqn:Hres.
  - exists 0%nat. rewrite Nat.add_0_r. simpl.
    split; [lia |]. split; [unfold backoff_trace; simpl; by rewrite Nat.add_0_r |].
    split; [intros i Hi; lia |]. left. eauto.
  - destruct (Z.eqb_spec (Z.of_nat attempt)
                (retry_attempts (performance_config it) - 1)) as [Hlast|Hmore].
    + exists 0%nat. rewrite Nat.add_0_r. simpl.
      split; [lia |]. split; [unfold backoff_trace; simpl; by rewrite Nat.add_0_r |].
      split; [intros i Hi; lia |]. right. exists exn.
      repeat split; [exact Hres | lia].
    + assert (Hrem : (0 < remaining)%nat) by lia.
      set (it' := set_circuit_breaker _ _).
      destruct (IH (S attempt)
                  (now + elapsed (func attempt)
                   + Z.max 0 (retry_delay (performance_config it)
                              * 2 ^ Z.of_nat attempt))
                  it'
                  (tr ++ [Call attempt;
                          Sleep (retry_delay (performance_config it)
                                 * 2 ^ Z.of_nat attempt)]) Hrem)
        as (j & Hj & Htr & Hfail & Hend); [subst it'; simpl; lia |].
      exists (S j). subst it'. simpl in Htr, Hend. split; [lia |]. split.
      { rewrite Htr, backoff_trace_S. by rewrite <- app_assoc. }
      split.
      { intros i Hi. destruct (decide (i = attempt)) as [->|Hne].
        - unfold failed. by rewrite Hres.
        - apply Hfail. lia. }
      replace (attempt + S j)%nat with (S attempt + j)%nat by lia.
      destruct Hend as [(value & Hv & Hf)|(exn' & He & Hlast & Hf)].
      * left. eauto.
      * right. exists exn'. repeat split; [exact He | lia | exact Hf].
Qed.

Lemma failed_success (a : attempt_result R E) value :
  result a = Success value -> failed a = true -> False.
Proof. unfold failed. intros ->. discriminate. Qed.

Lemma failed_failure (a : attempt_result R E) exn :
  result a = Failure exn -> failed a = true.
Proof. unfold failed. by intros ->. Qed.

(** C3: the retry wrapper, entered with the breaker letting it in.
    Iterations are numbered from 0, as the loop variable [attempt] is;
    "the k-th try" counts calls from 1.
    - at most [retry_attempts] calls of the wrapped function are made;
    - whenever iteration [k+1] is run, the sleep just before it lasted
      exactly [retry_delay * 2^k];
    - if the k-th try is the first to succeed, the wrapper returns its
      value after k calls and a total sleep of
      [retry_delay * 2^0 + ... + retry_delay * 2^(k-2)];
    - if all [retry_attempts] tries fail, the exception of the last one is
      re-raised. *)
Theorem C3_retry_law (now : Z) (it : t) :
  admits now it = true ->
  let r := _execute_with_retry func now it in
  let n := Z.to_nat (retry_attempts (performance_config it)) in
  let delay := retry_delay (performance_config it) in
  (length (calls (trace r)) <= n)%nat /\
  (forall k : nat,
     S k ∈ calls (trace r) ->
     sleep_before (S k) (trace r) = Some (delay * 2 ^ Z.of_nat k)) /\
  (forall (k : nat) (value : R),
     (1 <= k <= n)%nat ->
     (forall i : nat, (i < k - 1)%nat -> failed (func i) = true) ->
     result (func (k - 1)%nat) = Success value ->
     final r = Returned value /\
     calls (trace r) = seq 0 k /\
     sleeps (trace r) = (fun i => delay * 2 ^ Z.of_nat i) <$> seq 0 (k - 1) /\
     total_sleep (trace r) = backoff_sum delay (k - 1)) /\
  ((1 <= n)%nat ->
   (forall i : nat, (i < n)%nat -> failed (func i) = true) ->
   exists exn : E,
     result (func (n - 1)%nat) = Failure exn /\
     final r = Raised exn /\
     calls (trace r) = seq 0 n).
Proof.
  intros Hadm r n delay. subst r. unfold _execute_with_retry.
  unfold admits in Hadm.
  destruct (CircuitBreaker.can_execute now (circuit_breaker it))
    as [[[|] cb]|]; try discriminate. clear Hadm.
  fold n. destruct (Nat.eq_dec n 0) as [Hz|Hnz].
  { rewrite Hz. simpl. split; [lia |]. split; [intros k Hk; inversion Hk |].
    split; [intros; lia | intros; lia]. }
  destruct (retry_loop_shape n 0 now (set_circuit_breaker cb it) [])
    as (j & Hj & Htr & Hfail & Hend); [lia | simpl; subst n; lia |].
  simpl in Htr. fold delay in Htr. rewrite Htr. simpl in Hend, Hfail.
  rewrite calls_backoff_trace, sleeps_backoff_trace.
  split; [rewrite length_seq; lia |]. split.
  { intros k Hk. apply elem_of_seq in Hk.
    rewrite sleep_before_backoff_trace, decide_True by lia.
    do 3 f_equal. lia. }
  split.
  - intros k value Hk Hbefore Hsucc.
    assert (Hjk : j = (k - 1)%nat).
    { destruct Hend as [(v & Hv & _)|(exn & He & Hlast & _)].
      - destruct (Nat.lt_trichotomy j (k - 1)) as [Hlt|[Heq|Hgt]]; [|exact Heq|].
        + exfalso. eapply failed_success; [exact Hv | by apply Hbefore].
        + exfalso. eapply failed_success; [exact Hsucc | apply Hfail; lia].
      - exfalso. destruct (decide (j = (k - 1)%nat)) as [Heq|Hne].
        + rewrite Heq in He. congruence.
        + eapply failed_success; [exact Hsucc | apply Hfail; lia]. }
    subst j. destruct Hend as [(v & Hv & Hf)|(exn & He & _)]; [|congruence].
    rewrite Hf. replace (S (k - 1)) with k by lia.
    repeat split; [congruence |].
    unfold total_sleep, backoff_sum. by rewrite sleeps_backoff_trace.
  - intros Hn Hall.
    destruct Hend as [(v & Hv & _)|(exn & He & Hlast & Hf)].
    + exfalso. eapply failed_success; [exact Hv | apply Hall; lia].
    + exists exn. replace (n - 1)%nat with j by lia.
      rewrite Hlast. repeat split; [exact He | exact Hf].
Qed.

End retry.

Example flaky_run :
  let r := _execute_with_retry flaky 0 default_integrator in
  final r = Returned "done" /\
  trace r = [Call 0; Sleep 1; Call 1; Sleep 2; Call 2] /\
  clock r = 18.
Proof. vm_compute. auto. Qed.

Example always_failing_run :
  let r := _execute_with_retry
             (fun i => mkAttempt (Failure (pretty i)) 0
                       : attempt_result string string) 0 default_integrator in
  final r = Raised "2" /\
  trace r = [Call 0; Sleep 1; Call 1; Sleep 2; Call 2].
Proof. vm_compute. auto. Qed.

(** The theorem at [flaky_run]: the third try is the first to succeed. *)
Lemma C3_retry_law_witness :
  let r := _execute_with_retry flaky 0 default_integrator in
  admits 0 default_integrator = true /\
  final r = Returned "done" /\
  total_sleep (trace r) = backoff_sum 1 2.
Proof.
  split; [reflexivity |].
  pose proof (C3_retry_law flaky 0 default_integrator eq_refl)
    as (_ & _ & Hsucc & _).
  destruct (Hsucc 3%nat "done") as (Hf & _ & _ & Hs).
  - vm_compute. lia.
  - intros i Hi. destruct i as [|[|i]]; [reflexivity | reflexivity | simpl in Hi; lia].
  - reflexivity.
  - split; [exact Hf | exact Hs].
Defined.

End RetryFacts.

(* ===================================================================== *)
(** ** Theorems: rate limiter *)
(* ===================================================================== *)

Module RateLimitFacts.
Import Integrator RateLimitClaim.

Lemma recent_app now limit l1 l2 :
  recent now limit (l1 ++ l2) = recent now limit l1 ++ recent now limit l2.
Proof. unfold recent. apply filter_app. Qed.

(** Pruning at an earlier reading loses nothing a later reading keeps. *)
Lemma recent_recent t now limit l :
  t <= now -> recent now limit (recent t limit l) = recent now limit l.
Proof.
  intros Hle. unfold recent. induction l as [|x l IH]; [reflexivity |].
  rewrite !filter_cons. destruct (decide (t - x < limit)) as [Hin|Hout].
  - rewrite filter_cons. destruct (decide (now - x < limit)); by rewrite IH.
  - rewrite decide_False by lia. exact IH.
Qed.

Lemma check_config r it :
  security_config (snd (check r it)) = security_config it.
Proof.
  unfold check, _check_rate_limit.
  destruct (_ <=? _); reflexivity.
Qed.

Lemma check_stored_same r it :
  stored (rq_key r) (snd (check r it))
  = recent (rq_time r) (api_rate_limit (security_config it)) (stored (rq_key r) it)
    ++ (if fst (check r it) then [rq_time r] else []).
Proof.
  unfold check, _check_rate_limit, stored, rq_key.
  destruct (_ <=? _); simpl; rewrite lookup_insert_eq; simpl;
    [by rewrite app_nil_r | reflexivity].
Qed.

Lemma check_lookup_other r it key :
  key <> rq_key r ->
  rate_limiter (snd (check r it)) !! key = rate_limiter it !! key.
Proof.
  intros Hne. unfold check, _check_rate_limit, rq_key in *.
  destruct (_ <=? _); simpl; by rewrite lookup_insert_ne.
Qed.

Lemma check_rejects r it :
  fst (check r it) = false <->
  api_rate_limit (security_config it)
  <= Z.of_nat (length (recent (rq_time r) (api_rate_limit (security_config it))
                              (stored (rq_key r) it))).
Proof.
  unfold check, _check_rate_limit, stored, rq_key.
  destruct (Z.leb_spec (api_rate_limit (security_config it))
              (Z.of_nat (length (recent (rq_time r)
                 (api_rate_limit (security_config it))
                 (default [] (rate_limiter it
                    !! rate_key (rq_operation r) (rq_identifier r)))))));
    simpl; split; intros; try done; lia.
Qed.

Lemma serve_app l1 l2 it :
  serve (l1 ++ l2) it
  = (fst (serve l1 it) ++ fst (serve l2 (snd (serve l1 it))),
     snd (serve l2 (snd (serve l1 it)))).
Proof.
  revert it. induction l1 as [|r l1 IH]; intros it; simpl.
  - by destruct (serve l2 it).
  - destruct (check r it) as [b it1]. rewrite IH.
    destruct (serve l1 it1) as [log1 it2]. simpl.
    by destruct (serve l2 it2).
Qed.

Lemma serve_one r it :
  serve [r] it = ([(r, fst (check r it))], snd (check r it)).
Proof. simpl. by destruct (check r it). Qed.

Lemma admitted_times_snoc key log r b :
  admitted_times key (log ++ [(r, b)])
  = admitted_times key log
    ++ (if b && bool_decide (rq_key r = key) then [rq_time r] else []).
Proof.
  unfold admitted_times. rewrite filter_app, fmap_app. f_equal.
  rewrite filter_cons, filter_nil.
  destruct (decide (snd (r, b) = true /\ rq_key (fst (r, b)) = key))
    as [[Hb Hk]|Hn]; simpl in *.
  - subst b. by rewrite bool_decide_eq_true_2.
  - destruct b; simpl; [|reflexivity].
    case_bool_decide; [tauto | reflexivity].
Qed.

Lemma monotone_from_snoc t0 l r :
  monotone_from t0 (l ++ [r]) = true ->
  monotone_from t0 l = true /\ t0 <= rq_time r /\
  Forall (fun x => rq_time x <= rq_time r) l.
Proof.
  revert t0. induction l as [|x l IH]; intros t0; simpl.
  - rewrite andb_true_r. intros H%Z.leb_le. auto.
  - rewrite !andb_true_iff. intros [H0%Z.leb_le H].
    destruct (IH _ H) as (Hm & Hx & Hall).
    repeat split; auto; [by apply Z.leb_le | lia].
Qed.

Lemma monotone_snoc l r :
  monotone (l ++ [r]) = true ->
  monotone l = true /\ Forall (fun x => rq_time x <= rq_time r) l.
Proof.
  destruct l as [|x l]; simpl; [auto |].
  intros H. destruct (monotone_from_snoc _ _ _ H) as (Hm & Hx & Hall). auto.
Qed.

Lemma serve_config reqs it :
  security_config (snd (serve reqs it)) = security_config it.
Proof.
  revert it. induction reqs as [|r reqs IH]; intros it; [reflexivity |].
  simpl. pose proof (check_config r it) as Hc.
  destruct (check r it) as [b it1]. specialize (IH it1).
  destruct (serve reqs it1) as [log it2]. simpl in *. congruence.
Qed.

(** What the limiter keeps under a key agrees, inside every window that
    ends at or after the last request, with the requests it admitted under
    that key. *)
Lemma serve_window reqs it key now :
  rate_limiter it = ∅ ->
  monotone reqs = true ->
  Forall (fun x => rq_time x <= now) reqs ->
  recent now (api_rate_limit (security_config it))
         (stored key (snd (serve reqs it)))
  = recent now (api_rate_limit (security_config it))
           (admitted_times key (fst (serve reqs it))).
Proof.
  intros Hempty. revert now.
  induction reqs as [|r reqs IH] using rev_ind; intros now Hmono Hbound.
  - simpl. unfold stored. by rewrite Hempty, lookup_empty.
  - apply monotone_snoc in Hmono as [Hmono Hle].
    apply Forall_app in Hbound as [Hbound Hr].
    apply Forall_cons in Hr as [Hr _].
    rewrite serve_app, serve_one. simpl.
    set (it1 := snd (serve reqs it)) in *.
    set (log := fst (serve reqs it)) in *.
    rewrite admitted_times_snoc, recent_app.
    destruct (decide (key = rq_key r)) as [->|Hne].
    + rewrite check_stored_same, recent_app.
      unfold it1 at 1. rewrite serve_config. fold it1.
      rewrite recent_recent by exact Hr.
      rewrite (IH now Hmono Hbound).
      rewrite bool_decide_eq_true_2 by done. by rewrite andb_true_r.
    + unfold stored at 1. rewrite check_lookup_other by exact Hne.
      fold (stored key it1). rewrite (IH now Hmono Hbound).
      rewrite bool_decide_eq_false_2 by congruence.
      rewrite andb_false_r. simpl. by rewrite app_nil_r.
Qed.

Lemma key_append_nil (s : string) : "" +:+ s = s.
Proof. reflexivity. Qed.

Lemma key_append_cons c (a b : string) : String c a +:+ b = String c (a +:+ b).
Proof. reflexivity. Qed.

(** Keys identify pairs as long as operation names hold no colon, which is
    the case of every operation the integrator checks
    ([workflow_integration], [business_workflow], ...). *)
Lemma rate_key_inj (op1 id1 op2 id2 : string) :
  Text.occurs ":"%char op1 = false ->
  Text.occurs ":"%char op2 = false ->
  rate_key op1 id1 = rate_key op2 id2 ->
  op1 = op2 /\ id1 = id2.
Proof.
  unfold rate_key. revert op2.
  induction op1 as [|c op1 IH]; intros [|d op2] H1 H2 Heq;
    repeat (rewrite key_append_nil in Heq || rewrite key_append_cons in Heq).
  - by injection Heq as ->.
  - injection Heq as <- _. simpl in H2. discriminate.
  - injection Heq as -> _. simpl in H1. discriminate.
  - injection Heq as -> Heq. simpl in H1, H2.
    apply orb_false_iff in H1 as [_ H1]. apply orb_false_iff in H2 as [_ H2].
    destruct (IH op2 H1 H2 Heq) as [-> ->]. auto.
Qed.

(** With a colon in an operation name, two pairs can share one window. *)
Example rate_key_shared : rate_key "a:b" "c" = rate_key "a" "b:c".
Proof. reflexivity. Qed.

Example burst_answers :
  snd <$> fst (serve burst (init (mkSecurityConfig 2) (mkPerformanceConfig 3 1)))
  = [true; true; false; true; true].
Proof. vm_compute. reflexivity. Qed.

(** *** The claim's reading against the code's *)

(** The answers of [serve] are given to the requests served, in order. *)
Lemma serve_requests reqs it : fst <$> fst (serve reqs it) = reqs.
Proof.
  revert it. induction reqs as [|r reqs IH]; intros it; [reflexivity |].
  simpl. destruct (check r it) as [b it1]. specialize (IH it1).
  destruct (serve reqs it1) as [log it2]. cbn [fst] in *.
  rewrite fmap_cons. cbn [fst]. by f_equal.
Qed.

(** On timestamps that are not in the future, the comprehension of the
    code keeps exactly those within the last [limit] seconds. *)
Lemma recent_within_last now limit (timestamps : list Z) :
  Forall (fun timestamp => timestamp <= now) timestamps ->
  recent now limit timestamps = List.filter (within_last now limit) timestamps.
Proof.
  unfold recent, within_last. induction 1 as [|x l Hx _ IH]; [reflexivity |].
  rewrite filter_cons. simpl.
  destruct (decide (now - x < limit)) as [Hin|Hout];
    destruct (Z.ltb_spec (now - limit) x); destruct (Z.leb_spec x now);
    simpl; try lia; by rewrite IH.
Qed.

(** No stored timestamp is later than the latest request. *)
Lemma check_stored_bounded bound r it :
  rq_time r <= bound ->
  (forall key, Forall (fun timestamp => timestamp <= bound) (stored key it)) ->
  forall key, Forall (fun timestamp => timestamp <= bound)
                     (stored key (snd (check r it))).
Proof.
  intros Hr Hit key. destruct (decide (key = rq_key r)) as [->|Hne].
  - rewrite check_stored_same. apply Forall_app. split.
    + apply Forall_forall. intros x Hx. unfold recent in Hx.
      apply list_elem_of_filter in Hx as [_ Hx].
      pose proof (Hit (rq_key r)) as Hall.
      rewrite Forall_forall in Hall. by apply Hall.
    + destruct (fst (check r it)); repeat constructor. exact Hr.
  - unfold stored. rewrite check_lookup_other by exact Hne. apply Hit.
Qed.

Lemma serve_stored_bounded bound reqs :
  forall it,
    Forall (fun r => rq_time r <= bound) reqs ->
    (forall key, Forall (fun timestamp => timestamp <= bound) (stored key it)) ->
    forall key, Forall (fun timestamp => timestamp <= bound)
                       (stored key (snd (serve reqs it))).
Proof.
  induction reqs as [|r reqs IH]; intros it Hreqs Hit; [exact Hit |].
  apply Forall_cons in Hreqs as [Hr Hreqs]. simpl.
  pose proof (check_stored_bounded bound r it Hr Hit) as Hstep.
  destruct (check r it) as [b it1]. specialize (IH it1 Hreqs Hstep).
  by destruct (serve reqs it1).
Qed.

Lemma init_stored sc pc key : stored key (init sc pc) = [].
Proof. unfold stored. simpl. by rewrite lookup_empty. Qed.

(** For operation names without a colon, the key tells the pairs apart. *)
Lemma of_pair_key (operation identifier : string) (r : request) :
  Text.occurs ":"%char operation = false ->
  colon_free r = true ->
  of_pair operation identifier r = true <-> rq_key r = rate_key operation identifier.
Proof.
  intros Hop Hr. unfold colon_free in Hr. apply negb_true_iff in Hr.
  unfold of_pair, rq_key. rewrite andb_true_iff, !String.eqb_eq. split.
  - by intros [-> ->].
  - intros Hkey. by apply rate_key_inj in Hkey.
Qed.

(** Counting by pair and by the claim's window agrees with counting by key
    and by the code's comprehension. *)
Lemma pair_admitted_within_key (operation identifier : string) (now limit : Z)
    (log : list (request * bool)) :
  Text.occurs ":"%char operation = false ->
  Forall (fun answered => colon_free (fst answered) = true /\
                          rq_time (fst answered) <= now) log ->
  pair_admitted_within operation identifier now limit log
  = admitted_within (rate_key operation identifier) now limit log.
Proof.
  intros Hop. unfold pair_admitted_within, admitted_within, admitted_times.
  induction 1 as [|[x b] log [Hcolon Htime] _ IH]; [reflexivity |].
  simpl in Hcolon, Htime. rewrite filter_cons. cbn [List.filter fst snd].
  pose proof (of_pair_key operation identifier x Hop Hcolon) as Hpair.
  destruct (decide (b = true /\ rq_key x = rate_key operation identifier))
    as [[-> Hkey]|Hno].
  - apply Hpair in Hkey. rewrite Hkey. cbn [andb fmap list_fmap].
    unfold recent in *. rewrite filter_cons. cbn [fst].
    destruct (within_last now limit (rq_time x)) eqn:Hw; unfold within_last in Hw.
    + apply andb_true_iff in Hw as [Hlo%Z.ltb_lt Hhi%Z.leb_le].
      rewrite decide_True by lia. simpl. by rewrite IH.
    + apply andb_false_iff in Hw as [Hlo%Z.ltb_ge|Hhi%Z.leb_gt]; [|lia].
      rewrite decide_False by lia. exact IH.
  - assert (Hfalse : b && of_pair operation identifier x = false).
    { destruct b; [|reflexivity]. simpl.
      destruct (of_pair operation identifier x) eqn:Hp; [|reflexivity].
      exfalso. apply Hno. split; [reflexivity | by apply Hpair]. }
    rewrite Hfalse. simpl. exact IH.
Qed.

(** C4, as stated, fails in two ways.  The window is kept per key
    [operation:identifier], and two pairs can share a key: at limit 1 the
    first request of the pair (a, b:c) is rejected because a request of
    the pair (a:b, c) was admitted.  And the code prunes by [now -
    timestamp] only: when the clock is set back from 13 to 11, the two
    requests admitted at 10, less than 2 seconds before, have been pruned
    at 13 and the request is admitted at limit 2. *)
Lemma C4_claim_needs_conditions :
  ~ rate_limit_claim (mkSecurityConfig 1) (mkPerformanceConfig 3 1)
      shared_window (mkRequest "a" "b:c" 10) /\
  ~ rate_limit_claim (mkSecurityConfig 2) (mkPerformanceConfig 3 1)
      clock_set_back (mkRequest "business_workflow" "wf-1" 11).
Proof.
  split; unfold rate_limit_claim; cbn zeta.
  - assert (Hanswer :
      fst (check (mkRequest "a" "b:c" 10)
             (snd (serve shared_window
                     (init (mkSecurityConfig 1) (mkPerformanceConfig 3 1)))))
      = false) by (vm_compute; reflexivity).
    assert (Hcount :
      pair_admitted_within "a" "b:c" 10 1
        (fst (serve shared_window
                (init (mkSecurityConfig 1) (mkPerformanceConfig 3 1))))
      = 0%nat) by (vm_compute; reflexivity).
    cbn [rq_operation rq_identifier rq_time api_rate_limit].
    rewrite Hcount. intros [Hreject _]. specialize (Hreject Hanswer). lia.
  - assert (Hanswer :
      fst (check (mkRequest "business_workflow" "wf-1" 11)
             (snd (serve clock_set_back
                     (init (mkSecurityConfig 2) (mkPerformanceConfig 3 1)))))
      = true) by (vm_compute; reflexivity).
    assert (Hcount :
      pair_admitted_within "business_workflow" "wf-1" 11 2
        (fst (serve clock_set_back
                (init (mkSecurityConfig 2) (mkPerformanceConfig 3 1))))
      = 2%nat) by (vm_compute; reflexivity).
    cbn [rq_operation rq_identifier rq_time api_rate_limit].
    rewrite Hcount, Hanswer. intros [_ Hreject]. by discriminate Hreject.
Qed.

(** C4 (amended): the rate-limit check on a fresh integrator that has
    served the serial requests [reqs], when the clock readings never
    decrease and no operation name holds a colon.  The request [r] of a
    pair (operation, identifier) is rejected exactly when the requests of
    that pair admitted before it, with timestamps within the last
    [api_rate_limit] seconds, number at least [api_rate_limit].  A
    rejected request is not recorded: the limiter keeps for the pair the
    timestamps of the window only; an admitted request is recorded after
    them.  What is recorded for other pairs is untouched. *)
Theorem C4_rate_limit (sc : SecurityConfig) (pc : PerformanceConfig)
    (reqs : list request) (r : request) :
  monotone (reqs ++ [r]) = true ->
  Forall (fun x => colon_free x = true) (reqs ++ [r]) ->
  let limit := api_rate_limit sc in
  let it1 := snd (serve reqs (init sc pc)) in
  let answer := fst (check r it1) in
  let it2 := snd (check r it1) in
  let window :=
    List.filter (within_last (rq_time r) limit)
                (recorded (rq_operation r) (rq_identifier r) it1) in
  rate_limit_claim sc pc reqs r /\
  (answer = false ->
   recorded (rq_operation r) (rq_identifier r) it2 = window) /\
  (answer = true ->
   recorded (rq_operation r) (rq_identifier r) it2 = window ++ [rq_time r]) /\
  (forall operation identifier,
     Text.occurs ":"%char operation = false ->
     (operation, identifier) <> (rq_operation r, rq_identifier r) ->
     recorded operation identifier it2 = recorded operation identifier it1).
Proof.
  intros Hmono Hcolon limit it1 answer it2 window.
  apply monotone_snoc in Hmono as [Hmono Hle].
  apply Forall_app in Hcolon as [Hcolon Hr].
  apply Forall_cons in Hr as [Hr _].
  assert (Hop : Text.occurs ":"%char (rq_operation r) = false).
  { unfold colon_free in Hr. by apply negb_true_iff in Hr. }
  assert (Hcfg : security_config it1 = sc).
  { unfold it1. by rewrite serve_config. }
  assert (Hbound : forall key,
            Forall (fun timestamp => timestamp <= rq_time r) (stored key it1)).
  { apply serve_stored_bounded; [exact Hle |].
    intros key. rewrite init_stored. constructor. }
  assert (Hstored : recorded (rq_operation r) (rq_identifier r) it2
                    = window ++ (if answer then [rq_time r] else [])).
  { unfold recorded, window, it2, answer. fold (rq_key r).
    rewrite check_stored_same, Hcfg. fold limit.
    by rewrite recent_within_last by apply Hbound. }
  split; [|split; [|split]].
  - unfold rate_limit_claim. cbn zeta. fold limit it1.
    rewrite check_rejects, Hcfg. fold limit.
    rewrite pair_admitted_within_key; [|exact Hop|].
    + pose proof (serve_window reqs (init sc pc) (rq_key r) (rq_time r)
                    eq_refl Hmono Hle) as Hwin.
      change (api_rate_limit (security_config (init sc pc))) with limit in Hwin.
      fold it1 in Hwin. unfold admitted_within. fold (rq_key r).
      by rewrite Hwin.
    + apply Forall_fmap with (f := fst)
        (P := fun x => colon_free x = true /\ rq_time x <= rq_time r).
      rewrite serve_requests. apply Forall_and. split; [exact Hcolon | exact Hle].
  - intros Hanswer. rewrite Hstored, Hanswer. apply app_nil_r.
  - intros Hanswer. by rewrite Hstored, Hanswer.
  - intros operation identifier Hother Hne. unfold recorded, stored, it2.
    rewrite check_lookup_other; [reflexivity |].
    unfold rq_key. intros Hkey.
    apply rate_key_inj in Hkey as [-> ->]; [by apply Hne | exact Hother | exact Hop].
Qed.

(** The theorem at the third request of [burst]. *)
Lemma C4_rate_limit_witness :
  let sc := mkSecurityConfig 2 in
  let pc := mkPerformanceConfig 3 1 in
  let r := mkRequest "business_workflow" "wf-1" 11 in
  monotone (take 2 burst ++ [r]) = true /\
  Forall (fun x => colon_free x = true) (take 2 burst ++ [r]) /\
  fst (check r (snd (serve (take 2 burst) (init sc pc)))) = false /\
  2 <= Z.of_nat (pair_admitted_within "business_workflow" "wf-1" 11 2
                   (fst (serve (take 2 burst) (init sc pc)))) /\
  recorded "business_workflow" "wf-1"
    (snd (check r (snd (serve (take 2 burst) (init sc pc))))) = [10; 10].
Proof.
  intros sc pc r.
  assert (Hcolon : Forall (fun x => colon_free x = true) (take 2 burst ++ [r])).
  { repeat constructor. }
  split; [reflexivity |]. split; [exact Hcolon |].
  destruct (C4_rate_limit sc pc (take 2 burst) r eq_refl Hcolon)
    as (Hclaim & Hrejected & _).
  assert (Hanswer : fst (check r (snd (serve (take 2 burst) (init sc pc)))) = false).
  { vm_compute. reflexivity. }
  split; [exact Hanswer |]. split.
  - apply Hclaim. exact Hanswer.
  - etrans; [exact (Hrejected Hanswer) | vm_compute; reflexivity].
Defined.

End RateLimitFacts.

(* ===================================================================== *)
(** ** Theorems: [safe_camel_case] *)
(* ===================================================================== *)

Module TextFacts.
Import Text.

Example camel_user_management : safe_camel_case "user_management" = "userManagement".
Proof. reflexivity. Qed.

Example camel_data_processing : safe_camel_case "data-processing" = "dataProcessing".
Proof. reflexivity. Qed.

Example camel_api_endpoint_handler :
  safe_camel_case "api_endpoint_handler" = "apiEndpointHandler".
Proof. reflexivity. Qed.

Example camel_mixed : safe_camel_case "  HTTP_server-URL handler_ " = "httpServerUrlHandler".
Proof. reflexivity. Qed.

(** Only separators: returned as it is, separators included. *)
Example camel_separators_only : safe_camel_case "_-_" = "_-_".
Proof. reflexivity. Qed.

Lemma smap_smap f g s : smap g (smap f s) = smap (fun c => g (f c)) s.
Proof. induction s as [|c s IH]; simpl; [reflexivity | by rewrite IH]. Qed.

Lemma app_cons x (a b : string) : String x a +:+ b = String x (a +:+ b).
Proof. reflexivity. Qed.

Lemma app_assoc_string (a b c : string) : (a +:+ b) +:+ c = a +:+ (b +:+ c).
Proof. induction a as [|x a IH]; [reflexivity |]. by rewrite !app_cons, IH. Qed.

Lemma app_empty_r (a : string) : a +:+ "" = a.
Proof. induction a as [|x a IH]; [reflexivity |]. by rewrite app_cons, IH. Qed.

(** After the two replacements, a character is whitespace exactly when it
    was a delimiter, and a character that was none is unchanged. *)
Lemma replaced_space c :
  let c' := (if Ascii.eqb (if Ascii.eqb c underscore then space else c) hyphen
             then space
             else if Ascii.eqb c underscore then space else c) in
  is_space c' = is_delimiter c /\ (is_delimiter c = false -> c' = c).
Proof.
  unfold is_delimiter, is_separator. simpl.
  destruct (Ascii.eqb_spec c underscore) as [->|Hu]; [split; [reflexivity | discriminate] |].
  destruct (Ascii.eqb_spec c hyphen) as [->|Hh]; [split; [reflexivity | discriminate] |].
  simpl. split; [reflexivity | reflexivity].
Qed.

(** The code's tokenisation (two replacements, then [split]) yields the
    words of the text. *)
Lemma split_words_from cur s :
  split_from cur (replace hyphen space (replace underscore space s))
  = words_from cur s.
Proof.
  unfold replace. rewrite smap_smap. revert cur.
  induction s as [|c s IH]; intros cur; [reflexivity |].
  simpl smap. cbn [split_from words_from].
  destruct (replaced_space c) as [Hsp Hid]. simpl in Hsp, Hid.
  rewrite Hsp. destruct (is_delimiter c) eqn:Hd.
  - destruct cur; by rewrite IH.
  - rewrite Hid by reflexivity. apply IH.
Qed.

Lemma split_words s :
  split (replace hyphen space (replace underscore space s)) = words s.
Proof. apply split_words_from. Qed.

Lemma sall_app p a b : sall p (a +:+ b) = sall p a && sall p b.
Proof.
  induction a as [|x a IH]; [reflexivity |].
  rewrite app_cons. simpl. by rewrite IH, andb_assoc.
Qed.

Lemma snoc_nonempty (a : string) c : a +:+ String c "" <> "".
Proof. destruct a; discriminate. Qed.

(** Every word is a non-empty run without delimiters. *)
Lemma words_from_spec cur s :
  no_delimiter cur = true ->
  Forall (fun w => w <> "" /\ no_delimiter w = true) (words_from cur s).
Proof.
  revert cur. induction s as [|c s IH]; intros cur Hcur; simpl.
  - destruct cur; [constructor |]. constructor; [|constructor]. split; [discriminate | exact Hcur].
  - destruct (is_delimiter c) eqn:Hd.
    + destruct cur; [by apply IH |].
      constructor; [split; [discriminate | exact Hcur] | by apply IH].
    + apply IH. unfold no_delimiter in *. rewrite sall_app, Hcur. simpl.
      by rewrite Hd.
Qed.

Lemma words_from_nil cur s :
  words_from cur s = [] <-> cur = "" /\ sall is_delimiter s = true.
Proof.
  revert cur. induction s as [|c s IH]; intros cur; simpl.
  - destruct cur; split; try done. intros [? _]; discriminate.
  - destruct (is_delimiter c); simpl.
    + destruct cur; [apply IH |]. split; [discriminate | intros [? _]; discriminate].
    + rewrite IH. split; [intros [H _]; by apply snoc_nonempty in H | intros [_ ?]; discriminate].
Qed.

Lemma words_nil s : words s = [] <-> sall is_delimiter s = true.
Proof. unfold words. rewrite words_from_nil. tauto. Qed.

Lemma foldl_camel (acc : string) (ws : list string) :
  foldl (fun camel_case word => camel_case +:+ capitalize word) acc ws
  = acc +:+ sconcat (capitalize <$> ws).
Proof.
  revert acc. induction ws as [|w ws IH]; intros acc; simpl.
  - by rewrite app_empty_r.
  - by rewrite IH, app_assoc_string.
Qed.

Lemma occurs_app c a b : occurs c (a +:+ b) = occurs c a || occurs c b.
Proof.
  induction a as [|x a IH]; [reflexivity |].
  rewrite app_cons. simpl. by rewrite IH, orb_assoc.
Qed.

(** Case conversion never produces a separator from a character that is
    none. *)
Lemma lower_char_separator c :
  is_separator c = false -> is_separator (lower_char c) = false.
Proof.
  destruct c as [[|] [|] [|] [|] [|] [|] [|] [|]]; vm_compute; auto.
Qed.

Lemma upper_char_separator c :
  is_separator c = false -> is_separator (upper_char c) = false.
Proof.
  destruct c as [[|] [|] [|] [|] [|] [|] [|] [|]]; vm_compute; auto.
Qed.

Lemma not_delimiter_not_separator c :
  negb (is_delimiter c) = true -> is_separator c = false.
Proof. unfold is_delimiter. destruct (is_separator c); [discriminate | reflexivity]. Qed.

Lemma occurs_separator_false s :
  sall (fun c => negb (is_separator c)) s = true ->
  occurs underscore s = false /\ occurs hyphen s = false.
Proof.
  induction s as [|c s IH]; simpl; [auto |].
  rewrite andb_true_iff. intros [Hc Hs]. destruct (IH Hs) as [-> ->].
  unfold is_separator in Hc. apply negb_true_iff, orb_false_iff in Hc as [-> ->].
  auto.
Qed.

Lemma lower_no_separator w :
  no_delimiter w = true ->
  sall (fun c => negb (is_separator c)) (lower w) = true.
Proof.
  unfold no_delimiter, lower. induction w as [|c w IH]; simpl; [reflexivity |].
  rewrite andb_true_iff. intros [Hc Hw]. rewrite (IH Hw), andb_true_r.
  apply negb_true_iff, lower_char_separator.
  by apply not_delimiter_not_separator.
Qed.

Lemma capitalize_no_separator w :
  no_delimiter w = true ->
  sall (fun c => negb (is_separator c)) (capitalize w) = true.
Proof.
  destruct w as [|c w]; [reflexivity |]. intros Hw.
  unfold no_delimiter in Hw. simpl in Hw. apply andb_true_iff in Hw as [Hc Hw].
  simpl. apply andb_true_iff. split.
  - apply negb_true_iff, upper_char_separator.
    by apply not_delimiter_not_separator.
  - by apply lower_no_separator.
Qed.

Lemma sconcat_no_separator ws :
  Forall (fun w => w <> "" /\ no_delimiter w = true) ws ->
  sall (fun c => negb (is_separator c)) (sconcat (capitalize <$> ws)) = true.
Proof.
  induction 1 as [|w ws [_ Hw] _ IH]; [reflexivity |].
  rewrite fmap_cons. cbn [sconcat].
  rewrite sall_app, capitalize_no_separator by exact Hw. exact IH.
Qed.

(** C10: [safe_camel_case] on ASCII text.
    - A text that is empty or made of separators and whitespace only is
      returned unchanged (separators included).
    - Otherwise the text has words (maximal runs of characters that are
      neither separators nor whitespace, each non-empty), and the result is
      the first word lower-cased followed by every later word capitalized;
      it contains neither ['_'] nor ['-']. *)
Theorem C10_safe_camel_case (text : string) :
  sall ascii7 text = true ->
  (sall is_delimiter text = true -> safe_camel_case text = text) /\
  (sall is_delimiter text = false ->
   exists (first : string) (others : list string),
     words text = first :: others /\
     Forall (fun w => w <> "" /\ no_delimiter w = true) (first :: others) /\
     safe_camel_case text = lower first +:+ sconcat (capitalize <$> others) /\
     occurs underscore (safe_camel_case text) = false /\
     occurs hyphen (safe_camel_case text) = false).
Proof.
  intros _. split.
  - intros Hall. destruct text as [|c text]; [reflexivity |].
    unfold safe_camel_case. rewrite split_words.
    apply words_nil in Hall. by rewrite Hall.
  - intros Hsome.
    destruct (words text) as [|first others] eqn:Hwords.
    { apply words_nil in Hwords. congruence. }
    exists first, others. split; [reflexivity |].
    assert (Hspec : Forall (fun w => w <> "" /\ no_delimiter w = true)
                      (first :: others)).
    { rewrite <- Hwords. by apply words_from_spec. }
    split; [exact Hspec |].
    assert (Hout : safe_camel_case text
                   = lower first +:+ sconcat (capitalize <$> others)).
    { destruct text as [|c text]; [discriminate |].
      unfold safe_camel_case. rewrite split_words, Hwords. apply foldl_camel. }
    split; [exact Hout |]. rewrite Hout.
    apply occurs_separator_false. rewrite sall_app.
    apply Forall_cons in Hspec as [[_ Hfirst] Hothers].
    by rewrite lower_no_separator, sconcat_no_separator.
Qed.

(** The theorem at a text with three words. *)
Lemma C10_safe_camel_case_witness :
  sall ascii7 "api_endpoint-handler" = true /\
  safe_camel_case "api_endpoint-handler" = "apiEndpointHandler" /\
  occurs underscore (safe_camel_case "api_endpoint-handler") = false.
Proof.
  split; [reflexivity |].
  destruct (C10_safe_camel_case "api_endpoint-handler" eq_refl) as [_ Hwords].
  destruct (Hwords eq_refl) as (first & others & Hw & _ & Hout & Hu & _).
  split; [|exact Hu].
  rewrite Hout. vm_compute in Hw. injection Hw as <- <-. reflexivity.
Defined.

End TextFacts.

(* ===================================================================== *)
(** ** Theorems: workflow engine *)
(* ===================================================================== *)

Module EngineFacts.
Import AgentRegistry Engine Scenarios.

(** *** Task templates *)

(** C6, as stated, fails for [content_creation]: it has no chain of its
    own and gets the single generic task. *)
Lemma C6_content_creation_single_task :
  ~ multi_task_chain
      (_create_workflow_tasks (new_workflow "wf-2" "content_creation" ∅ NORMAL 0)).
Proof. unfold multi_task_chain. vm_compute. lia. Qed.

Example research_processing_single_task :
  task_type <$> _create_workflow_tasks
                  (new_workflow "wf-3" "research_processing" ∅ HIGH 0)
  = ["execute_workflow"].
Proof. reflexivity. Qed.

Example automation_single_task :
  task_type <$> _create_workflow_tasks (new_workflow "wf-4" "automation" ∅ LOW 0)
  = ["execute_workflow"].
Proof. reflexivity. Qed.

(** C6 (amended): [site_recreation] yields its four tasks in order,
    [business_analysis] its three tasks in order, and every other workflow
    type, [content_creation], [research_processing] and [automation]
    included, yields the single task [execute_workflow] carrying the
    workflow payload.  Every task has the priority of the workflow. *)
Theorem C6_task_templates (workflow : Workflow) :
  (workflow_type workflow = "site_recreation" ->
   _create_workflow_tasks workflow
   = [ mkTask "analyze_site"
         {[ "url" := dict_get "url" (payload workflow) ]} (priority workflow);
       mkTask "design_interface"
         {[ "requirements" := dict_get "requirements" (payload workflow) ]}
         (priority workflow);
       mkTask "generate_code" {[ "design" := VStr "from_previous_task" ]}
         (priority workflow);
       mkTask "test_quality" {[ "code" := VStr "from_previous_task" ]}
         (priority workflow) ]) /\
  (workflow_type workflow = "business_analysis" ->
   _create_workflow_tasks workflow
   = [ mkTask "analyze_portfolio"
         {[ "businesses" := dict_get "businesses" (payload workflow) ]}
         (priority workflow);
       mkTask "financial_analysis" {[ "data" := VStr "from_previous_task" ]}
         (priority workflow);
       mkTask "generate_report" {[ "analysis" := VStr "from_previous_task" ]}
         (priority workflow) ]) /\
  (workflow_type workflow <> "site_recreation" ->
   workflow_type workflow <> "business_analysis" ->
   _create_workflow_tasks workflow
   = [ mkTask "execute_workflow" (payload workflow) (priority workflow) ]) /\
  (workflow_type workflow ∈ ["content_creation"; "research_processing"; "automation"] ->
   _create_workflow_tasks workflow
   = [ mkTask "execute_workflow" (payload workflow) (priority workflow) ]).
Proof.
  assert (Hother : workflow_type workflow <> "site_recreation" ->
                   workflow_type workflow <> "business_analysis" ->
                   _create_workflow_tasks workflow
                   = [ mkTask "execute_workflow" (payload workflow) (priority workflow) ]).
  { intros H1 H2. unfold _create_workflow_tasks.
    destruct (String.eqb_spec (workflow_type workflow) "site_recreation"); [done |].
    destruct (String.eqb_spec (workflow_type workflow) "business_analysis"); done. }
  repeat split.
  - intros H. unfold _create_workflow_tasks. by rewrite H.
  - intros H. unfold _create_workflow_tasks. by rewrite H.
  - exact Hother.
  - intros Hin. apply Hother; intros Heq; rewrite Heq in Hin;
      repeat (apply elem_of_cons in Hin as [Hin|Hin]; [discriminate |]);
      inversion Hin.
Qed.

(** *** Statistics *)

Lemma count_status_partition (ws : list Workflow) :
  length ws
  = (count_status PENDING ws + count_status RUNNING ws
     + count_status COMPLETED ws + count_status FAILED ws
     + count_status CANCELLED ws)%nat.
Proof.
  unfold count_status. induction ws as [|w ws IH]; [reflexivity |].
  simpl. destruct (status w); simpl; lia.
Qed.

(** C9: in the record returned by [get_workflow_stats], [total_workflows]
    is the sum of the five per-status counts, whatever the workflow table
    holds. *)
Theorem C9_stats_total (eng : Engine.t) :
  total_workflows (get_workflow_stats eng)
  = (pending_workflows (get_workflow_stats eng)
     + running_workflows_count (get_workflow_stats eng)
     + completed_workflows (get_workflow_stats eng)
     + failed_workflows (get_workflow_stats eng)
     + cancelled_workflows (get_workflow_stats eng))%nat.
Proof.
  unfold get_workflow_stats. simpl.
  rewrite <- count_status_partition. unfold values.
  by rewrite length_fmap, length_map_to_list.
Qed.

Example stats_after_s1 :
  get_workflow_stats (play s1_history s1_engine) = mkStats 1 0 0 1 0 0.
Proof. vm_compute. reflexivity. Qed.

(** *** Cancellation *)

Lemma cancel_entry_idemp e :
  TaskQueue.cancel_entry (TaskQueue.cancel_entry e) = TaskQueue.cancel_entry e.
Proof.
  unfold TaskQueue.cancel_entry.
  destruct (TaskQueue.terminal (TaskQueue.status e)) eqn:Ht; [by rewrite Ht | reflexivity].
Qed.

Lemma cancel_entry_status e :
  TaskQueue.status (TaskQueue.cancel_entry e)
  = if TaskQueue.terminal (TaskQueue.status e)
    then TaskQueue.status e else TaskQueue.CANCELLED.
Proof.
  unfold TaskQueue.cancel_entry.
  by destruct (TaskQueue.terminal (TaskQueue.status e)).
Qed.

Lemma cancel_task_lookup task_id q key :
  TaskQueue.entries (snd (TaskQueue.cancel_task task_id q)) !! key
  = if decide (key = task_id)
    then TaskQueue.cancel_entry <$> TaskQueue.entries q !! key
    else TaskQueue.entries q !! key.
Proof.
  unfold TaskQueue.cancel_task, TaskQueue.cancel_entry.
  destruct (decide (key = task_id)) as [->|Hne].
  - destruct (TaskQueue.entries q !! task_id) as [e|] eqn:He; simpl; [|by rewrite He].
    destruct (TaskQueue.terminal (TaskQueue.status e)); simpl.
    + by rewrite He.
    + by rewrite lookup_insert_eq.
  - destruct (TaskQueue.entries q !! task_id) as [e|]; [|reflexivity].
    destruct (TaskQueue.terminal (TaskQueue.status e)); simpl; [reflexivity |].
    by rewrite lookup_insert_ne.
Qed.

Lemma cancel_all_lookup task_ids q key :
  TaskQueue.entries (TaskQueue.cancel_all task_ids q) !! key
  = if decide (key ∈ task_ids)
    then TaskQueue.cancel_entry <$> TaskQueue.entries q !! key
    else TaskQueue.entries q !! key.
Proof.
  induction task_ids as [|task_id task_ids IH] using rev_ind.
  - destruct (decide (key ∈ [])) as [Hin|_]; [inversion Hin | reflexivity].
  - unfold TaskQueue.cancel_all in *. rewrite foldl_app. cbn [foldl].
    rewrite cancel_task_lookup, IH.
    destruct (decide (key ∈ task_ids ++ [task_id])) as [Hin|Hnin];
      destruct (decide (key = task_id)) as [->|Hne];
      destruct (decide (_ ∈ task_ids)) as [Hin'|Hnin']; try reflexivity.
    + destruct (TaskQueue.entries q !! task_id); simpl; [|reflexivity].
      by rewrite cancel_entry_idemp.
    + exfalso. apply elem_of_app in Hin as [?|Heq%list_elem_of_singleton]; done.
    + exfalso. apply Hnin, elem_of_app. right. by apply list_elem_of_singleton.
    + exfalso. apply Hnin, elem_of_app. right. by apply list_elem_of_singleton.
    + exfalso. apply Hnin, elem_of_app. by left.
Qed.

(** C7: [cancel_workflow] on a workflow of the table.
    - In a terminal status it returns [False] and changes nothing.
    - Otherwise it returns [True]; the workflow becomes CANCELLED with
      [completed_at] set to the current clock reading, nothing else of it
      changing; [cancel_task] is issued for every id of [workflow.tasks] in
      turn, which leaves each such task CANCELLED unless it was terminal;
      and the execution task kept for the workflow is cancelled, no other
      execution task being touched. *)
Theorem C7_cancel_workflow (now : Z) (workflow_id : string) (eng : Engine.t)
    (workflow : Workflow) :
  workflows eng !! workflow_id = Some workflow ->
  (terminal (status workflow) = true ->
   cancel_workflow now workflow_id eng = (false, eng)) /\
  (terminal (status workflow) = false ->
   let eng' := snd (cancel_workflow now workflow_id eng) in
   fst (cancel_workflow now workflow_id eng) = true /\
   workflows eng'
   = <[workflow_id := set_completed_at (Some now) (set_status CANCELLED workflow)]>
       (workflows eng) /\
   task_queue eng' = TaskQueue.cancel_all (tasks workflow) (task_queue eng) /\
   (forall task_id e,
      task_id ∈ tasks workflow ->
      TaskQueue.entries (task_queue eng) !! task_id = Some e ->
      TaskQueue.status <$> TaskQueue.entries (task_queue eng') !! task_id
      = Some (if TaskQueue.terminal (TaskQueue.status e)
              then TaskQueue.status e else TaskQueue.CANCELLED)) /\
   (forall task,
      running_workflows eng !! workflow_id = Some task ->
      running_workflows eng' !! workflow_id = Some (mkExec (at_position task) true)) /\
   (forall other,
      other <> workflow_id ->
      running_workflows eng' !! other = running_workflows eng !! other)).
Proof.
  intros Hw. unfold cancel_workflow. rewrite Hw. split.
  - by intros ->.
  - intros ->. simpl. repeat split.
    + intros task_id e Hin He.
      change (foldl _ (task_queue eng) (tasks workflow))
        with (TaskQueue.cancel_all (tasks workflow) (task_queue eng)).
      rewrite cancel_all_lookup, decide_True by exact Hin.
      rewrite He. simpl. by rewrite cancel_entry_status.
    + intros task Ht. rewrite Ht. by rewrite lookup_insert_eq.
    + intros other Hne.
      destruct (running_workflows eng !! workflow_id); [|reflexivity].
      by rewrite lookup_insert_ne.
Qed.

(** The theorem at S1 cancelled while the monitor sleeps: the three tasks
    are cancelled with the workflow. *)
Lemma C7_cancel_workflow_witness :
  let eng := play s1_dispatch s1_engine in
  let eng' := snd (cancel_workflow 3 "wf-1" eng) in
  (exists workflow, workflows eng !! "wf-1" = Some workflow /\
                    terminal (status workflow) = false) /\
  fst (cancel_workflow 3 "wf-1" eng) = true /\
  status_of eng' <$> ["task-0"; "task-1"; "task-2"]
  = [Some TaskQueue.CANCELLED; Some TaskQueue.CANCELLED; Some TaskQueue.CANCELLED].
Proof.
  destruct (workflows (play s1_dispatch s1_engine) !! "wf-1") as [workflow|] eqn:Hw;
    [|vm_compute in Hw; discriminate].
  assert (Hrun : terminal (status workflow) = false).
  { vm_compute in Hw. injection Hw as <-. reflexivity. }
  split; [exists workflow; rewrite Hw; auto |].
  destruct (C7_cancel_workflow 3 "wf-1" (play s1_dispatch s1_engine) workflow Hw)
    as [_ Hcancel].
  destruct (Hcancel Hrun) as (Htrue & _). split; [exact Htrue |].
  vm_compute. reflexivity.
Defined.

(** *** Task dispatch *)

(** Every task is assigned, when it is enqueued, to the first of the
    assigned agents. *)
Lemma enqueue_and_assign_first workflow q tk agent others :
  assigned_agents workflow = agent :: others ->
  let task_id := TaskQueue.task_id_of (TaskQueue.issued q) in
  let st := enqueue_and_assign (workflow, q) tk in
  tasks (fst st) = tasks workflow ++ [task_id] /\
  assigned_agents (fst st) = agent :: others /\
  TaskQueue.entries (snd st) !! task_id
  = Some (TaskQueue.mkEntry tk TaskQueue.ASSIGNED (Some agent) VNone None).
Proof.
  intros Hagents. unfold enqueue_and_assign, TaskQueue.enqueue_task. simpl.
  rewrite Hagents. unfold TaskQueue.assign_agent. simpl.
  rewrite lookup_insert_eq. simpl. rewrite lookup_insert_eq. auto.
Qed.

(** C5 fails on the code: with the agents A1 and A2 selected for a
    business analysis, the three tasks are all assigned to A1, where
    round-robin gives the second one to A2. *)
Theorem C5_all_tasks_to_first_agent :
  let eng := play s1_dispatch two_agent_engine in
  assigned_agents <$> workflows eng !! "wf-1" = Some ["A1"; "A2"] /\
  tasks <$> workflows eng !! "wf-1" = Some ["task-0"; "task-1"; "task-2"] /\
  assigned_to eng <$> ["task-0"; "task-1"; "task-2"]
  = [Some "A1"; Some "A1"; Some "A1"] /\
  round_robin ["A1"; "A2"] <$> [0; 1; 2]%nat = [Some "A1"; Some "A2"; Some "A1"].
Proof. vm_compute. auto. Qed.

(** *** Result processing *)

Lemma process_results_no_tasks q workflow :
  tasks workflow = [] ->
  results (_process_results q workflow) = results workflow.
Proof. unfold _process_results. simpl. by intros ->. Qed.

Lemma finish_no_tasks now q workflow :
  tasks workflow = [] ->
  results (finish now q workflow) = results workflow /\
  tasks (finish now q workflow) = [] /\
  status (finish now q workflow) = COMPLETED.
Proof.
  intros Hnil. unfold finish, _complete_workflow. simpl.
  rewrite process_results_no_tasks by exact Hnil.
  unfold _process_results. simpl. by rewrite Hnil.
Qed.

(** Whenever the monitor lets the workflow complete, [workflow.tasks] has
    been emptied and the result processing that follows copies nothing. *)
Lemma monitor_finished_copies_nothing now q workflow workflow' :
  _monitor_task_execution now q workflow = (workflow', Finished) ->
  status workflow' = COMPLETED /\ tasks workflow' = [] /\
  results workflow' = results workflow.
Proof.
  unfold _monitor_task_execution.
  destruct (tasks workflow) as [|task_id rest] eqn:Htasks.
  - intros [= <-]. destruct (finish_no_tasks now q workflow Htasks) as (? & ? & ?). auto.
  - set (w1 := set_tasks _ workflow).
    destruct (tasks w1) eqn:Hw1; [|discriminate].
    intros [= <-]. destruct (finish_no_tasks now q w1 Hw1) as (? & ? & ?). auto.
Qed.

(** C1 fails on the code: in scenario S1 the workflow ends COMPLETED and
    its three tasks are COMPLETED with results in the queue, but
    [workflow.results] holds no task id: the monitor has removed every id
    from [workflow.tasks] before the result processing reads that list. *)
Theorem C1_s1_results_empty :
  let eng := play s1_history s1_engine in
  status <$> workflows eng !! "wf-1" = Some COMPLETED /\
  status_of eng <$> ["task-0"; "task-1"; "task-2"]
  = [Some TaskQueue.COMPLETED; Some TaskQueue.COMPLETED; Some TaskQueue.COMPLETED] /\
  assigned_to eng <$> ["task-0"; "task-1"; "task-2"]
  = [Some "A1"; Some "A1"; Some "A1"] /\
  tasks <$> workflows eng !! "wf-1" = Some [] /\
  results <$> workflows eng !! "wf-1" = Some ∅.
Proof. vm_compute. auto. Qed.

(** *** Terminal states *)

(** C8 fails on the code: a workflow cancelled while its execution task is
    suspended is CANCELLED with [completed_at = 5] when [cancel_workflow]
    returns; the execution task then handles its [CancelledError] and
    assigns [completed_at] again, at 6. *)
Theorem C8_completed_at_assigned_twice :
  let cancelled := play cancel_in_flight s1_engine in
  let later := play cancel_then_resume s1_engine in
  status <$> workflows cancelled !! "wf-1" = Some CANCELLED /\
  completed_at <$> workflows cancelled !! "wf-1" = Some (Some 5) /\
  status <$> workflows later !! "wf-1" = Some CANCELLED /\
  completed_at <$> workflows later !! "wf-1" = Some (Some 6).
Proof. vm_compute. auto. Qed.

(** The same in general: the handler of [CancelledError] overwrites
    [status] and [completed_at] whatever they were. *)
Lemma on_cancelled_overwrites now workflow eng :
  workflows (on_cancelled now workflow eng) !! id workflow
  = Some (set_completed_at (Some now) (set_status CANCELLED workflow)).
Proof. unfold on_cancelled, leave. simpl. by rewrite lookup_insert_eq. Qed.

(** A workflow routed to an external flow that fails is set FAILED by
    [_execute_n8n_workflow] and COMPLETED right after by
    [_complete_workflow]; its error message stays. *)
Example failed_then_completed :
  let eng := Engine.run route_to_flow no_n8n_adapter s2_history s1_engine in
  status <$> workflows eng !! "wf-5" = Some COMPLETED /\
  error <$> workflows eng !! "wf-5" = Some (Some "N8N adapter not available").
Proof. vm_compute. auto. Qed.

End EngineFacts.

(* ===================================================================== *)
(** ** Theorems: input sanitising *)
(* ===================================================================== *)

Module SecurityFacts.
Import Text Security.

Example sanitize_script_tag :
  sanitize_input "  <b onclick='x'>  " 1000 = "&lt;b onclick=&#x27;x&#x27;&gt;".
Proof. reflexivity. Qed.

(** The slice is taken before the escapes are written. *)
Example sanitize_longer_than_max : sanitize_input "<<<<" 2 = "&lt;&lt;".
Proof. reflexivity. Qed.

Example sanitize_negative_max : sanitize_input "abcd" (-1) = "abc".
Proof. reflexivity. Qed.

Lemma occurs_append c (a b : string) :
  occurs c (a +:+ b) = occurs c a || occurs c b.
Proof.
  induction a as [|x a IH]; [reflexivity |].
  change (String x a +:+ b) with (String x (a +:+ b)). simpl.
  by rewrite IH, orb_assoc.
Qed.

(** Replacing [x] by a text without [x] leaves no [x]. *)
Lemma replace_with_removes x new s :
  occurs x new = false -> occurs x (replace_with x new s) = false.
Proof.
  intros Hnew. induction s as [|c s IH]; [reflexivity |]. simpl.
  destruct (Ascii.eqb_spec c x) as [->|Hne].
  - by rewrite occurs_append, Hnew, IH.
  - simpl. rewrite IH, orb_false_r. by apply Ascii.eqb_neq.
Qed.

(** Replacing another character by a text without [x] brings no [x] in. *)
Lemma replace_with_keeps_out x old new s :
  occurs x new = false -> occurs x s = false ->
  occurs x (replace_with old new s) = false.
Proof.
  intros Hnew. induction s as [|c s IH]; [reflexivity |]. simpl.
  intros [Hc Hs]%orb_false_iff. destruct (Ascii.eqb c old).
  - by rewrite occurs_append, Hnew, IH.
  - simpl. by rewrite Hc, IH.
Qed.

Lemma not_dangerous_occurs s :
  occurs lt_sign s = false -> occurs gt_sign s = false ->
  occurs double_quote s = false -> occurs single_quote s = false ->
  sall (fun c => negb (dangerous c)) s = true.
Proof.
  induction s as [|c s IH]; [reflexivity |]. simpl.
  intros [H1 T1]%orb_false_iff [H2 T2]%orb_false_iff
         [H3 T3]%orb_false_iff [H4 T4]%orb_false_iff.
  rewrite IH by assumption. unfold dangerous. by rewrite H1, H2, H3, H4.
Qed.

Lemma sanitize_input_escapes_all_aux (input_data : string) (max_length : Z) :
  sall (fun c => negb (dangerous c)) (sanitize_input input_data max_length) = true.
Proof.
  unfold sanitize_input. set (s := slice_to max_length (strip input_data)).
  apply not_dangerous_occurs.
  - do 3 (apply replace_with_keeps_out; [reflexivity |]).
    by apply replace_with_removes.
  - do 2 (apply replace_with_keeps_out; [reflexivity |]).
    by apply replace_with_removes.
  - apply replace_with_keeps_out; [reflexivity |].
    by apply replace_with_removes.
  - by apply replace_with_removes.
Qed.

(** X13: whatever the input and the length limit, the text returned by
    [sanitize_input] holds none of the characters [<], [>], double quote
    and single quote. *)
Theorem sanitize_input_escapes_all (input_data : string) (max_length : Z) :
  sall (fun c => negb (dangerous c)) (sanitize_input input_data max_length) = true.
Proof. apply sanitize_input_escapes_all_aux. Qed.

(** Induction over values, members of lists and dicts included. *)
Section value_induction.
Variable P : value -> Prop.
Hypothesis HNone : P VNone.
Hypothesis HBool : forall b, P (VBool b).
Hypothesis HInt : forall z, P (VInt z).
Hypothesis HStr : forall s, P (VStr s).
Hypothesis HList : forall items, List.Forall P items -> P (VList items).
Hypothesis HDict :
  forall items, List.Forall (fun kv => P (snd kv)) items -> P (VDict items).

Fixpoint value_induction (v : value) : P v :=
  match v with
  | VNone => HNone
  | VBool b => HBool b
  | VInt z => HInt z
  | VStr s => HStr s
  | VList items =>
      HList items
        ((fix members (l : list value) : List.Forall P l :=
            match l with
            | [] => @List.Forall_nil _ P
            | x :: rest =>
                @List.Forall_cons _ P x rest (value_induction x) (members rest)
            end) items)
  | VDict items =>
      HDict items
        ((fix members (l : list (string * value))
            : List.Forall (fun kv => P (snd kv)) l :=
            match l with
            | [] => @List.Forall_nil _ (fun kv => P (snd kv))
            | (k, x) :: rest =>
                @List.Forall_cons _ (fun kv => P (snd kv)) (k, x) rest
                  (value_induction x) (members rest)
            end) items)
  end.

End value_induction.

Example validate_nested :
  _validate_input
    (VDict [("name", VStr " <etl> "); ("steps", VList [VStr "a'b"; VInt 3]);
            ("<key>", VNone)])
  = VDict [("name", VStr "&lt;etl&gt;");
           ("steps", VList [VStr "a&#x27;b"; VInt 3]); ("<key>", VNone)].
Proof. reflexivity. Qed.

(** X14: [_validate_input] rebuilds a value of the same shape (same
    nesting, same dict keys in the same order, same list lengths, same
    non-string leaves) in which no string value holds a character that
    [sanitize_input] escapes.  Dict keys are not sanitised. *)
Theorem validate_input_clean_same_shape (input_data : value) :
  clean (_validate_input input_data) = true /\
  shape (_validate_input input_data) = shape input_data.
Proof.
  induction input_data using value_induction; try (split; reflexivity).
  - split; [apply sanitize_input_escapes_all_aux | reflexivity].
  - simpl. induction H as [|x items [Hc Hs] _ [IHc IHs]]; [split; reflexivity |].
    simpl. rewrite Hc, Hs. split; [exact IHc |].
    injection IHs as IHs. by rewrite IHs.
  - simpl. induction H as [|[k x] items [Hc Hs] _ [IHc IHs]]; [split; reflexivity |].
    simpl in *. rewrite Hc, Hs. split; [exact IHc |].
    injection IHs as IHs. by rewrite IHs.
Qed.

End SecurityFacts.

(* ===================================================================== *)
(** ** Theorems: more on the circuit breaker and the retry wrapper *)
(* ===================================================================== *)

Module ReliabilityFacts.
Import CircuitBreaker Integrator.

(** X1: on every breaker state that [__init__] and the three methods can
    produce, [can_execute] answers without raising ([last_failure_time] is
    set whenever the breaker is OPEN), and a rejection leaves the breaker as
    it was, OPEN. *)
Theorem can_execute_never_raises (threshold timeout : Z) (cb : CircuitBreaker.t)
    (now : Z) :
  reachable threshold timeout cb ->
  exists (answer : bool) (cb' : CircuitBreaker.t),
    can_execute now cb = Some (answer, cb') /\
    (answer = false -> cb' = cb /\ state cb = OPEN).
Proof.
  intros Hreach. pose proof (CircuitBreakerFacts.reachable_wf _ _ _ Hreach) as [_ Hs].
  unfold can_execute. destruct (state cb) eqn:Hst.
  - exists true, cb. split; [reflexivity | discriminate].
  - destruct Hs as [_ [lf Hlf]]; [congruence |]. rewrite Hlf.
    destruct (recovery_timeout cb <=? now - lf).
    + eexists true, _. split; [reflexivity | discriminate].
    + exists false, cb. auto.
  - exists true, cb. split; [reflexivity | discriminate].
Qed.

Lemma can_execute_never_raises_witness :
  let cb := record_failure 7 (record_failure 3 (CircuitBreaker.init 2 60)) in
  reachable 2 60 cb /\
  exists (answer : bool) (cb' : CircuitBreaker.t),
    can_execute 10 cb = Some (answer, cb') /\
    (answer = false -> cb' = cb /\ state cb = OPEN).
Proof.
  assert (Hreach : reachable 2 60
                     (record_failure 7 (record_failure 3 (CircuitBreaker.init 2 60)))).
  { apply reach_failure, reach_failure, reach_init. }
  split; [exact Hreach |].
  exact (can_execute_never_raises 2 60 _ 10 Hreach).
Defined.

(** X2: failures are counted since the last success.  After a
    [record_success], the breaker is OPEN after [n] consecutive failures
    exactly when [n] reaches [failure_threshold], whatever happened before
    the success. *)
Theorem opens_at_threshold_after_success (cb : CircuitBreaker.t) (nows : list Z) :
  1 <= failure_threshold cb ->
  (state (record_failures nows (record_success cb)) = OPEN <->
   failure_threshold cb <= Z.of_nat (length nows)) /\
  (state (record_failures nows (record_success cb)) = CLOSED <->
   Z.of_nat (length nows) < failure_threshold cb).
Proof.
  intros Hth.
  destruct (Z.le_gt_cases (failure_threshold cb) (Z.of_nat (length nows))) as [Hle|Hgt].
  - assert (Hopen : state (record_failures nows (record_success cb)) = OPEN).
    { apply CircuitBreakerFacts.record_failures_open; simpl; [|lia].
      destruct nows; [simpl in Hle; lia | discriminate]. }
    rewrite Hopen. split; split; try done; lia.
  - assert (Hclosed : state (record_failures nows (record_success cb)) = CLOSED).
    { apply CircuitBreakerFacts.record_failures_closed; simpl; [reflexivity | lia]. }
    rewrite Hclosed. split; split; try done; lia.
Qed.

Lemma opens_at_threshold_after_success_witness :
  let cb := record_failures [0; 1; 2; 3; 4; 5; 6] CircuitBreaker.default in
  1 <= failure_threshold cb /\
  state (record_failures [10; 11; 12; 13] (record_success cb)) = CLOSED /\
  state (record_failures [10; 11; 12; 13; 14] (record_success cb)) = OPEN.
Proof.
  split; [simpl; lia |].
  pose proof (opens_at_threshold_after_success
                (record_failures [0; 1; 2; 3; 4; 5; 6] CircuitBreaker.default)) as H.
  split.
  - apply (H [10; 11; 12; 13]); simpl; lia.
  - apply (H [10; 11; 12; 13; 14]); simpl; lia.
Defined.

Section retry_effects.
Context {R E : Type}.
Variable func : nat -> attempt_result R E.

(** The loop when iteration [attempt + j] is the first to succeed. *)
Lemma retry_loop_success_effects j :
  forall remaining attempt now it tr value,
    (forall i, (attempt <= i < attempt + j)%nat -> failed (func i) = true) ->
    result (func (attempt + j)%nat) = Success value ->
    (j < remaining)%nat ->
    Z.of_nat (attempt + remaining) = retry_attempts (performance_config it) ->
    let r := retry_loop func remaining attempt now it tr in
    final r = Returned value /\
    state (circuit_breaker (after r)) = CLOSED /\
    failure_count (circuit_breaker (after r)) = 0 /\
    request_count (performance_monitor (after r))
    = request_count (performance_monitor it) + Z.of_nat j + 1 /\
    error_count (performance_monitor (after r))
    = error_count (performance_monitor it) + Z.of_nat j /\
    rate_limiter (after r) = rate_limiter it.
Proof.
  induction j as [|j IH]; intros remaining attempt now it tr value Hfail Hsucc Hj Hn.
  - destruct remaining as [|remaining]; [lia |].
    rewrite Nat.add_0_r in Hsucc. simpl. rewrite Hsucc. simpl.
    repeat split; lia.
  - destruct remaining as [|remaining]; [lia |].
    assert (Hf : failed (func attempt) = true) by (apply Hfail; lia).
    simpl. unfold failed in Hf.
    destruct (result (func attempt)) as [v|exn]; [discriminate |].
    destruct (Z.eqb_spec (Z.of_nat attempt)
                (retry_attempts (performance_config it) - 1)) as [Hlast|_]; [lia |].
    set (it' := set_circuit_breaker _ _).
    edestruct (IH remaining (S attempt)
                 (now + elapsed (func attempt)
                  + Z.max 0 (retry_delay (performance_config it) * 2 ^ Z.of_nat attempt))
                 it'
                 (tr ++ [Call attempt;
                         Sleep (retry_delay (performance_config it)
                                * 2 ^ Z.of_nat attempt)]) value)
      as (Hfin & Hst & Hcnt & Hreq & Herr & Hrl).
    + intros i Hi. apply Hfail. lia.
    + by replace (S attempt + j)%nat with (attempt + S j)%nat by lia.
    + lia.
    + subst it'. simpl. lia.
    + subst it'. simpl in *. repeat split; try assumption; lia.
Qed.

(** The loop when every remaining iteration fails. *)
Lemma retry_loop_failure_effects remaining :
  forall attempt now it tr,
    (0 < remaining)%nat ->
    Z.of_nat (attempt + remaining) = retry_attempts (performance_config it) ->
    (forall i, (attempt <= i < attempt + remaining)%nat -> failed (func i) = true) ->
    let r := retry_loop func remaining attempt now it tr in
    (exists exn, result (func (attempt + remaining - 1)%nat) = Failure exn /\
                 final r = Raised exn) /\
    trace r = tr ++ backoff_trace (retry_delay (performance_config it))
                      attempt (remaining - 1) /\
    failure_count (circuit_breaker (after r))
    = failure_count (circuit_breaker it) + Z.of_nat remaining /\
    state (circuit_breaker (after r))
    = (if failure_threshold (circuit_breaker it)
          <=? failure_count (circuit_breaker it) + Z.of_nat remaining
       then OPEN else state (circuit_breaker it)) /\
    request_count (performance_monitor (after r))
    = request_count (performance_monitor it) + Z.of_nat remaining /\
    error_count (performance_monitor (after r))
    = error_count (performance_monitor it) + Z.of_nat remaining.
Proof.
  induction remaining as [|remaining IH]; intros attempt now it tr Hpos Hn Hfail; [lia |].
  assert (Hf : failed (func attempt) = true) by (apply Hfail; lia).
  simpl. unfold failed in Hf.
  destruct (result (func attempt)) as [v|exn] eqn:Hres; [discriminate |].
  destruct (Z.eqb_spec (Z.of_nat attempt)
              (retry_attempts (performance_config it) - 1)) as [Hlast|Hmore].
  - assert (remaining = 0%nat) as -> by lia. simpl.
    replace (attempt + 1 - 1)%nat with attempt by lia.
    split; [eauto |]. split.
    { unfold backoff_trace. simpl. by rewrite Nat.add_0_r. }
    repeat split; lia.
  - assert (Hrem : (0 < remaining)%nat) by lia.
    set (it' := set_circuit_breaker _ _).
    destruct (IH (S attempt)
                (now + elapsed (func attempt)
                 + Z.max 0 (retry_delay (performance_config it) * 2 ^ Z.of_nat attempt))
                it'
                (tr ++ [Call attempt;
                        Sleep (retry_delay (performance_config it)
                               * 2 ^ Z.of_nat attempt)]) Hrem)
      as (Hexn & Htr & Hcnt & Hst & Hreq & Herr).
    + subst it'. simpl. lia.
    + intros i Hi. apply Hfail. lia.
    + subst it'. simpl in Htr, Hcnt, Hst, Hreq, Herr.
      replace (attempt + S remaining - 1)%nat
        with (S attempt + remaining - 1)%nat by lia.
      split; [exact Hexn |]. split.
      { assert (Hbt : backoff_trace (retry_delay (performance_config it)) attempt
                        (S remaining - 1)
                      = Call attempt
                        :: Sleep (retry_delay (performance_config it)
                                  * 2 ^ Z.of_nat attempt)
                        :: backoff_trace (retry_delay (performance_config it))
                             (S attempt) (remaining - 1)).
        { replace (S remaining - 1)%nat with (S (remaining - 1)) by lia.
          apply RetryFacts.backoff_trace_S. }
        etrans; [exact Htr |]. rewrite <- app_assoc. f_equal.
        symmetry. exact Hbt. }
      split; [lia |]. split; [|split; lia].
      rewrite Hst.
      destruct (Z.leb_spec (failure_threshold (circuit_breaker it))
                  (failure_count (circuit_breaker it) + 1));
        destruct (Z.leb_spec (failure_threshold (circuit_breaker it))
                    (failure_count (circuit_breaker it) + 1 + Z.of_nat remaining));
        destruct (Z.leb_spec (failure_threshold (circuit_breaker it))
                    (failure_count (circuit_breaker it) + Z.of_nat (S remaining)));
        try reflexivity; lia.
Qed.

(** X3: when the k-th try is the first to succeed, the wrapper leaves
    the breaker CLOSED with [failure_count = 0], however many tries failed
    before it; it has recorded k requests, k - 1 of them as errors, and has
    not touched the rate limiter. *)
Theorem retry_success_effects (now : Z) (it : t) (k : nat) (value : R) :
  admits now it = true ->
  (1 <= k <= Z.to_nat (retry_attempts (performance_config it)))%nat ->
  (forall i : nat, (i < k - 1)%nat -> failed (func i) = true) ->
  result (func (k - 1)%nat) = Success value ->
  let r := _execute_with_retry func now it in
  final r = Returned value /\
  state (circuit_breaker (after r)) = CLOSED /\
  failure_count (circuit_breaker (after r)) = 0 /\
  request_count (performance_monitor (after r))
  = request_count (performance_monitor it) + Z.of_nat k /\
  error_count (performance_monitor (after r))
  = error_count (performance_monitor it) + Z.of_nat k - 1 /\
  rate_limiter (after r) = rate_limiter it.
Proof.
  intros Hadm Hk Hbefore Hsucc r. subst r. unfold _execute_with_retry.
  unfold admits in Hadm.
  destruct (can_execute now (circuit_breaker it)) as [[[|] cb]|]; try discriminate.
  destruct (retry_loop_success_effects (k - 1)
              (Z.to_nat (retry_attempts (performance_config it))) 0 now
              (set_circuit_breaker cb it) [] value)
    as (Hfin & Hst & Hcnt & Hreq & Herr & Hrl).
  - intros i Hi. apply Hbefore. lia.
  - exact Hsucc.
  - lia.
  - simpl. lia.
  - simpl in *. repeat split; try assumption; lia.
Qed.

(** X4: when all [retry_attempts] tries fail on a breaker that was CLOSED,
    the exception of the last try is raised after a total sleep of
    [retry_delay * (2^(n-1) - 1)] (nothing is slept after the last
    failure); every try is recorded as a request and as an error, and
    [failure_count] has grown by n, which leaves the breaker OPEN exactly
    when it reaches [failure_threshold]. *)
Theorem retry_exhausted_effects (now : Z) (it : t) :
  state (circuit_breaker it) = CLOSED ->
  let n := Z.to_nat (retry_attempts (performance_config it)) in
  (1 <= n)%nat ->
  (forall i : nat, (i < n)%nat -> failed (func i) = true) ->
  let r := _execute_with_retry func now it in
  (exists exn, result (func (n - 1)%nat) = Failure exn /\ final r = Raised exn) /\
  total_sleep (trace r)
  = retry_delay (performance_config it) * (2 ^ Z.of_nat (n - 1) - 1) /\
  failure_count (circuit_breaker (after r))
  = failure_count (circuit_breaker it) + Z.of_nat n /\
  state (circuit_breaker (after r))
  = (if failure_threshold (circuit_breaker it)
        <=? failure_count (circuit_breaker it) + Z.of_nat n
     then OPEN else CLOSED) /\
  request_count (performance_monitor (after r))
  = request_count (performance_monitor it) + Z.of_nat n /\
  error_count (performance_monitor (after r))
  = error_count (performance_monitor it) + Z.of_nat n.
Proof.
  intros Hclosed n Hn Hall r. subst r. unfold _execute_with_retry, can_execute.
  rewrite Hclosed. fold n.
  assert (Hsame : set_circuit_breaker (circuit_breaker it) it = it)
    by (by destruct it).
  rewrite Hsame.
  destruct (retry_loop_failure_effects n 0 now it [])
    as (Hexn & Htr & Hcnt & Hst & Hreq & Herr).
  - lia.
  - simpl. subst n. lia.
  - intros i Hi. apply Hall. lia.
  - simpl in Hexn, Htr. rewrite Hclosed in Hst.
    split; [exact Hexn |]. split; [|auto].
    unfold total_sleep. rewrite Htr, RetryFacts.sleeps_backoff_trace.
    apply RetryFacts.backoff_sum_closed.
Qed.

(** X5: while the breaker is OPEN and the recovery timeout has not passed,
    the wrapper raises [CircuitBreakerOpenError] without calling the
    wrapped function, without sleeping, and without changing the
    integrator. *)
Theorem retry_rejected_when_open (now lf : Z) (it : t) :
  state (circuit_breaker it) = OPEN ->
  last_failure_time (circuit_breaker it) = Some lf ->
  now - lf < recovery_timeout (circuit_breaker it) ->
  _execute_with_retry func now it = mkRun CircuitBreakerOpenError [] now it.
Proof.
  intros Hopen Hlf Hearly. unfold _execute_with_retry, can_execute.
  rewrite Hopen, Hlf.
  destruct (Z.leb_spec (recovery_timeout (circuit_breaker it)) (now - lf)); [lia |].
  by destruct it.
Qed.

(** X6: with [retry_attempts <= 0] the wrapper never calls the wrapped
    function and raises nothing: it returns [None]. *)
Theorem retry_without_attempts (now : Z) (it : t) :
  admits now it = true ->
  retry_attempts (performance_config it) <= 0 ->
  final (_execute_with_retry func now it) = ReturnedNone /\
  trace (_execute_with_retry func now it) = [].
Proof.
  intros Hadm Hzero. unfold _execute_with_retry. unfold admits in Hadm.
  destruct (can_execute now (circuit_breaker it)) as [[[|] cb]|]; try discriminate.
  replace (Z.to_nat (retry_attempts (performance_config it))) with 0%nat by lia.
  split; reflexivity.
Qed.

End retry_effects.

Lemma retry_success_effects_witness :
  let r := _execute_with_retry flaky 0 default_integrator in
  admits 0 default_integrator = true /\
  state (circuit_breaker (after r)) = CLOSED /\
  request_count (performance_monitor (after r)) = 3 /\
  error_count (performance_monitor (after r)) = 2.
Proof.
  split; [reflexivity |].
  destruct (retry_success_effects flaky 0 default_integrator 3 "done" eq_refl)
    as (_ & Hst & _ & Hreq & Herr & _).
  - vm_compute. lia.
  - intros i Hi. destruct i as [|[|i]]; [reflexivity | reflexivity | simpl in Hi; lia].
  - reflexivity.
  - split; [exact Hst |]. split; [exact Hreq | exact Herr].
Defined.

(** Scenario S5 with five attempts: five failures in a row open the default
    breaker. *)
Lemma retry_exhausted_effects_witness :
  let it := Integrator.init (mkSecurityConfig 100) (mkPerformanceConfig 5 1) in
  let func := fun _ : nat => mkAttempt (Failure "down") 1
                             : attempt_result string string in
  let r := _execute_with_retry func 0 it in
  state (circuit_breaker it) = CLOSED /\
  final r = Raised "down" /\
  total_sleep (trace r) = 15 /\
  state (circuit_breaker (after r)) = OPEN.
Proof.
  split; [reflexivity |].
  destruct (retry_exhausted_effects
              (fun _ : nat => mkAttempt (Failure "down") 1
                              : attempt_result string string) 0
              (Integrator.init (mkSecurityConfig 100) (mkPerformanceConfig 5 1))
              eq_refl) as ((exn & Hexn & Hfin) & Hsleep & _ & Hst & _).
  - vm_compute. lia.
  - reflexivity.
  - simpl in Hexn. injection Hexn as <-.
    split; [exact Hfin |]. split; [exact Hsleep | exact Hst].
Defined.

Lemma retry_rejected_when_open_witness :
  let it := set_circuit_breaker
              (record_failures [0; 1; 2; 3; 4] CircuitBreaker.default)
              default_integrator in
  state (circuit_breaker it) = OPEN /\
  _execute_with_retry flaky 30 it = mkRun CircuitBreakerOpenError [] 30 it.
Proof.
  split; [reflexivity |].
  apply (retry_rejected_when_open flaky 30 4); [reflexivity | reflexivity | simpl; lia].
Defined.

Lemma retry_without_attempts_witness :
  let it := Integrator.init (mkSecurityConfig 100) (mkPerformanceConfig 0 1) in
  admits 0 it = true /\
  final (_execute_with_retry flaky 0 it) = ReturnedNone.
Proof.
  split; [reflexivity |].
  apply (retry_without_attempts flaky 0
           (Integrator.init (mkSecurityConfig 100) (mkPerformanceConfig 0 1)));
    [reflexivity | simpl; lia].
Defined.


End ReliabilityFacts.

(* ===================================================================== *)
(** ** Theorems: more on the rate limiter *)
(* ===================================================================== *)

Module RateLimitBounds.
Import Integrator.

Lemma recent_length now limit l : (length (recent now limit l) <= length l)%nat.
Proof. unfold recent. apply length_filter. Qed.

(** One check keeps every window within the limit. *)
Lemma check_keeps_bound r it :
  (forall key, Z.of_nat (length (stored key it)) <= api_rate_limit (security_config it)) ->
  forall key,
    Z.of_nat (length (stored key (snd (check r it))))
    <= api_rate_limit (security_config it).
Proof.
  intros Hinv key. destruct (decide (key = rq_key r)) as [->|Hne].
  - rewrite RateLimitFacts.check_stored_same, length_app.
    pose proof (recent_length (rq_time r) (api_rate_limit (security_config it))
                  (stored (rq_key r) it)) as Hlen.
    specialize (Hinv (rq_key r)).
    destruct (fst (check r it)) eqn:Hans; simpl; [|lia].
    destruct (Z.le_gt_cases (api_rate_limit (security_config it))
                (Z.of_nat (length (recent (rq_time r)
                   (api_rate_limit (security_config it)) (stored (rq_key r) it)))))
      as [Hfull|Hroom]; [|lia].
    apply RateLimitFacts.check_rejects in Hfull. congruence.
  - unfold stored. rewrite RateLimitFacts.check_lookup_other by exact Hne.
    apply Hinv.
Qed.

Lemma serve_keeps_bound reqs it :
  (forall key, Z.of_nat (length (stored key it)) <= api_rate_limit (security_config it)) ->
  forall key,
    Z.of_nat (length (stored key (snd (serve reqs it))))
    <= api_rate_limit (security_config it).
Proof.
  revert it. induction reqs as [|r reqs IH]; intros it Hinv key; [apply Hinv |].
  simpl. pose proof (check_keeps_bound r it Hinv) as Hstep.
  pose proof (RateLimitFacts.check_config r it) as Hcfg.
  destruct (check r it) as [b it1]. simpl in Hstep, Hcfg.
  specialize (IH it1). rewrite Hcfg in IH. specialize (IH Hstep key).
  by destruct (serve reqs it1).
Qed.

(** X7: with a non-negative [api_rate_limit], whatever requests a fresh
    integrator has served, in whatever order of clock readings, it keeps
    at most [api_rate_limit] timestamps under every key. *)
Theorem window_within_limit (sc : SecurityConfig) (pc : PerformanceConfig)
    (reqs : list request) (key : string) :
  0 <= api_rate_limit sc ->
  Z.of_nat (length (stored key (snd (serve reqs (init sc pc)))))
  <= api_rate_limit sc.
Proof.
  intros Hlimit. apply (serve_keeps_bound reqs (init sc pc)).
  intros k. unfold stored. simpl. rewrite lookup_empty. simpl. lia.
Qed.

Lemma window_within_limit_witness :
  0 <= api_rate_limit (mkSecurityConfig 2) /\
  Z.of_nat (length (stored "business_workflow:wf-1"
                      (snd (serve burst (init (mkSecurityConfig 2)
                                              (mkPerformanceConfig 3 1))))))
  <= 2.
Proof.
  split; [simpl; lia |].
  apply (window_within_limit (mkSecurityConfig 2) (mkPerformanceConfig 3 1) burst).
  simpl. lia.
Defined.

(** X8: with [api_rate_limit <= 0] every request is rejected, whatever the
    integrator has seen before. *)
Theorem nonpositive_limit_rejects_all (it : t) (reqs : list request) :
  api_rate_limit (security_config it) <= 0 ->
  Forall (fun answered => snd answered = false) (fst (serve reqs it)).
Proof.
  revert it. induction reqs as [|r reqs IH]; intros it Hlimit; [constructor |].
  simpl. pose proof (RateLimitFacts.check_config r it) as Hcfg.
  assert (Hrej : fst (check r it) = false).
  { apply RateLimitFacts.check_rejects. lia. }
  destruct (check r it) as [b it1]. simpl in Hcfg, Hrej. subst b.
  specialize (IH it1). rewrite Hcfg in IH. specialize (IH Hlimit).
  destruct (serve reqs it1). constructor; [reflexivity | exact IH].
Qed.

Lemma nonpositive_limit_rejects_all_witness :
  let it := init (mkSecurityConfig 0) (mkPerformanceConfig 3 1) in
  api_rate_limit (security_config it) <= 0 /\
  Forall (fun answered => snd answered = false) (fst (serve burst it)).
Proof.
  split; [simpl; lia |].
  apply (nonpositive_limit_rejects_all
           (init (mkSecurityConfig 0) (mkPerformanceConfig 3 1)) burst).
  simpl. lia.
Defined.

End RateLimitBounds.

(* ===================================================================== *)
(** ** Theorems: more on [safe_camel_case] *)
(* ===================================================================== *)

Module CamelCaseFacts.
Import Text TextExt.

Lemma lower_char_idem c : lower_char (lower_char c) = lower_char c.
Proof. destruct c as [[|] [|] [|] [|] [|] [|] [|] [|]]; reflexivity. Qed.

Lemma lower_upper_char c : lower_char (upper_char c) = lower_char c.
Proof. destruct c as [[|] [|] [|] [|] [|] [|] [|] [|]]; reflexivity. Qed.

Lemma lower_char_delimiter c : is_delimiter c = true -> lower_char c = c.
Proof. destruct c as [[|] [|] [|] [|] [|] [|] [|] [|]]; vm_compute; congruence. Qed.

Lemma lower_char_no_delimiter c :
  is_delimiter c = false -> is_delimiter (lower_char c) = false.
Proof. destruct c as [[|] [|] [|] [|] [|] [|] [|] [|]]; vm_compute; congruence. Qed.

Lemma upper_char_no_delimiter c :
  is_delimiter c = false -> is_delimiter (upper_char c) = false.
Proof. destruct c as [[|] [|] [|] [|] [|] [|] [|] [|]]; vm_compute; congruence. Qed.

Lemma lower_app (a b : string) : lower (a +:+ b) = lower a +:+ lower b.
Proof.
  induction a as [|x a IH]; [reflexivity |].
  rewrite TextFacts.app_cons. unfold lower in *. simpl. rewrite IH.
  by rewrite TextFacts.app_cons.
Qed.

Lemma lower_lower (w : string) : lower (lower w) = lower w.
Proof.
  unfold lower. induction w as [|c w IH]; [reflexivity |].
  simpl. by rewrite lower_char_idem, IH.
Qed.

Lemma lower_capitalize (w : string) : lower (capitalize w) = lower w.
Proof.
  destruct w as [|c w]; [reflexivity |].
  unfold capitalize. change (lower (String ?x ?r)) with (String (lower_char x) (lower r)).
  by rewrite lower_upper_char, lower_lower.
Qed.

Lemma lower_sconcat_capitalize (ws : list string) :
  lower (sconcat (capitalize <$> ws)) = lower (sconcat ws).
Proof.
  induction ws as [|w ws IH]; [reflexivity |].
  rewrite fmap_cons. cbn [sconcat]. by rewrite !lower_app, lower_capitalize, IH.
Qed.

Lemma lower_delimiters (s : string) : sall is_delimiter s = true -> lower s = s.
Proof.
  unfold lower. induction s as [|c s IH]; [reflexivity |]. simpl.
  intros [Hc Hs]%andb_true_iff. by rewrite lower_char_delimiter, IH.
Qed.

(** The words of a text, put end to end, are the text without its
    delimiters. *)
Lemma sconcat_words_from cur s :
  sconcat (words_from cur s) = cur +:+ squeeze s.
Proof.
  revert cur. induction s as [|c s IH]; intros cur; simpl.
  - destruct cur; [reflexivity |]. simpl. by rewrite !TextFacts.app_empty_r.
  - destruct (is_delimiter c).
    + destruct cur; [apply IH |]. cbn [sconcat]. by rewrite IH.
    + rewrite IH. by rewrite TextFacts.app_assoc_string.
Qed.

(** A non-empty run without delimiters is one word. *)
Lemma words_from_run cur s :
  no_delimiter s = true -> cur +:+ s <> "" ->
  words_from cur s = [cur +:+ s].
Proof.
  revert cur. unfold no_delimiter.
  induction s as [|c s IH]; intros cur Hs Hne; simpl.
  - rewrite TextFacts.app_empty_r in *. by destruct cur.
  - simpl in Hs. apply andb_true_iff in Hs as [Hc Hs].
    apply negb_true_iff in Hc. rewrite Hc.
    rewrite IH; [by rewrite TextFacts.app_assoc_string | exact Hs |].
    rewrite TextFacts.app_assoc_string. by destruct cur.
Qed.

Lemma lower_keeps_no_delimiter w :
  no_delimiter w = true -> no_delimiter (lower w) = true.
Proof.
  unfold no_delimiter, lower. induction w as [|c w IH]; [reflexivity |]. simpl.
  intros [Hc Hw]%andb_true_iff. rewrite IH by exact Hw.
  apply negb_true_iff in Hc. by rewrite lower_char_no_delimiter.
Qed.

Lemma capitalize_keeps_no_delimiter w :
  no_delimiter w = true -> no_delimiter (capitalize w) = true.
Proof.
  destruct w as [|c w]; [reflexivity |]. unfold no_delimiter. simpl.
  intros [Hc Hw]%andb_true_iff. apply negb_true_iff in Hc.
  rewrite upper_char_no_delimiter by exact Hc. simpl.
  by apply lower_keeps_no_delimiter.
Qed.

Lemma sconcat_keeps_no_delimiter ws :
  Forall (fun w => w <> "" /\ no_delimiter w = true) ws ->
  no_delimiter (sconcat (capitalize <$> ws)) = true.
Proof.
  induction 1 as [|w ws [_ Hw] _ IH]; [reflexivity |].
  rewrite fmap_cons. cbn [sconcat]. unfold no_delimiter in *.
  rewrite TextFacts.sall_app. fold (no_delimiter (capitalize w)).
  by rewrite capitalize_keeps_no_delimiter, IH.
Qed.

(** The result for a text with words, as the words see it. *)
Lemma camel_of_words text first others :
  words text = first :: others ->
  safe_camel_case text = lower first +:+ sconcat (capitalize <$> others).
Proof.
  intros Hwords. destruct text as [|c text]; [discriminate |].
  unfold safe_camel_case. rewrite TextFacts.split_words, Hwords.
  apply TextFacts.foldl_camel.
Qed.

(** X9: [safe_camel_case] is not idempotent: applied to its own result
    it lower-cases it, so the capitals that mark the word boundaries are
    lost ([userManagement] becomes [usermanagement]). *)
Theorem camel_case_twice_lowers (text : string) :
  sall ascii7 text = true ->
  safe_camel_case (safe_camel_case text) = lower (safe_camel_case text).
Proof.
  intros _. destruct (words text) as [|first others] eqn:Hwords.
  - assert (Hsame : safe_camel_case text = text).
    { destruct text as [|c text]; [reflexivity |].
      unfold safe_camel_case. by rewrite TextFacts.split_words, Hwords. }
    rewrite !Hsame. symmetry. apply lower_delimiters.
    by apply TextFacts.words_nil.
  - rewrite (camel_of_words text first others Hwords).
    set (out := lower first +:+ sconcat (capitalize <$> others)).
    assert (Hspec : Forall (fun w => w <> "" /\ no_delimiter w = true)
                      (first :: others)).
    { rewrite <- Hwords. by apply TextFacts.words_from_spec. }
    apply Forall_cons in Hspec as [[Hne Hfirst] Hothers].
    assert (Hout : no_delimiter out = true).
    { unfold out, no_delimiter. rewrite TextFacts.sall_app.
      fold (no_delimiter (lower first)).
      fold (no_delimiter (sconcat (capitalize <$> others))).
      by rewrite lower_keeps_no_delimiter, sconcat_keeps_no_delimiter. }
    assert (Hnonempty : out <> "").
    { unfold out. destruct first; [done | discriminate]. }
    rewrite (camel_of_words out out []).
    + simpl. by rewrite TextFacts.app_empty_r.
    + unfold words. by rewrite words_from_run.
Qed.

Lemma camel_case_twice_lowers_witness :
  sall ascii7 "user_management" = true /\
  safe_camel_case "user_management" = "userManagement" /\
  safe_camel_case (safe_camel_case "user_management") = "usermanagement".
Proof.
  split; [reflexivity |]. split; [reflexivity |].
  rewrite (camel_case_twice_lowers "user_management" eq_refl). reflexivity.
Defined.

(** X10: up to letter case, the result for a text that has a word is the
    text with its underscores, hyphens and whitespace deleted: no other
    character is dropped, added or moved. *)
Theorem camel_case_squeezes (text : string) :
  sall ascii7 text = true ->
  sall is_delimiter text = false ->
  lower (safe_camel_case text) = lower (squeeze text).
Proof.
  intros _ Hsome. destruct (words text) as [|first others] eqn:Hwords.
  { apply TextFacts.words_nil in Hwords. congruence. }
  rewrite (camel_of_words text first others Hwords).
  rewrite lower_app, lower_lower, lower_sconcat_capitalize, <- lower_app.
  change (first +:+ sconcat others) with (sconcat (first :: others)).
  rewrite <- Hwords. unfold words. by rewrite sconcat_words_from.
Qed.

Lemma camel_case_squeezes_witness :
  sall ascii7 " api_v2-endPoint " = true /\
  sall is_delimiter " api_v2-endPoint " = false /\
  lower (safe_camel_case " api_v2-endPoint ") = "apiv2endpoint".
Proof.
  split; [reflexivity |]. split; [reflexivity |].
  rewrite (camel_case_squeezes " api_v2-endPoint " eq_refl eq_refl). reflexivity.
Defined.

Section kept_character.
(** A character that no case conversion produces or consumes and that is
    no delimiter. *)
Variable x : ascii.
Hypothesis Hlower : forall c, Ascii.eqb (lower_char c) x = Ascii.eqb c x.
Hypothesis Hupper : forall c, Ascii.eqb (upper_char c) x = Ascii.eqb c x.
Hypothesis Hdelimiter : forall c, is_delimiter c = true -> Ascii.eqb c x = false.

Lemma occurs_lower_kept w : occurs x (lower w) = occurs x w.
Proof.
  unfold lower. induction w as [|c w IH]; [reflexivity |].
  simpl. by rewrite Hlower, IH.
Qed.

Lemma occurs_capitalize_kept w : occurs x (capitalize w) = occurs x w.
Proof.
  destruct w as [|c w]; [reflexivity |]. simpl.
  by rewrite Hupper, occurs_lower_kept.
Qed.

Lemma occurs_sconcat_capitalize_kept ws :
  occurs x (sconcat (capitalize <$> ws)) = occurs x (sconcat ws).
Proof.
  induction ws as [|w ws IH]; [reflexivity |].
  rewrite fmap_cons. cbn [sconcat].
  by rewrite !TextFacts.occurs_app, occurs_capitalize_kept, IH.
Qed.

Lemma occurs_squeeze_kept s : occurs x (squeeze s) = occurs x s.
Proof.
  induction s as [|c s IH]; [reflexivity |]. simpl.
  destruct (is_delimiter c) eqn:Hd; simpl; rewrite IH; [|reflexivity].
  by rewrite Hdelimiter.
Qed.

Lemma occurs_camel_kept text : occurs x (safe_camel_case text) = occurs x text.
Proof.
  destruct (words text) as [|first others] eqn:Hwords.
  - destruct text as [|c text]; [reflexivity |].
    unfold safe_camel_case. by rewrite TextFacts.split_words, Hwords.
  - rewrite (camel_of_words text first others Hwords).
    rewrite TextFacts.occurs_app, occurs_lower_kept, occurs_sconcat_capitalize_kept.
    rewrite <- TextFacts.occurs_app.
    change (first +:+ sconcat others) with (sconcat (first :: others)).
    rewrite <- Hwords. unfold words.
    rewrite sconcat_words_from.
    change (occurs x (squeeze text) = occurs x text). apply occurs_squeeze_kept.
Qed.

End kept_character.

(** X11: [safe_camel_case] lets path characters through: its result holds
    a slash exactly when the text does, and a dot exactly when the text
    does (so [../etc] is returned as [../etc]). *)
Theorem camel_case_keeps_path_characters (text : string) :
  sall ascii7 text = true ->
  occurs "/"%char (safe_camel_case text) = occurs "/"%char text /\
  occurs "."%char (safe_camel_case text) = occurs "."%char text.
Proof.
  intros _. split; apply occurs_camel_kept;
    intros c; destruct c as [[|] [|] [|] [|] [|] [|] [|] [|]];
    vm_compute; congruence.
Qed.

Lemma camel_case_keeps_path_characters_witness :
  sall ascii7 "../etc_passwd" = true /\
  safe_camel_case "../etc_passwd" = "../etcPasswd" /\
  occurs "/"%char (safe_camel_case "../etc_passwd") = true.
Proof.
  split; [reflexivity |]. split; [reflexivity |].
  destruct (camel_case_keeps_path_characters "../etc_passwd" eq_refl) as [Hslash _].
  rewrite Hslash. reflexivity.
Defined.

End CamelCaseFacts.

(* ===================================================================== *)
(** ** Theorems: how long a sanitised text can get *)
(* ===================================================================== *)

Module SanitizeBounds.
Import Text Security.

Lemma length_append (a b : string) :
  String.length (a +:+ b) = (String.length a + String.length b)%nat.
Proof.
  induction a as [|x a IH]; [reflexivity |].
  change (String x a +:+ b) with (String x (a +:+ b)). simpl. by rewrite IH.
Qed.

Lemma append_assoc (a b c : string) : (a +:+ b) +:+ c = a +:+ (b +:+ c).
Proof.
  induction a as [|x a IH]; [reflexivity |].
  change ((String x a +:+ b) +:+ c) with (String x ((a +:+ b) +:+ c)).
  by rewrite IH.
Qed.

Lemma replace_with_app old new (a b : string) :
  replace_with old new (a +:+ b)
  = replace_with old new a +:+ replace_with old new b.
Proof.
  induction a as [|x a IH]; [reflexivity |].
  change (String x a +:+ b) with (String x (a +:+ b)). simpl.
  rewrite IH. destruct (Ascii.eqb x old); [by rewrite append_assoc | reflexivity].
Qed.

Lemma escape_app (a b : string) : escape (a +:+ b) = escape a +:+ escape b.
Proof. unfold escape. by rewrite !replace_with_app. Qed.

(** One character becomes at most six. *)
Lemma escape_char_length c :
  (String.length (escape (String c EmptyString)) <= 6)%nat.
Proof.
  destruct c as [[|] [|] [|] [|] [|] [|] [|] [|]]; vm_compute; lia.
Qed.

Lemma escape_length s :
  (String.length (escape s) <= 6 * String.length s)%nat.
Proof.
  induction s as [|c s IH]; [vm_compute; lia |].
  change (String c s) with (String c EmptyString +:+ s).
  rewrite escape_app, !length_append.
  pose proof (escape_char_length c). simpl String.length. lia.
Qed.

Lemma take_chars_length n s : (String.length (take_chars n s) <= n)%nat.
Proof.
  revert s. induction n as [|n IH]; intros [|c s]; simpl; try lia.
  specialize (IH s). lia.
Qed.

(** X12: [sanitize_input] cuts the text to [max_length] before it writes
    the escapes, so the result may be longer than [max_length]; for a
    non-negative [max_length] it is at most six times as long. *)
Theorem sanitize_input_length (input_data : string) (max_length : Z) :
  0 <= max_length ->
  Z.of_nat (String.length (sanitize_input input_data max_length))
  <= 6 * max_length.
Proof.
  intros Hmax.
  change (sanitize_input input_data max_length)
    with (escape (slice_to max_length (strip input_data))).
  pose proof (escape_length (slice_to max_length (strip input_data))) as Hesc.
  unfold slice_to in *. destruct (Z.leb_spec 0 max_length); [|lia].
  pose proof (take_chars_length (Z.to_nat max_length) (strip input_data)). lia.
Qed.

(** Two quotes cut to two characters come back twelve characters long. *)
Lemma sanitize_input_length_witness :
  0 <= 2 /\
  String.length (sanitize_input "'''" 2) = 12%nat /\
  Z.of_nat (String.length (sanitize_input "'''" 2)) <= 6 * 2.
Proof.
  split; [lia |]. split; [reflexivity |].
  apply (sanitize_input_length "'''" 2). lia.
Defined.

End SanitizeBounds.

(* ===================================================================== *)
(** ** Theorems: what every engine state satisfies *)
(* ===================================================================== *)

Module EngineInvariants.
Import AgentRegistry Engine EngineExt.

Lemma advanced_refl w : advanced w w.
Proof. unfold advanced. auto. Qed.

Lemma advanced_trans w1 w2 w3 : advanced w1 w2 -> advanced w2 w3 -> advanced w1 w3.
Proof.
  unfold advanced. intros (Hi & Hs & Hp) (Hi' & Hs' & Hp').
  repeat split; [congruence | congruence | auto].
Qed.

Lemma started_advanced key w w' : started key w -> advanced w w' -> started key w'.
Proof.
  unfold started, advanced. intros (Hi & Hp & Hs) (Hi' & Hs' & Hp').
  repeat split; [congruence | auto | congruence].
Qed.

Ltac frame := unfold advanced; simpl; repeat split; auto; discriminate.

Lemma select_simple_advanced reg w : advanced w (_select_agents_simple reg w).
Proof. unfold _select_agents_simple. frame. Qed.

Lemma select_agents_advanced de reg w : advanced w (_select_agents de reg w).
Proof.
  unfold _select_agents. destruct de as [evaluate|]; [|frame].
  unfold _select_agents_with_decision_engine.
  destruct (evaluate _ _) as [res|msg]; [|frame].
  repeat (destruct (String.eqb (target_type res) _)); frame.
Qed.

Lemma n8n_advanced na w : advanced w (_execute_n8n_workflow na w).
Proof.
  unfold _execute_n8n_workflow. destruct na as [execute|]; [|frame].
  destruct (execute _ _) as [execution|msg]; [|frame].
  destruct (String.eqb (execution_status execution) "completed"); frame.
Qed.

(** The result processing writes [current_phase] and [results] only. *)
Lemma process_results_frame q w :
  id (_process_results q w) = id w /\
  status (_process_results q w) = status w /\
  started_at (_process_results q w) = started_at w /\
  completed_at (_process_results q w) = completed_at w /\
  tasks (_process_results q w) = tasks w /\
  error (_process_results q w) = error w.
Proof.
  unfold _process_results.
  set (step := fun (w0 : Workflow) (task_id : string) => _).
  assert (Hfold : forall l w0,
            id (foldl step w0 l) = id w0 /\
            status (foldl step w0 l) = status w0 /\
            started_at (foldl step w0 l) = started_at w0 /\
            completed_at (foldl step w0 l) = completed_at w0 /\
            tasks (foldl step w0 l) = tasks w0 /\
            error (foldl step w0 l) = error w0).
  { intros l. induction l as [|task_id l IH]; intros w0;
      [simpl; repeat split; reflexivity |].
    simpl. destruct (IH (step w0 task_id)) as (-> & -> & -> & -> & -> & ->).
    unfold step.
    destruct (TaskQueue.get_task_status task_id q) as [e|];
      [|repeat split; reflexivity].
    destruct (decide _); simpl; repeat split; reflexivity. }
  exact (Hfold (tasks w) (set_current_phase RESULT_PROCESSING w)).
Qed.

Lemma finish_advanced now q w : advanced w (finish now q w).
Proof.
  unfold finish, _complete_workflow, advanced. simpl.
  destruct (process_results_frame q w) as (-> & _ & -> & _).
  repeat split; auto; discriminate.
Qed.

Lemma finish_outcome now q w :
  status (finish now q w) = COMPLETED /\
  completed_at (finish now q w) = Some now /\
  current_phase (finish now q w) = COMPLETION /\
  error (finish now q w) = error w /\
  tasks (finish now q w) = tasks w.
Proof.
  unfold finish, _complete_workflow. simpl.
  destruct (process_results_frame q w) as (_ & _ & _ & _ & -> & ->).
  repeat split; reflexivity.
Qed.

Lemma monitor_advanced now q w :
  advanced w (fst (_monitor_task_execution now q w)).
Proof.
  unfold _monitor_task_execution.
  destruct (tasks w) as [|task_id rest]; [apply finish_advanced |].
  simpl. destruct (poll q (task_id :: rest)); simpl.
  - eapply advanced_trans; [|apply finish_advanced]. frame.
  - frame.
Qed.

(** The enqueue loop writes [tasks] only. *)
Lemma enqueue_frame (l : list Task) :
  forall st,
    id (fst (foldl enqueue_and_assign st l)) = id (fst st) /\
    status (fst (foldl enqueue_and_assign st l)) = status (fst st) /\
    started_at (fst (foldl enqueue_and_assign st l)) = started_at (fst st) /\
    assigned_agents (fst (foldl enqueue_and_assign st l)) = assigned_agents (fst st) /\
    error (fst (foldl enqueue_and_assign st l)) = error (fst st).
Proof.
  induction l as [|tk l IH]; intros st; [simpl; repeat split; reflexivity |].
  simpl. destruct (IH (enqueue_and_assign st tk)) as (-> & -> & -> & -> & ->).
  destruct st as [w q]. unfold enqueue_and_assign.
  destruct (TaskQueue.enqueue_task tk q) as [task_id q1]. simpl.
  destruct (assigned_agents w) eqn:Hagents; simpl; rewrite ?Hagents;
    repeat split; reflexivity.
Qed.

Lemma agent_tasks_advanced w q : advanced w (fst (_execute_agent_tasks w q)).
Proof.
  unfold _execute_agent_tasks, advanced.
  destruct (enqueue_frame (_create_workflow_tasks w) (w, q))
    as (-> & -> & -> & _). simpl. auto.
Qed.

Lemma execute_tasks_advanced na now q w :
  advanced w (fst (fst (_execute_tasks na now q w))).
Proof.
  unfold _execute_tasks.
  destruct (truthy _); simpl.
  - eapply advanced_trans; [|apply finish_advanced].
    eapply advanced_trans; [|apply n8n_advanced]. frame.
  - destruct (_execute_agent_tasks _ q) as [w1 q1] eqn:Hagent.
    pose proof (agent_tasks_advanced (set_current_phase TASK_EXECUTION w) q) as Ha.
    rewrite Hagent in Ha. simpl in Ha.
    pose proof (monitor_advanced now q1 w1) as Hm.
    destruct (_monitor_task_execution now q1 w1) as [w2 pos]. simpl in *.
    eapply advanced_trans; [|exact Hm].
    eapply advanced_trans; [|exact Ha]. frame.
Qed.

(** The invariant on the two tables. *)
Lemma table_ok_init reg q : table_ok (Engine.init reg q).
Proof. split; simpl; intros key x Hx; by rewrite lookup_empty in Hx. Qed.

Lemma table_ok_task_queue q eng : table_ok eng -> table_ok (set_task_queue q eng).
Proof. intros H. exact H. Qed.

Lemma table_ok_insert_workflow w eng :
  table_ok eng -> started (id w) w ->
  table_ok (set_workflows (<[id w := w]> (workflows eng)) eng).
Proof.
  intros [Hws Hrs] Hw. split; simpl.
  - intros key w'. rewrite lookup_insert.
    case_decide; [intros [= <-]; by subst | apply Hws].
  - intros key task Htask. rewrite lookup_insert.
    case_decide; [eauto | eapply Hrs, Htask].
Qed.

Lemma table_ok_insert_running key task eng :
  table_ok eng -> is_Some (workflows eng !! key) ->
  table_ok (set_running_workflows (<[key := task]> (running_workflows eng)) eng).
Proof.
  intros [Hws Hrs] Hkey. split; simpl; [exact Hws |].
  intros key' task'. rewrite lookup_insert.
  case_decide; [intros _; by subst | apply Hrs].
Qed.

Lemma table_ok_leave key eng : table_ok eng -> table_ok (leave key eng).
Proof.
  intros [Hws Hrs]. split; simpl; [exact Hws |].
  intros key' task'. rewrite lookup_delete.
  case_decide; [discriminate | apply Hrs].
Qed.

Lemma table_ok_suspend_at pos w eng :
  table_ok eng -> started (id w) w -> table_ok (suspend_at pos w eng).
Proof.
  intros Hok Hw. pose proof (table_ok_insert_workflow w eng Hok Hw) as Hins.
  assert (Hkey : is_Some (workflows (set_workflows (<[id w := w]> (workflows eng)) eng)
                          !! id w)).
  { simpl. rewrite lookup_insert_eq. eauto. }
  unfold suspend_at.
  destruct pos;
    try exact (table_ok_insert_running (id w) _
                 (set_workflows (<[id w := w]> (workflows eng)) eng) Hins Hkey).
  by apply table_ok_leave.
Qed.

Lemma table_ok_on_cancelled now w eng :
  table_ok eng -> started (id w) w -> table_ok (on_cancelled now w eng).
Proof.
  intros Hok (Hid & Hst & Hsa). unfold on_cancelled.
  apply table_ok_leave.
  apply (table_ok_insert_workflow
           (set_completed_at (Some now) (set_status CANCELLED w)) eng Hok).
  repeat split; [discriminate | exact Hsa].
Qed.

Section collaborators.
Variable decision_engine :
  option (list Agent -> Workflow -> raising DecisionResult).
Variable n8n_adapter :
  option (value -> gmap string value -> raising N8nExecution).

Lemma table_ok_resume now key eng :
  table_ok eng -> table_ok (resume decision_engine n8n_adapter now key eng).
Proof.
  intros Hok. unfold resume.
  destruct (running_workflows eng !! key) as [task|] eqn:Htask; [|exact Hok].
  destruct (workflows eng !! key) as [w|] eqn:Hw; [|exact Hok].
  pose proof (proj1 Hok key w Hw) as Hstarted.
  assert (Hid : id w = key) by apply Hstarted.
  destruct (at_position task); [| | |exact Hok].
  - destruct (must_cancel task).
    + apply table_ok_insert_running; [exact Hok | rewrite Hw; eauto].
    + apply table_ok_suspend_at; [exact Hok |]. simpl. by rewrite Hid.
  - destruct (must_cancel task).
    + apply table_ok_on_cancelled; [exact Hok | by rewrite Hid].
    + pose proof (execute_tasks_advanced n8n_adapter now (task_queue eng)
                    (_select_agents decision_engine (agent_registry eng) w)) as Hadv.
      destruct (_execute_tasks n8n_adapter now (task_queue eng) _)
        as [[w2 q] pos]. simpl in Hadv.
      apply table_ok_suspend_at; [exact Hok |].
      assert (Hw2 : advanced w w2).
      { eapply advanced_trans; [apply select_agents_advanced | exact Hadv]. }
      destruct Hw2 as (Hid2 & _). rewrite Hid2, Hid.
      eapply started_advanced; [exact Hstarted |].
      eapply advanced_trans; [apply select_agents_advanced | exact Hadv].
  - destruct (must_cancel task).
    + apply table_ok_on_cancelled; [exact Hok | by rewrite Hid].
    + pose proof (monitor_advanced now (task_queue eng) w) as Hadv.
      destruct (_monitor_task_execution now (task_queue eng) w) as [w1 pos].
      simpl in Hadv. apply table_ok_suspend_at; [exact Hok |].
      destruct Hadv as (Hid1 & Hrest). rewrite Hid1, Hid.
      eapply started_advanced; [exact Hstarted | split; [exact Hid1 | exact Hrest]].
Qed.

Lemma table_ok_cancel now key eng :
  table_ok eng -> table_ok (snd (cancel_workflow now key eng)).
Proof.
  intros Hok. unfold cancel_workflow.
  destruct (workflows eng !! key) as [w|] eqn:Hw; [|exact Hok].
  destruct (terminal (status w)); [exact Hok |]. simpl.
  destruct (proj1 Hok key w Hw) as (Hid & Hst & Hsa).
  assert (Hrun : table_ok
            (set_running_workflows
               match running_workflows eng !! key with
               | Some task => <[key := mkExec (at_position task) true]>
                                (running_workflows eng)
               | None => running_workflows eng
               end eng)).
  { destruct (running_workflows eng !! key) as [task|].
    - apply table_ok_insert_running; [exact Hok | rewrite Hw; eauto].
    - by destruct eng. }
  pose proof (table_ok_insert_workflow
                (set_completed_at (Some now) (set_status CANCELLED w)) _
                (table_ok_task_queue
                   (foldl (fun q task_id => snd (TaskQueue.cancel_task task_id q))
                          (task_queue eng) (tasks w)) _ Hrun)) as Hins.
  simpl in Hins. rewrite Hid in Hins. apply Hins.
  split; [exact Hid | split; [discriminate | exact Hsa]].
Qed.

Lemma table_ok_shutdown eng : table_ok eng -> table_ok (shutdown eng).
Proof.
  intros [Hws Hrs]. split; simpl; [exact Hws |].
  intros key task. rewrite lookup_fmap.
  destruct (running_workflows eng !! key) as [task'|] eqn:Ht; [|discriminate].
  intros _. eapply Hrs, Ht.
Qed.

Lemma table_ok_perform eng step :
  table_ok eng -> table_ok (perform decision_engine n8n_adapter eng step).
Proof.
  intros Hok. destruct step as [now op]. destruct op; simpl.
  - unfold start_workflow. destruct (_shutdown eng); [exact Hok |].
    apply (table_ok_insert_running (id workflow) _
             (set_workflows
                (<[id workflow := set_started_at (Some now)
                                    (set_status RUNNING workflow)]> (workflows eng))
                eng)).
    + apply (table_ok_insert_workflow
               (set_started_at (Some now) (set_status RUNNING workflow)) eng Hok).
      repeat split; [discriminate | simpl; eauto].
    + simpl. rewrite lookup_insert_eq. eauto.
  - by apply table_ok_resume.
  - by apply table_ok_cancel.
  - unfold route_to_agent. by destruct (TaskQueue.assign_agent _ _ _).
  - exact Hok.
  - unfold handle_results. by destruct (TaskQueue.complete_task _ _ _ _).
  - by apply table_ok_shutdown.
Qed.

(** No operation removes a workflow from the table. *)
Lemma suspend_at_workflows pos w eng :
  workflows (suspend_at pos w eng) = <[id w := w]> (workflows eng) /\
  _shutdown (suspend_at pos w eng) = _shutdown eng.
Proof. unfold suspend_at, leave. destruct pos; simpl; auto. Qed.

Lemma resume_workflows now key eng :
  _shutdown (resume decision_engine n8n_adapter now key eng) = _shutdown eng /\
  (workflows (resume decision_engine n8n_adapter now key eng) = workflows eng \/
   exists w w', workflows eng !! key = Some w /\
     workflows (resume decision_engine n8n_adapter now key eng)
     = <[id w' := w']> (workflows eng) /\ id w' = id w).
Proof.
  unfold resume.
  destruct (running_workflows eng !! key) as [task|]; [|auto].
  destruct (workflows eng !! key) as [w|] eqn:Hw; [|auto].
  destruct (at_position task); [| | |auto].
  - destruct (must_cancel task); [simpl; auto |].
    destruct (suspend_at_workflows InInitialization (_initialize_workflow w) eng)
      as [-> ->]. split; [reflexivity |]. right. eauto.
  - destruct (must_cancel task).
    + split; [reflexivity |]. right.
      exists w, (set_completed_at (Some now) (set_status CANCELLED w)).
      split; [reflexivity |]. split; [reflexivity | reflexivity].
    + pose proof (execute_tasks_advanced n8n_adapter now (task_queue eng)
                    (_select_agents decision_engine (agent_registry eng) w)) as Hadv.
      pose proof (select_agents_advanced decision_engine (agent_registry eng) w)
        as Hsel.
      destruct (_execute_tasks n8n_adapter now (task_queue eng) _)
        as [[w2 q] pos]. simpl in Hadv.
      destruct (suspend_at_workflows pos w2 (set_task_queue q eng)) as [-> ->].
      split; [reflexivity |]. right. exists w, w2.
      split; [reflexivity |]. split; [reflexivity |].
      destruct Hadv as (-> & _). apply Hsel.
  - destruct (must_cancel task).
    + split; [reflexivity |]. right.
      exists w, (set_completed_at (Some now) (set_status CANCELLED w)).
      split; [reflexivity |]. split; [reflexivity | reflexivity].
    + pose proof (monitor_advanced now (task_queue eng) w) as Hadv.
      destruct (_monitor_task_execution now (task_queue eng) w) as [w1 pos].
      simpl in Hadv. destruct (suspend_at_workflows pos w1 eng) as [-> ->].
      split; [reflexivity |]. right. exists w, w1.
      split; [reflexivity |]. split; [reflexivity | apply Hadv].
Qed.

Lemma perform_keeps_workflows eng step :
  dom (workflows eng)
  ⊆ dom (workflows (perform decision_engine n8n_adapter eng step)).
Proof.
  destruct step as [now op]. destruct op; simpl.
  - unfold start_workflow. destruct (_shutdown eng); [done |]. simpl.
    rewrite dom_insert_L. apply union_subseteq_r.
  - destruct (resume_workflows now workflow_id eng)
      as [_ [->|(w & w' & _ & -> & _)]]; [done |].
    rewrite dom_insert_L. apply union_subseteq_r.
  - unfold cancel_workflow.
    destruct (workflows eng !! workflow_id) as [w|]; [|done].
    destruct (terminal (status w)); [done |]. simpl.
    rewrite dom_insert_L. apply union_subseteq_r.
  - unfold route_to_agent. by destruct (TaskQueue.assign_agent _ _ _).
  - done.
  - unfold handle_results. by destruct (TaskQueue.complete_task _ _ _ _).
  - done.
Qed.

(** On an engine that is shutting down no operation adds a workflow or
    clears the flag. *)
Lemma perform_after_shutdown eng step :
  table_ok eng -> _shutdown eng = true ->
  _shutdown (perform decision_engine n8n_adapter eng step) = true /\
  dom (workflows (perform decision_engine n8n_adapter eng step))
  = dom (workflows eng).
Proof.
  intros Hok Hdown. destruct step as [now op]. destruct op; simpl.
  - unfold start_workflow. by rewrite Hdown.
  - destruct (resume_workflows now workflow_id eng)
      as [-> [->|(w & w' & Hw & -> & Hid)]]; [done |].
    split; [exact Hdown |]. rewrite dom_insert_L.
    destruct (proj1 Hok workflow_id w Hw) as (Hkey & _).
    assert (Hin : id w' ∈ dom (workflows eng)).
    { apply elem_of_dom. rewrite Hid, Hkey, Hw. eauto. }
    apply subseteq_union_1_L, singleton_subseteq_l, Hin.
  - unfold cancel_workflow.
    destruct (workflows eng !! workflow_id) as [w|] eqn:Hw; [|done].
    destruct (terminal (status w)); [done |]. simpl.
    split; [exact Hdown |]. rewrite dom_insert_L.
    assert (Hin : workflow_id ∈ dom (workflows eng)).
    { apply elem_of_dom. rewrite Hw. eauto. }
    apply subseteq_union_1_L, singleton_subseteq_l, Hin.
  - unfold route_to_agent. by destruct (TaskQueue.assign_agent _ _ _).
  - done.
  - unfold handle_results. by destruct (TaskQueue.complete_task _ _ _ _).
  - done.
Qed.

Lemma run_after_shutdown steps eng :
  table_ok eng -> _shutdown eng = true ->
  _shutdown (run decision_engine n8n_adapter steps eng) = true /\
  dom (workflows (run decision_engine n8n_adapter steps eng))
  = dom (workflows eng).
Proof.
  revert eng. induction steps as [|step steps IH]; intros eng Hok Hdown; [done |].
  simpl. destruct (perform_after_shutdown eng step Hok Hdown) as [Hflag Hdom].
  destruct (IH _ (table_ok_perform eng step Hok) Hflag) as [-> ->]. auto.
Qed.

Lemma table_ok_run steps eng :
  table_ok eng -> table_ok (run decision_engine n8n_adapter steps eng).
Proof.
  revert eng. induction steps as [|step steps IH]; intros eng Hok; [exact Hok |].
  simpl. apply IH. by apply table_ok_perform.
Qed.

Lemma count_status_none s (ws : list Workflow) :
  Forall (fun w => status w <> s) ws -> count_status s ws = 0%nat.
Proof.
  unfold count_status. induction 1 as [|w ws Hw _ IH]; [reflexivity |].
  simpl. by rewrite bool_decide_eq_false_2.
Qed.

(** X15: in every state an engine can reach from its construction, by any
    history of operations and with any decision engine and automation
    client, every workflow of the table is kept under its own id, is no
    longer PENDING and has [started_at] set, and every execution task in
    [running_workflows] belongs to a workflow of the table. *)
Theorem engine_table_invariant (steps : list (Z * operation))
    (reg : AgentRegistry.t) (q : TaskQueue.t) :
  table_ok (run decision_engine n8n_adapter steps (Engine.init reg q)).
Proof. apply table_ok_run, table_ok_init. Qed.

(** X16: the [pending_workflows] counter of [get_workflow_stats] is 0 in
    every state an engine can reach: a workflow enters the table in
    [start_workflow], which makes it RUNNING at once. *)
Theorem pending_counter_is_zero (steps : list (Z * operation))
    (reg : AgentRegistry.t) (q : TaskQueue.t) :
  pending_workflows
    (get_workflow_stats (run decision_engine n8n_adapter steps (Engine.init reg q)))
  = 0%nat.
Proof.
  pose proof (table_ok_run steps _ (table_ok_init reg q)) as [Hws _].
  unfold get_workflow_stats. simpl. apply count_status_none.
  unfold values. apply Forall_fmap, Forall_forall. intros [key w] Hin.
  apply elem_of_map_to_list in Hin. simpl. by destruct (Hws key w Hin) as (_ & ? & _).
Qed.

(** X17: the engine never forgets a workflow: no operation removes an id
    from the workflow table, so the table only grows over any history. *)
Theorem workflows_never_removed (steps : list (Z * operation)) (eng : Engine.t) :
  dom (workflows eng)
  ⊆ dom (workflows (run decision_engine n8n_adapter steps eng)).
Proof.
  revert eng. induction steps as [|step steps IH]; intros eng; [done |].
  simpl. etrans; [apply perform_keeps_workflows | apply IH].
Qed.

(** X18: [shutdown] is permanent: after it, whatever operations follow,
    the flag stays set, every [start_workflow] is refused, and the table
    holds the same workflow ids as at the shutdown. *)
Theorem shutdown_is_permanent (before after : list (Z * operation))
    (reg : AgentRegistry.t) (q : TaskQueue.t) (now : Z) (workflow : Workflow) :
  let eng := run decision_engine n8n_adapter before (Engine.init reg q) in
  let eng' := run decision_engine n8n_adapter after (shutdown eng) in
  _shutdown eng' = true /\
  dom (workflows eng') = dom (workflows eng) /\
  start_workflow now workflow eng' = Raise "Workflow engine is shutting down".
Proof.
  intros eng eng'.
  destruct (run_after_shutdown after (shutdown eng)) as [Hflag Hdom].
  - apply table_ok_shutdown, table_ok_run, table_ok_init.
  - reflexivity.
  - split; [exact Hflag |]. split; [exact Hdom |].
    unfold start_workflow. replace (_shutdown eng') with true. reflexivity.
Qed.

End collaborators.

End EngineInvariants.

(* ===================================================================== *)
(** ** Theorems: the phases of a workflow *)
(* ===================================================================== *)

Module EngineFlowFacts.
Import AgentRegistry Engine EngineExt Scenarios EngineInvariants.

(** *** The monitor *)

Lemma list_remove_other x y l :
  y <> x -> list_remove x (y :: l) = y :: list_remove x l.
Proof.
  intros Hne. simpl. destruct (String.eqb y x) eqn:Heq; [|reflexivity].
  by apply String.eqb_eq in Heq.
Qed.

(** Removing ids that are not at the head leaves the head in place. *)
Lemma remove_all_keeps_head (done_ids : list string) :
  forall y l, y ∉ done_ids ->
    foldl (fun remaining task_id => list_remove task_id remaining) (y :: l) done_ids
    = y :: foldl (fun remaining task_id => list_remove task_id remaining) l done_ids.
Proof.
  induction done_ids as [|x done_ids IH]; intros y l Hy; [reflexivity |].
  apply not_elem_of_cons in Hy as [Hne Hy].
  cbn [foldl]. rewrite list_remove_other by done. by apply IH.
Qed.

(** One pass of the monitor leaves exactly the unfinished ids, in their
    order; repeated ids included. *)
Lemma poll_filter q (task_ids : list string) :
  poll q task_ids = List.filter (unfinished q) task_ids.
Proof.
  unfold poll. induction task_ids as [|y l IH]; [reflexivity |].
  unfold unfinished in *. simpl. destruct (finished_task q y) eqn:Hy; simpl.
  - rewrite String.eqb_refl. exact IH.
  - rewrite remove_all_keeps_head; [by rewrite IH |].
    rewrite list_elem_of_In, filter_In. intros [_ Hfin]. congruence.
Qed.

Lemma filter_unfinished_nil q (task_ids : list string) :
  Forall (fun task_id => finished_task q task_id = true) task_ids ->
  List.filter (unfinished q) task_ids = [].
Proof.
  induction 1 as [|y l Hy _ IH]; [reflexivity |].
  simpl. unfold unfinished at 1. by rewrite Hy.
Qed.

(** X19: when every task of the workflow has reached a final status in the
    queue, one pass of the monitor ends the workflow as COMPLETED at the
    current clock reading, also when tasks FAILED or were CANCELLED: the
    status of the tasks is logged only, the workflow's [error] stays as it
    was and its task list is emptied. *)
Theorem monitor_completes_despite_failures (now : Z) (q : TaskQueue.t)
    (w : Workflow) :
  Forall (fun task_id => finished_task q task_id = true) (tasks w) ->
  snd (_monitor_task_execution now q w) = Finished /\
  status (fst (_monitor_task_execution now q w)) = COMPLETED /\
  completed_at (fst (_monitor_task_execution now q w)) = Some now /\
  error (fst (_monitor_task_execution now q w)) = error w /\
  tasks (fst (_monitor_task_execution now q w)) = [].
Proof.
  intros Hall.
  assert (Hpoll : poll q (tasks w) = []).
  { rewrite poll_filter. by apply filter_unfinished_nil. }
  unfold _monitor_task_execution.
  destruct (tasks w) as [|task_id rest] eqn:Htasks; cbn [fst snd].
  - destruct (finish_outcome now q w) as (-> & -> & _ & -> & ->). auto.
  - rewrite Hpoll. cbn [tasks set_tasks fst snd].
    destruct (finish_outcome now q (set_tasks [] w)) as (-> & -> & _ & -> & ->).
    auto.
Qed.

(** The theorem at a workflow whose only task has FAILED. *)
Lemma monitor_completes_despite_failures_witness :
  let tk := mkTask "execute_workflow" ∅ NORMAL in
  let q0 := snd (TaskQueue.enqueue_task tk TaskQueue.empty) in
  let q1 := snd (TaskQueue.assign_agent "task-0" "A1" q0) in
  let q2 := snd (TaskQueue.start_task "task-0" q1) in
  let q := snd (TaskQueue.complete_task "task-0" VNone (Some "boom") q2) in
  let w := set_tasks ["task-0"] s1_workflow in
  TaskQueue.status <$> TaskQueue.get_task_status "task-0" q = Some TaskQueue.FAILED /\
  status (fst (_monitor_task_execution 9 q w)) = COMPLETED /\
  error (fst (_monitor_task_execution 9 q w)) = None.
Proof.
  intros tk q0 q1 q2 q w. split; [vm_compute; reflexivity |].
  destruct (monitor_completes_despite_failures 9 q w) as (_ & Hs & _ & He & _).
  - repeat constructor.
  - split; [exact Hs | exact He].
Defined.

(** X20: while one id of [workflow.tasks] is not in a final status, or is
    unknown to the queue, a pass of the monitor does not end the workflow:
    it drops the finished ids from [workflow.tasks], keeps the others in
    their order, changes nothing else and goes back to sleep. *)
Theorem monitor_waits_for_unfinished (now : Z) (q : TaskQueue.t)
    (w : Workflow) (task_id : string) :
  task_id ∈ tasks w -> finished_task q task_id = false ->
  _monitor_task_execution now q w
  = (set_tasks (List.filter (unfinished q) (tasks w)) w, InMonitor) /\
  task_id ∈ List.filter (unfinished q) (tasks w).
Proof.
  intros Hin Hopen.
  assert (Hkept : task_id ∈ List.filter (unfinished q) (tasks w)).
  { rewrite list_elem_of_In, filter_In, <- list_elem_of_In.
    split; [exact Hin |]. unfold unfinished. by rewrite Hopen. }
  split; [|exact Hkept].
  unfold _monitor_task_execution.
  destruct (tasks w) as [|first rest] eqn:Htasks; [by apply elem_of_nil in Hin |].
  rewrite poll_filter. cbn [tasks set_tasks].
  destruct (List.filter (unfinished q) (first :: rest)) as [|kept others];
    [by apply elem_of_nil in Hkept | reflexivity].
Qed.

(** The theorem at S1 after the dispatch, when the agent has completed the
    first task only. *)
Lemma monitor_waits_for_unfinished_witness :
  let eng := play (s1_dispatch ++ agent_completes 3 "task-0" VNone) s1_engine in
  let w := set_tasks ["task-0"; "task-1"; "task-2"] s1_workflow in
  snd (_monitor_task_execution 4 (task_queue eng) w) = InMonitor /\
  tasks (fst (_monitor_task_execution 4 (task_queue eng) w)) = ["task-1"; "task-2"].
Proof.
  intros eng w.
  destruct (monitor_waits_for_unfinished 4 (task_queue eng) w "task-1") as [-> _].
  - apply list_elem_of_In. simpl. auto.
  - vm_compute. reflexivity.
  - split; [reflexivity | vm_compute; reflexivity].
Defined.

(** *** The external-flow route *)

(** For a client that answers without suspending, the method taken in one
    piece does what it does from the await on. *)
Lemma n8n_after_await_atomic
    (client : value -> gmap string value -> raising N8nExecution) (w : Workflow) :
  n8n_after_await
    (delivered_of (client (dict_get "n8n_workflow_id" (metadata w)) (payload w))) w
  = Some (_execute_n8n_workflow (Some client) w).
Proof.
  unfold _execute_n8n_workflow.
  by destruct (client _ _) as [execution|e].
Qed.


(** *** The fallback agent selection *)

Lemma add_key_elem key keys x : x ∈ add_key key keys <-> x ∈ keys \/ x = key.
Proof.
  unfold add_key. case_bool_decide as Hin.
  - split; [auto | intros [H| ->]; auto].
  - rewrite elem_of_app, list_elem_of_singleton. tauto.
Qed.

Lemma add_key_NoDup key keys : NoDup keys -> NoDup (add_key key keys).
Proof.
  intros Hnd. unfold add_key. case_bool_decide as Hin; [exact Hnd |].
  apply NoDup_app. split; [exact Hnd |]. split; [|apply NoDup_singleton].
  intros x Hx Hkey. apply list_elem_of_singleton in Hkey. by subst.
Qed.

(** The loop that fills the dict [unique_agents]. *)
Lemma unique_agents_spec (agents : list Agent) :
  forall keys, NoDup keys ->
    NoDup (foldl (fun keys agent =>
                    if negb (String.eqb (agent_id agent) "") && is_active agent
                    then add_key (agent_id agent) keys else keys) keys agents) /\
    forall x,
      x ∈ foldl (fun keys agent =>
                   if negb (String.eqb (agent_id agent) "") && is_active agent
                   then add_key (agent_id agent) keys else keys) keys agents
      <-> x ∈ keys \/
          exists a, a ∈ agents /\ agent_id a = x /\ x <> "" /\ agent_status a = active.
Proof.
  induction agents as [|agent agents IH]; intros keys Hnd.
  - simpl. split; [exact Hnd |]. intros x. split; [auto |].
    intros [H|(a & Ha & _)]; [exact H | by apply elem_of_nil in Ha].
  - cbn [foldl].
    destruct (negb (String.eqb (agent_id agent) "") && is_active agent) eqn:Hok.
    + apply andb_true_iff in Hok as [Hid Hact].
      apply negb_true_iff, String.eqb_neq in Hid.
      unfold is_active in Hact. apply bool_decide_eq_true in Hact.
      destruct (IH _ (add_key_NoDup (agent_id agent) keys Hnd)) as [Hnd' Hmem].
      split; [exact Hnd' |]. intros x. rewrite Hmem, add_key_elem. split.
      * intros [[H| ->]|(a & Ha & Hrest)]; [auto | |].
        -- right. exists agent. split; [apply list_elem_of_here | auto].
        -- right. exists a. split; [by apply list_elem_of_further | exact Hrest].
      * intros [H|(a & Ha & Hx & Hne & Hst)]; [auto |].
        apply elem_of_cons in Ha as [->|Ha]; [auto |].
        right. exists a. auto.
    + destruct (IH _ Hnd) as [Hnd' Hmem].
      split; [exact Hnd' |]. intros x. rewrite Hmem. split.
      * intros [H|(a & Ha & Hrest)]; [auto |].
        right. exists a. split; [by apply list_elem_of_further | exact Hrest].
      * intros [H|(a & Ha & Hx & Hne & Hst)]; [auto |].
        apply elem_of_cons in Ha as [->|Ha]; [|right; exists a; auto].
        apply andb_false_iff in Hok as [Hid|Hact].
        -- apply negb_false_iff, String.eqb_eq in Hid. congruence.
        -- unfold is_active in Hact. apply bool_decide_eq_false in Hact. done.
Qed.

Lemma suitable_agents_elem (reg : AgentRegistry.t) (required : list string) a :
  a ∈ flat_map (fun capability => find_agents_by_capability capability reg) required
  <-> a ∈ reg /\ agent_status a = active /\
      exists capability, capability ∈ required /\ capability ∈ capabilities a.
Proof.
  rewrite list_elem_of_In, in_flat_map. unfold find_agents_by_capability.
  split.
  - intros (capability & Hc & Ha). apply filter_In in Ha as [Ha Hok].
    apply andb_true_iff in Hok as [Hcap Hact].
    unfold has_capability in Hcap. apply bool_decide_eq_true in Hcap.
    unfold is_active in Hact. apply bool_decide_eq_true in Hact.
    split; [by apply list_elem_of_In |]. split; [exact Hact |].
    exists capability. split; [by apply list_elem_of_In | exact Hcap].
  - intros (Ha & Hact & capability & Hc & Hcap). exists capability.
    split; [by apply list_elem_of_In |]. apply filter_In.
    split; [by apply list_elem_of_In |]. apply andb_true_iff.
    unfold has_capability, is_active.
    split; by apply bool_decide_eq_true.
Qed.

(** X22: the fallback selection is sound and complete and lists nobody
    twice: [assigned_agents] holds an id exactly when a registered, active
    agent with that id, the id not empty, holds one of the capabilities
    required for the workflow type; an agent found under several
    capabilities is listed once. *)
Theorem select_agents_simple_sound_complete (reg : AgentRegistry.t)
    (w : Workflow) :
  NoDup (assigned_agents (_select_agents_simple reg w)) /\
  forall wanted,
    wanted ∈ assigned_agents (_select_agents_simple reg w)
    <-> suitable reg (workflow_type w) wanted.
Proof.
  unfold _select_agents_simple. cbn [assigned_agents set_assigned_agents].
  destruct (unique_agents_spec
              (flat_map (fun capability => find_agents_by_capability capability reg)
                        (_get_required_capabilities (workflow_type w)))
              [] (NoDup_nil_2)) as [Hnd Hmem].
  split; [exact Hnd |]. intros wanted. rewrite Hmem. unfold suitable. split.
  - intros [H|(a & Ha & Hid & Hne & Hst)]; [by apply elem_of_nil in H |].
    apply suitable_agents_elem in Ha as (Hreg & _ & Hcap).
    exists a. auto.
  - intros (a & Hreg & Hid & Hne & Hst & Hcap). right. exists a.
    split; [|auto]. apply suitable_agents_elem. auto.
Qed.

(** *** Cancellation is final *)

Lemma suspend_at_other pos w eng key :
  id w <> key ->
  workflows (suspend_at pos w eng) !! key = workflows eng !! key /\
  running_workflows (suspend_at pos w eng) !! key = running_workflows eng !! key.
Proof.
  intros Hne. unfold suspend_at, leave.
  destruct pos; simpl; rewrite ?lookup_insert_ne, ?lookup_delete_ne by done; auto.
Qed.

Lemma on_cancelled_other now w eng key :
  id w <> key ->
  workflows (on_cancelled now w eng) !! key = workflows eng !! key /\
  running_workflows (on_cancelled now w eng) !! key = running_workflows eng !! key.
Proof.
  intros Hne. unfold on_cancelled, leave. simpl.
  rewrite ?lookup_insert_ne, ?lookup_delete_ne by done. auto.
Qed.

Section collaborators.
Variable decision_engine :
  option (list Agent -> Workflow -> raising DecisionResult).
Variable n8n_adapter :
  option (value -> gmap string value -> raising N8nExecution).

(** A turn of the execution task of one workflow leaves the other
    workflows and their execution tasks alone. *)
Lemma resume_other now key' key eng :
  table_ok eng -> key' <> key ->
  workflows (resume decision_engine n8n_adapter now key' eng) !! key
  = workflows eng !! key /\
  running_workflows (resume decision_engine n8n_adapter now key' eng) !! key
  = running_workflows eng !! key.
Proof.
  intros Hok Hne. unfold resume.
  destruct (running_workflows eng !! key') as [task|]; [|auto].
  destruct (workflows eng !! key') as [w|] eqn:Hw; [|auto].
  destruct (proj1 Hok key' w Hw) as (Hid & _).
  destruct (at_position task); [| | |auto].
  - destruct (must_cancel task).
    + simpl. by rewrite lookup_insert_ne.
    + apply suspend_at_other. simpl. congruence.
  - destruct (must_cancel task); [apply on_cancelled_other; congruence |].
    pose proof (execute_tasks_advanced n8n_adapter now (task_queue eng)
                  (_select_agents decision_engine (agent_registry eng) w)) as Hadv.
    pose proof (select_agents_advanced decision_engine (agent_registry eng) w)
      as Hsel.
    destruct (_execute_tasks n8n_adapter now (task_queue eng) _) as [[w2 q] pos].
    simpl in Hadv.
    apply (suspend_at_other pos w2 (set_task_queue q eng)).
    destruct Hadv as (-> & _). destruct Hsel as (-> & _). congruence.
  - destruct (must_cancel task); [apply on_cancelled_other; congruence |].
    pose proof (monitor_advanced now (task_queue eng) w) as Hadv.
    destruct (_monitor_task_execution now (task_queue eng) w) as [w1 pos].
    simpl in Hadv. apply suspend_at_other.
    destruct Hadv as (-> & _). congruence.
Qed.

Lemma cancelled_for_good_perform key eng step :
  table_ok eng -> cancelled_for_good key eng -> starts key step = false ->
  cancelled_for_good key (perform decision_engine n8n_adapter eng step).
Proof.
  intros Hok Hc Hstep. destruct step as [now op]. destruct op; simpl.
  - unfold starts in Hstep. simpl in Hstep. apply bool_decide_eq_false in Hstep.
    unfold start_workflow. destruct (_shutdown eng); [exact Hc |].
    unfold cancelled_for_good. simpl. rewrite !lookup_insert_ne by done. exact Hc.
  - destruct (decide (workflow_id = key)) as [->|Hne].
    + pose proof Hc as Hstay. destruct Hc as [(w & Hw & Hs) Hrun]. unfold resume.
      destruct (running_workflows eng !! key) as [task|] eqn:Htask;
        [|exact Hstay].
      rewrite Hw. destruct (proj1 Hok key w Hw) as (Hid & _).
      assert (Hagain : cancelled_for_good key (on_cancelled now w eng)).
      { unfold on_cancelled, leave. split; simpl; rewrite Hid.
        - rewrite lookup_insert_eq. eauto.
        - intros task'. by rewrite lookup_delete_eq. }
      destruct (Hrun task eq_refl) as [Hmc|Hfin].
      * rewrite Hmc. destruct (at_position task);
          [|exact Hagain|exact Hagain|exact Hstay].
        split; simpl; [eauto |].
        intros task'. rewrite lookup_insert_eq. intros [= <-]. auto.
      * rewrite Hfin. exact Hstay.
    + destruct (resume_other now workflow_id key eng Hok Hne) as [Hws Hrs].
      unfold cancelled_for_good. rewrite Hws, Hrs. exact Hc.
  - unfold cancel_workflow. destruct (decide (workflow_id = key)) as [->|Hne].
    + pose proof Hc as Hstay. destruct Hc as [(w & Hw & Hs) Hrun].
      rewrite Hw, Hs. exact Hstay.
    + destruct (workflows eng !! workflow_id) as [w'|]; [|exact Hc].
      destruct (terminal (status w')); [exact Hc |].
      unfold cancelled_for_good. simpl. rewrite lookup_insert_ne by done.
      split; [exact (proj1 Hc) |].
      destruct (running_workflows eng !! workflow_id);
        [rewrite lookup_insert_ne by done|]; exact (proj2 Hc).
  - unfold route_to_agent. destruct (TaskQueue.assign_agent _ _ _). exact Hc.
  - exact Hc.
  - unfold handle_results. destruct (TaskQueue.complete_task _ _ _ _). exact Hc.
  - split; simpl; [exact (proj1 Hc) |].
    intros task. rewrite lookup_fmap.
    destruct (running_workflows eng !! key); simpl; [|discriminate].
    intros [= <-]. auto.
Qed.

Lemma cancelled_for_good_run key steps :
  forall eng, table_ok eng -> cancelled_for_good key eng ->
    Forall (fun step => starts key step = false) steps ->
    cancelled_for_good key (run decision_engine n8n_adapter steps eng).
Proof.
  induction steps as [|step steps IH]; intros eng Hok Hc Hsteps; [exact Hc |].
  apply Forall_cons in Hsteps as [Hstep Hsteps]. simpl.
  apply IH; [by apply table_ok_perform | by apply cancelled_for_good_perform | done].
Qed.

End collaborators.

(** X23: a cancelled workflow stays cancelled.  After [cancel_workflow]
    has returned True for a workflow, no later operation brings it back:
    turns of its own execution task (which is resumed with CancelledError),
    turns of other workflows, task results, further cancellations and
    [shutdown] all leave its status CANCELLED, and every further
    [cancel_workflow] on it returns False and changes nothing.  Histories
    that hand the same workflow id to [start_workflow] again are left
    out, since each such call creates one more execution task for the
    workflow: the id is started at most once before the cancellation and
    not after it. *)
Theorem cancelled_stays_cancelled
    (decision_engine : option (list Agent -> Workflow -> raising DecisionResult))
    (n8n_adapter : option (value -> gmap string value -> raising N8nExecution))
    (before after : list (Z * operation))
    (reg : AgentRegistry.t) (q : TaskQueue.t) (now : Z) (key : string) :
  let eng := run decision_engine n8n_adapter before (Engine.init reg q) in
  let eng' := run decision_engine n8n_adapter after
                  (snd (cancel_workflow now key eng)) in
  (starts_of key before <= 1)%nat ->
  fst (cancel_workflow now key eng) = true ->
  Forall (fun step => starts key step = false) after ->
  (exists w, workflows eng' !! key = Some w /\ status w = CANCELLED) /\
  forall now', cancel_workflow now' key eng' = (false, eng').
Proof.
  intros eng eng' _ Htrue Hafter.
  assert (Hok : table_ok eng) by apply table_ok_run, table_ok_init.
  assert (Hc : cancelled_for_good key (snd (cancel_workflow now key eng))).
  { revert Htrue. unfold cancel_workflow.
    destruct (workflows eng !! key) as [w|]; [|discriminate].
    destruct (terminal (status w)); [discriminate |]. intros _.
    split; simpl.
    - rewrite lookup_insert_eq. eauto.
    - intros task. destruct (running_workflows eng !! key) as [task'|] eqn:Hrun.
      + rewrite lookup_insert_eq. intros [= <-]. auto.
      + by rewrite Hrun. }
  pose proof (cancelled_for_good_run decision_engine n8n_adapter key after _
                (table_ok_cancel now key eng Hok) Hc Hafter) as [Hw _].
  fold eng' in Hw. split; [exact Hw |].
  intros now'. destruct Hw as (w & Hw & Hs).
  unfold cancel_workflow. by rewrite Hw, Hs.
Qed.

(** The theorem at S4: the workflow is cancelled while its execution task
    sleeps; the task gets its turn, the agent reports a result, the engine
    shuts down. *)
Lemma cancelled_stays_cancelled_witness :
  let eng := play [ (0, StartWorkflow s1_workflow); (1, Resume "wf-1") ] s1_engine in
  let later := [ (6, Resume "wf-1"); (7, HandleResults "task-0" VNone None);
                 (8, Shutdown); (9, Resume "wf-1") ] in
  fst (cancel_workflow 5 "wf-1" eng) = true /\
  status <$> workflows (play later (snd (cancel_workflow 5 "wf-1" eng))) !! "wf-1"
  = Some CANCELLED.
Proof.
  intros eng later. split; [vm_compute; reflexivity |].
  destruct (cancelled_stays_cancelled no_decision_engine no_n8n_adapter
              [ (0, StartWorkflow s1_workflow); (1, Resume "wf-1") ] later
              (register A1 []) TaskQueue.empty 5 "wf-1")
    as [(w & Hw & Hs) _].
  - vm_compute. lia.
  - vm_compute. reflexivity.
  - repeat constructor.
  - etrans; [exact (f_equal (fmap status) Hw) | simpl; by rewrite Hs].
Defined.

(** *** The complexity estimate *)

Lemma type_complexity_range workflow_type :
  2 <= type_complexity workflow_type <= 10.
Proof.
  unfold type_complexity.
  repeat (destruct (String.eqb workflow_type _); [lia |]). lia.
Qed.

(** X24: the complexity estimate lies between 2 and 10 for every workflow
    and payload size (the value 1 of the announced 1-10 scale is never
    returned: the initial 1 is overwritten by the type's entry or by the
    default 3), and it does not decrease when the payload grows. *)
Theorem complexity_scale (payload_size : Z) (w : Workflow) :
  2 <= _assess_workflow_complexity payload_size w <= 10 /\
  forall larger, payload_size <= larger ->
    _assess_workflow_complexity payload_size w
    <= _assess_workflow_complexity larger w.
Proof.
  pose proof (type_complexity_range (workflow_type w)) as Hrange.
  unfold _assess_workflow_complexity. split.
  - destruct (Z.ltb_spec 10000 payload_size), (Z.ltb_spec 1000 payload_size),
      (priority w); lia.
  - intros larger Hle.
    destruct (Z.ltb_spec 10000 payload_size), (Z.ltb_spec 1000 payload_size),
      (Z.ltb_spec 10000 larger), (Z.ltb_spec 1000 larger), (priority w); lia.
Qed.

End EngineFlowFacts.
